(** * Query-time matching and ranking of the search engine (search/query.cpp)

    A shallow embedding of [search::impl::Query] and of the helpers of the
    unnamed namespace of query.cpp, followed by the properties of the
    specification that are about them.

    Conventions of the embedding.
    - [uint32_t] and [int] values are integers of [Z]; the arithmetic that can
      leave the range of its type is wrapped explicitly ([u32], [i32]).
    - A [strings::UniString] is the list of its [strings::UniChar]s; a
      (pointer, size) pair passed to a matching function is the list of the
      [size] characters it designates.
    - [std::priority_queue<IntermediateResult>] is the list of its elements
      with the top (the greatest element for [operator<]) first.
    - [unordered_map<uint32_t, uint32_t>] is a [gmap Z Z].
    - The callback [f] of [Query::Search] and the reads of the termination
      flag are recorded, in order, in an event log. *)

From Stdlib Require Import ZArith Lia Bool Floats.
From stdpp Require Import base list sorting gmap strings.

Local Open Scope Z_scope.

(** ** Machine integers *)

Definition u32 (x : Z) : Z := x mod 2 ^ 32.

Definition i32 (x : Z) : Z := (x + 2 ^ 31) mod 2 ^ 32 - 2 ^ 31.

(** ** Strings *)

Definition UniChar := Z.
Definition UniString := list UniChar.

(** ** The matching functions of the unnamed namespace *)

(** The loop shared by [KeywordMatch] and [PrefixMatch]: while [sA] is not at
    [endA], compare the characters under [sA] and [sB], advance both, and
    return [maxCost + 1] at the first difference.  Both callers guard it with
    a size test that keeps the read of B inside B; the branch for an exhausted
    B is therefore never taken from them. *)
Fixpoint match_loop (sA sB : UniString) (maxCost : Z) : Z :=
  match sA with
  | [] => 0
  | a :: sA' =>
      match sB with
      | b :: sB' =>
          if negb (a =? b) then u32 (maxCost + 1) else match_loop sA' sB' maxCost
      | [] => u32 (maxCost + 1)
      end
  end.

Definition KeywordMatch (sA sB : UniString) (maxCost : Z) : Z :=
  if negb (length sA =? length sB)%nat then u32 (maxCost + 1)
  else match_loop sA sB maxCost.

Definition PrefixMatch (sA sB : UniString) (maxCost : Z) : Z :=
  if (length sB <? length sA)%nat then u32 (maxCost + 1)
  else match_loop sA sB maxCost.

Definition GetMaxKeywordMatchScore : Z := 512.

Definition GetMaxPrefixMatchScore (size : Z) : Z :=
  if size <? 3 then 1
  else if size <? 6 then 256
  else 512.


(** ** Data the query works on *)

(** Modelled from the spec: [Category] and [Category::Name] (declared in
    categories_holder.hpp, which is missing), with the fields that query.cpp
    reads: a set of synonym names, each with the minimum prefix length that
    triggers a suggestion, and the entity-type codes the entry denotes. *)
Record Name := {
  m_name : string;
  m_prefixLengthToSuggest : Z
}.

Record Category := {
  m_synonyms : list Name;
  m_types : list Z
}.

(** What the engine observes of a [FeatureType]: the types enumerated by
    [ForEachTypeRef], the (language, name) pairs enumerated by
    [ForEachNameRef], and the pair returned for the feature by
    [feature::DrawableScaleRangeForText]. *)
Record FeatureType := {
  ft_types : list Z;
  ft_names : list (Z * string);
  DrawableScaleRangeForText : Z * Z
}.

(** The collaborators that query.cpp calls and does not define: the
    rectangle and floating-point types, the delimiter classifier, text
    normalisation, coordinate parsing and the scale functions. *)
Class External := {
  RectD : Type;
  double : Type;
  delims : UniChar -> bool;
  NormalizeAndSimplifyString : string -> UniString;
  LastUniChar : string -> UniChar;
  (** [search::MatchLatLon]: on success the values left in
      [lat], [lon], [latPrec], [lonPrec]. *)
  MatchLatLon : string -> option (double * double * double * double);
  (** The expression [5.0 * max(0.0001, min(latPrec, lonPrec))]. *)
  latlon_precision : double -> double -> double;
  GetScaleLevel : RectD -> Z;
  GetUpperWorldScale : Z;
  GetUpperScale : Z
}.

Definition string_empty (s : string) : bool :=
  match s with
  | EmptyString => true
  | String _ _ => false
  end.

Section Engine.

Context {E : External}.

(** Modelled from the spec: [SplitUniString] with [search::Delimiters]
    (string_search_utils.hpp is missing): the text is split on the
    delimiter classifier into its maximal runs of non-delimiter
    characters, in order.  [cur] is the run being read. *)
Fixpoint split_from (cur : UniString) (s : UniString) : list UniString :=
  match s with
  | [] => match cur with [] => [] | _ => [cur] end
  | c :: s' =>
      if delims c
      then match cur with
           | [] => split_from [] s'
           | _ => cur :: split_from [] s'
           end
      else split_from (cur ++ [c]) s'
  end.

Definition SplitUniString (s : UniString) : list UniString := split_from [] s.

(** *** Intermediate and final results *)

(** The three constructors of [IntermediateResult] that query.cpp calls. *)
Inductive IntermediateResult :=
| IRLatLon (viewport : RectD) (lat lon precision : double)
| IRFeature (viewport : RectD) (feature : FeatureType) (displayName : string)
            (matchPenalty : Z) (minVisibleScale : Z)
| IRCategory (name completionString : string) (penalty : Z).

(** Modelled from the spec: [Result] (result.hpp is missing) is either
    a place result, derived from the feature or coordinate result it comes
    from, or a suggestion made of two strings.  [Result(string(), string())]
    is the suggestion of two empty strings. *)
Inductive Result :=
| ResultPlace (source : IntermediateResult)
| ResultSuggestion (str suggestion : string).

Definition EndMarker : Result := ResultSuggestion EmptyString EmptyString.

(** Modelled from the spec: [IntermediateResult::GenerateFinalResult]. *)
Definition GenerateFinalResult (r : IntermediateResult) : Result :=
  match r with
  | IRCategory name completionString _ => ResultSuggestion name completionString
  | _ => ResultPlace r
  end.

(** Modelled from the spec: intermediate results are ordered by cost,
    ascending cost being better; [cost] is the cost the missing
    [IntermediateResult::operator<] compares. *)
Variable cost : IntermediateResult -> Z.

Definition operator_lt (a b : IntermediateResult) : bool := cost a <? cost b.

(** *** [std::priority_queue<IntermediateResult>]

    The queue is the list of its elements, greatest for [operator_lt]
    first: [top] is the head and [pop] removes it.  Among elements that
    are equivalent for [operator_lt] the order is the container's
    business; here a pushed element goes behind its equivalents. *)
Fixpoint pq_push (r : IntermediateResult) (pq : list IntermediateResult)
  : list IntermediateResult :=
  match pq with
  | [] => [r]
  | x :: pq' => if operator_lt x r then r :: pq else x :: pq_push r pq'
  end.

(** *** KeywordMatcher *)

(** Modelled from the spec: [KeywordMatcher] (keyword_matcher.hpp is
    missing).  It is built from the keywords, the prefix, the two cost
    ceilings and the two matching functions, is invoked once per name of a
    candidate, and tracks the lowest cost reached by each keyword and by
    the prefix over all name tokens seen, with the name that produced the
    best total so far.  A cost that was never improved stays at its
    ceiling plus one. *)
Record KeywordMatcher := {
  km_keywords : list UniString;
  km_prefix : UniString;
  km_maxKeywordMatchCost : Z;
  km_maxPrefixMatchCost : Z;
  km_keywordMatchFn : UniString -> UniString -> Z -> Z;
  km_prefixMatchFn : UniString -> UniString -> Z -> Z;
  km_minKeywordMatchCost : list Z;
  km_minPrefixMatchCost : Z;
  km_bestMatchName : string;
  km_bestMatchPenalty : Z
}.

Definition KeywordMatcher_ctor (keywords : list UniString) (prefix : UniString)
    (maxKeywordMatchCost maxPrefixMatchCost : Z)
    (keywordMatchFn prefixMatchFn : UniString -> UniString -> Z -> Z)
  : KeywordMatcher :=
  {| km_keywords := keywords;
     km_prefix := prefix;
     km_maxKeywordMatchCost := maxKeywordMatchCost;
     km_maxPrefixMatchCost := maxPrefixMatchCost;
     km_keywordMatchFn := keywordMatchFn;
     km_prefixMatchFn := prefixMatchFn;
     km_minKeywordMatchCost :=
       replicate (length keywords) (u32 (maxKeywordMatchCost + 1));
     km_minPrefixMatchCost := u32 (maxPrefixMatchCost + 1);
     km_bestMatchName := EmptyString;
     km_bestMatchPenalty := 2 ^ 32 - 1 |}.

Definition GetPrefixMatchScore (m : KeywordMatcher) : Z := km_minPrefixMatchCost m.

Definition GetMatchScore (m : KeywordMatcher) : Z :=
  foldl (fun acc c => u32 (acc + c)) (km_minPrefixMatchCost m) (km_minKeywordMatchCost m).

Definition GetBestMatchName (m : KeywordMatcher) : string := km_bestMatchName m.

Definition ProcessNameToken (m : KeywordMatcher) (name : string) (s : UniString)
  : KeywordMatcher :=
  let minKeyword :=
    zip_with (fun kw c => Z.min c (km_keywordMatchFn m kw s (km_maxKeywordMatchCost m)))
             (km_keywords m) (km_minKeywordMatchCost m) in
  let minPrefix :=
    Z.min (km_minPrefixMatchCost m)
          (km_prefixMatchFn m (km_prefix m) s (km_maxPrefixMatchCost m)) in
  let penalty := foldl (fun acc c => u32 (acc + c)) minPrefix minKeyword in
  let better := penalty <=? km_bestMatchPenalty m in
  {| km_keywords := km_keywords m;
     km_prefix := km_prefix m;
     km_maxKeywordMatchCost := km_maxKeywordMatchCost m;
     km_maxPrefixMatchCost := km_maxPrefixMatchCost m;
     km_keywordMatchFn := km_keywordMatchFn m;
     km_prefixMatchFn := km_prefixMatchFn m;
     km_minKeywordMatchCost := minKeyword;
     km_minPrefixMatchCost := minPrefix;
     km_bestMatchName := if better then name else km_bestMatchName m;
     km_bestMatchPenalty := if better then penalty else km_bestMatchPenalty m |}.

(** The call operator [matcher(lang, name)] that [ForEachNameRef] drives:
    every token of the normalised name is processed. *)
Definition ProcessName (m : KeywordMatcher) (name : string) : KeywordMatcher :=
  foldl (fun m' tok => ProcessNameToken m' name tok) m
        (SplitUniString (NormalizeAndSimplifyString name)).

Definition ForEachNameRef (feature : FeatureType) (m : KeywordMatcher) : KeywordMatcher :=
  foldl (fun m' ln => ProcessName m' ln.2) m (ft_names feature).

(** [MakeMatcher] of query.cpp.  The size of the prefix, passed as an [int]
    to [GetMaxPrefixMatchScore], is the length of the list. *)
Definition MakeMatcher (tokens : list UniString) (prefix : UniString) : KeywordMatcher :=
  KeywordMatcher_ctor tokens prefix
    GetMaxKeywordMatchScore
    (GetMaxPrefixMatchScore (Z.of_nat (length prefix)))
    KeywordMatch PrefixMatch.

(** *** The query *)

(** The fields of [Query] that query.cpp uses.  [m_pIndex] is the spatial
    index through its [ForEachInRect]: the features it passes to the
    functor for a rectangle and a scale, in its order.  [m_pTrieRoot]
    (with [m_pFeatures]) is the world trie through the entities it yields.
    [m_pCategories] and [m_pTrieRoot] may be null; the index is there, as the
    local phase takes it to be.  The termination flag
    [m_bTerminate] is written from outside the query and is read through
    [GetTerminateFlag] below. *)
Record Query := {
  m_queryText : string;
  m_queryUniText : UniString;
  m_viewport : RectD;
  m_pCategories : option (list Category);
  m_pTrieRoot : option (list FeatureType);
  m_pIndex : RectD -> Z -> list FeatureType;
  m_keywords : list UniString;
  m_prefix : UniString;
  m_resultsRemaining : Z;
  m_results : list IntermediateResult;
  m_keywordsToSkipForType : gmap Z Z
}.

Definition set_results (q : Query) (results : list IntermediateResult) : Query :=
  {| m_queryText := m_queryText q;
     m_queryUniText := m_queryUniText q;
     m_viewport := m_viewport q;
     m_pCategories := m_pCategories q;
     m_pTrieRoot := m_pTrieRoot q;
     m_pIndex := m_pIndex q;
     m_keywords := m_keywords q;
     m_prefix := m_prefix q;
     m_resultsRemaining := m_resultsRemaining q;
     m_results := results;
     m_keywordsToSkipForType := m_keywordsToSkipForType q |}.

Definition set_resultsRemaining (q : Query) (n : Z) : Query :=
  {| m_queryText := m_queryText q;
     m_queryUniText := m_queryUniText q;
     m_viewport := m_viewport q;
     m_pCategories := m_pCategories q;
     m_pTrieRoot := m_pTrieRoot q;
     m_pIndex := m_pIndex q;
     m_keywords := m_keywords q;
     m_prefix := m_prefix q;
     m_resultsRemaining := n;
     m_results := m_results q;
     m_keywordsToSkipForType := m_keywordsToSkipForType q |}.

Definition set_keywordsToSkipForType (q : Query) (m : gmap Z Z) : Query :=
  {| m_queryText := m_queryText q;
     m_queryUniText := m_queryUniText q;
     m_viewport := m_viewport q;
     m_pCategories := m_pCategories q;
     m_pTrieRoot := m_pTrieRoot q;
     m_pIndex := m_pIndex q;
     m_keywords := m_keywords q;
     m_prefix := m_prefix q;
     m_resultsRemaining := m_resultsRemaining q;
     m_results := m_results q;
     m_keywordsToSkipForType := m |}.

(** [Query::Query].  The assertion on the number of keywords is a debug
    check; the embedding is that of the code around it. *)
Definition Query_ctor (query : string) (viewport : RectD)
    (pIndex : RectD -> Z -> list FeatureType)
    (pCategories : option (list Category))
    (pTrieRoot : option (list FeatureType)) : Query :=
  let queryUniText := NormalizeAndSimplifyString query in
  let tokens := SplitUniString queryUniText in
  let swapped :=
    if negb (bool_decide (tokens = [])) && negb (delims (LastUniChar query))
    then (removelast tokens, default [] (last tokens))
    else (tokens, []) in
  let keywords :=
    if (31 <? length swapped.1)%nat then take 31 swapped.1 else swapped.1 in
  {| m_queryText := query;
     m_queryUniText := queryUniText;
     m_viewport := viewport;
     m_pCategories := pCategories;
     m_pTrieRoot := pTrieRoot;
     m_pIndex := pIndex;
     m_keywords := keywords;
     m_prefix := swapped.2;
     m_resultsRemaining := 10;
     m_results := [];
     m_keywordsToSkipForType := ∅ |}.

(** [Query::AddResult].  [m_resultsRemaining] is never negative (it starts
    at 10 and [FlushResults] floors it at 0), so its conversion to the
    unsigned type of [size()] is the identity.  [top()] of an empty queue
    has no meaning in the source; that branch is reached only with
    [m_resultsRemaining] at 0 and keeps the query as it is. *)
Definition AddResult (q : Query) (result : IntermediateResult) : Query :=
  if Z.of_nat (length (m_results q)) <? m_resultsRemaining q
  then set_results q (pq_push result (m_results q))
  else
    match m_results q with
    | top :: popped =>
        if operator_lt result top
        then set_results q (pq_push result popped)
        else q
    | [] => q
    end.

(** A sequence of calls of [AddResult], in order. *)
Definition OfferAll (q : Query) (offered : list IntermediateResult) : Query :=
  foldl AddResult q offered.

(** The queue order: the head is an element of greatest cost. *)
Definition worst_first (a b : IntermediateResult) : Prop := cost b <= cost a.

(** The order of a flush: ascending cost. *)
Definition best_first (a b : IntermediateResult) : Prop := cost a <= cost b.

(** What one call of [AddResult] does to the queue, as the contract of
    [Offer] words it, for a cap [N]. *)
Definition offer_contract (N : nat) (q : Query) (r : IntermediateResult) : Prop :=
  if decide (length (m_results q) < N)%nat
  then m_results (AddResult q r) ≡ₚ r :: m_results q
  else exists worst rest,
      m_results q = worst :: rest /\
      (forall x, x ∈ m_results q -> cost x <= cost worst) /\
      if decide (cost r < cost worst)
      then m_results (AddResult q r) ≡ₚ r :: rest
      else AddResult q r = q.

(** The queue holds [N] best of the candidates [offered]: it is a part of
    them of the right size, and nothing left out is better than anything
    kept. *)
Definition best_of (N : nat) (offered kept : list IntermediateResult) : Prop :=
  exists dropped,
    offered ≡ₚ kept ++ dropped /\
    length kept = Nat.min N (length offered) /\
    forall a b, a ∈ kept -> b ∈ dropped -> cost a <= cost b.

(** What holds of the ranker in every state a query goes through: the
    budget is a non-negative [int], the queue is no longer than the budget
    and its head is an element of greatest cost. *)
Definition ranker_inv (q : Query) : Prop :=
  0 <= m_resultsRemaining q < 2 ^ 31 /\
  Z.of_nat (length (m_results q)) <= m_resultsRemaining q /\
  StronglySorted worst_first (m_results q).

(** [Query::GetKeywordsToSkipForType]. *)
Definition GetKeywordsToSkipForType (q : Query) (type : Z) : Z :=
  match m_keywordsToSkipForType q !! type with
  | None => 0
  | Some mask => mask
  end.

(** The first loop of [Query::FlushResults]: pop the queue into [results]. *)
Fixpoint drain (pq : list IntermediateResult) (results : list Result) : list Result :=
  match pq with
  | [] => results
  | top :: popped => drain popped (results ++ [GenerateFinalResult top])
  end.

(** *** Category matching (the loop over [m_pCategories] in [Query::Search]) *)

Definition PREFIX_LEN_BITS : Z := 5.

(** [m_keywordsToSkipForType[type] |= mask] for every type of the entry;
    [operator[]] creates a missing entry with value 0. *)
Definition SkipForTypes (types : list Z) (mask : Z) (q : Query) : Query :=
  set_keywordsToSkipForType q
    (foldl (fun m type => <[type := Z.lor (default 0 (m !! type)) (u32 mask)]> m)
           (m_keywordsToSkipForType q) types).

(** [(1 << n) - 1] and [((1 << n) - 1) << (m_keywords.size() - n)], in
    [int] arithmetic. *)
Definition head_mask (n : nat) : Z := i32 (i32 (Z.shiftl 1 (Z.of_nat n)) - 1).

Definition tail_mask (n size : nat) : Z :=
  i32 (Z.shiftl (head_mask n) (Z.of_nat (size - n))).

(** The tokens of a synonym. *)
Definition synonym_tokens (name : Name) : list UniString :=
  SplitUniString (NormalizeAndSimplifyString (m_name name)).

(** The keyword position [i] is consumed by a synonym of tokens [tokens]:
    the tokens are the first keywords and [i] is one of their positions, or
    they are the last keywords and [i] is one of their positions. *)
Definition consumes (keywords tokens : list UniString) (i : nat) : Prop :=
  let n := length tokens in
  let size := length keywords in
  (n <= size)%nat /\
  ((tokens = take n keywords /\ (i < n)%nat) \/
   (tokens = drop (size - n) keywords /\ (size - n <= i < size)%nat)).

(** The position [i] is consumed, for the entity type [type], by a synonym
    of an entry of the dictionary that denotes [type]. *)
Definition skipped_by (categories : list Category) (keywords : list UniString)
    (type : Z) (i : nat) : Prop :=
  exists c name,
    c ∈ categories /\ type ∈ m_types c /\ name ∈ m_synonyms c /\
    consumes keywords (synonym_tokens name) i.

(** The local variables [bestPrefixMatch] and [bestPrefixMatchPenalty],
    declared in the body of the loop over the categories. *)
Record Best := {
  bestPrefixMatch : string;
  bestPrefixMatchPenalty : Z
}.

Definition Best_init (q : Query) : Best :=
  {| bestPrefixMatch := EmptyString;
     bestPrefixMatchPenalty :=
       i32 (u32 (u32 (Z.shiftl
                        (u32 (GetMaxPrefixMatchScore (Z.of_nat (length (m_prefix q))) + 1))
                        PREFIX_LEN_BITS) - 1)) |}.

(** The penalty of a synonym for the prefix of the query. *)
Definition SynonymPenalty (q : Query) (name : Name) : Z :=
  let matcher :=
    ProcessNameToken (MakeMatcher [] (m_prefix q)) EmptyString
                     (NormalizeAndSimplifyString (m_name name)) in
  i32 (u32 (u32 (Z.shiftl (GetPrefixMatchScore matcher) PREFIX_LEN_BITS)
            + m_prefixLengthToSuggest name)).

(** The body of the loop over the synonyms of a category. *)
Definition SynonymStep (c : Category) (st : Query * Best) (name : Name) : Query * Best :=
  let q := st.1 in
  if negb (bool_decide (m_keywords q = [])) then
    let tokens := SplitUniString (NormalizeAndSimplifyString (m_name name)) in
    let n := length tokens in
    if (n <=? length (m_keywords q))%nat then
      let q1 :=
        if bool_decide (tokens = take n (m_keywords q))
        then SkipForTypes (m_types c) (head_mask n) q
        else q in
      let q2 :=
        if bool_decide (tokens = drop (length (m_keywords q) - n) (m_keywords q))
        then SkipForTypes (m_types c) (tail_mask n (length (m_keywords q))) q1
        else q1 in
      (q2, st.2)
    else st
  else if negb (bool_decide (m_prefix q = [])) then
    if m_prefixLengthToSuggest name <=? Z.of_nat (length (m_prefix q)) then
      let penalty := SynonymPenalty q name in
      if penalty <? bestPrefixMatchPenalty st.2
      then (q, {| bestPrefixMatch := m_name name; bestPrefixMatchPenalty := penalty |})
      else st
    else st
  else st.

(** The body of the loop over the categories. *)
Definition CategoryStep (q : Query) (c : Category) : Query :=
  let st := foldl (SynonymStep c) (q, Best_init q) (m_synonyms c) in
  if negb (string_empty (bestPrefixMatch st.2))
  then AddResult st.1
         (IRCategory (bestPrefixMatch st.2)
                     (bestPrefixMatch st.2 +:+ " ")
                     (bestPrefixMatchPenalty st.2))
  else st.1.

Definition CategoryMatching (q : Query) : Query :=
  match m_pCategories q with
  | Some categories => foldl CategoryStep q categories
  | None => q
  end.

(** The prefix score of a synonym: that of the matcher the loop builds. *)
Definition SynonymScore (q : Query) (name : Name) : Z :=
  GetPrefixMatchScore
    (ProcessNameToken (MakeMatcher [] (m_prefix q)) EmptyString
                      (NormalizeAndSimplifyString (m_name name))).

(** The synonym [name] is considered for the prefix of the query: the
    prefix is at least as long as the minimum that triggers the synonym. *)
Definition considered (q : Query) (name : Name) : Prop :=
  m_prefixLengthToSuggest name <= Z.of_nat (length (m_prefix q)).

(** The values of [bestPrefixMatch] and [bestPrefixMatchPenalty] at the end
    of the loop over the synonyms of entry [c]. *)
Definition EntryBest (q : Query) (c : Category) : Best :=
  (foldl (SynonymStep c) (q, Best_init q) (m_synonyms c)).2.

(** The suggestion that entry [c] makes the category matching offer, if it
    makes it offer one. *)
Definition EntrySuggestion (q : Query) (c : Category) : option IntermediateResult :=
  let best := EntryBest q c in
  if negb (string_empty (bestPrefixMatch best))
  then Some (IRCategory (bestPrefixMatch best)
                        (bestPrefixMatch best +:+ " ")
                        (bestPrefixMatchPenalty best))
  else None.

(** [best] is the best of the synonyms [names] for the prefix of [q]: its
    penalty is a lower bound of the bound the loop starts from and of the
    penalties of the considered synonyms, and either nothing was retained,
    or what was retained is a considered synonym whose penalty is below that
    bound. *)
Definition best_of_synonyms (q : Query) (names : list Name) (best : Best) : Prop :=
  bestPrefixMatchPenalty best <= bestPrefixMatchPenalty (Best_init q) /\
  (forall name, name ∈ names -> considered q name ->
                bestPrefixMatchPenalty best <= SynonymPenalty q name) /\
  (best = Best_init q \/
   exists name,
     name ∈ names /\ considered q name /\
     best = {| bestPrefixMatch := m_name name;
               bestPrefixMatchPenalty := SynonymPenalty q name |} /\
     SynonymPenalty q name < bestPrefixMatchPenalty (Best_init q)).

(** Lat lon matching (the first block of [Query::Search]). *)
Definition LatLonMatching (q : Query) : Query :=
  match MatchLatLon (m_queryText q) with
  | Some (lat, lon, latPrec, lonPrec) =>
      AddResult q (IRLatLon (m_viewport q) lat lon (latlon_precision latPrec lonPrec))
  | None => q
  end.

(** *** Running a search *)

(** What a run does that is visible from outside: it reads the termination
    flag and it calls the callback [f] with a result. *)
Inductive Event :=
| EvCheck (flagValue : bool)
| EvEmit (r : Result).

(** A run in progress: the query, the number of reads of the flag made so
    far, and the events so far, oldest first. *)
Record Run := {
  run_query : Query;
  run_clock : nat;
  run_log : list Event
}.

(** [flag k] is the value of [m_bTerminate] found by the read number [k] of
    the run. *)
Variable flag : nat -> bool.

Definition set_query (s : Run) (q : Query) : Run :=
  {| run_query := q; run_clock := run_clock s; run_log := run_log s |}.

Definition emit (r : Result) (s : Run) : Run :=
  {| run_query := run_query s;
     run_clock := run_clock s;
     run_log := run_log s ++ [EvEmit r] |}.

Definition GetTerminateFlag (s : Run) : bool * Run :=
  let b := flag (run_clock s) in
  (b, {| run_query := run_query s;
         run_clock := S (run_clock s);
         run_log := run_log s ++ [EvCheck b] |}).

(** [Query::FlushResults]. *)
Definition FlushResults (s : Run) : Run :=
  let q := run_query s in
  let results := drain (m_results q) [] in
  {| run_query :=
       set_resultsRemaining (set_results q [])
         (Z.max 0 (i32 (m_resultsRemaining q - i32 (Z.of_nat (length results)))));
     run_clock := run_clock s;
     run_log := run_log s ++ (EvEmit <$> reverse results) |}.

(** How a call of the feature functor ends: it returns, or it throws
    [StopException]. *)
Inductive Completion :=
| Done (s : Run)
| Stop (s : Run).

(** The keywords whose position is not set in the skip mask:
    the loop [for (i = 0; i < queryKeywords.size() && i < 32; ++i)]. *)
Fixpoint select_keywords (i : nat) (keywordsSkipMask : Z) (queryKeywords : list UniString)
  : list UniString :=
  match queryKeywords with
  | [] => []
  | kw :: rest =>
      if (32 <=? i)%nat then []
      else if Z.land keywordsSkipMask (u32 (i32 (Z.shiftl 1 (Z.of_nat i)))) =? 0
           then kw :: select_keywords (S i) keywordsSkipMask rest
           else select_keywords (S i) keywordsSkipMask rest
  end.

Definition FeatureSkipMask (q : Query) (feature : FeatureType) : Z :=
  foldl (fun mask type => Z.lor mask (GetKeywordsToSkipForType q type)) 0 (ft_types feature).

Definition FeatureMatcher (q : Query) (feature : FeatureType) : KeywordMatcher :=
  ForEachNameRef feature
    (MakeMatcher (select_keywords 0 (FeatureSkipMask q feature) (m_keywords q))
                 (m_prefix q)).

(** The keywords at the positions whose bit is clear in [mask]. *)
Definition unmasked (mask : Z) (keywords : list UniString) : list UniString :=
  (filter (fun ik => Z.testbit mask (Z.of_nat ik.1) = false)
          (zip (seq 0 (length keywords)) keywords)).*2.

(** [FeatureProcessor::operator()]. *)
Definition FeatureProcessor (feature : FeatureType) (s : Run) : Completion :=
  let (terminate, s1) := GetTerminateFlag s in
  if terminate then Stop s1
  else
    let q := run_query s1 in
    let matcher := FeatureMatcher q feature in
    if GetPrefixMatchScore matcher
         <=? GetMaxPrefixMatchScore (Z.of_nat (length (m_prefix q)))
    then
      let matchScore := GetMatchScore matcher in
      if matchScore <=? GetMaxKeywordMatchScore
      then
        let scaleRange := DrawableScaleRangeForText feature in
        if scaleRange.1 <? 0 then Done s1
        else Done (set_query s1
                     (AddResult q (IRFeature (m_viewport q) feature
                                             (GetBestMatchName matcher)
                                             matchScore scaleRange.1)))
      else Done s1
    else Done s1.

(** [ForEachInRect] over the features the index yields; a throw of the
    functor leaves the enumeration. *)
Fixpoint ForEachInRect (features : list FeatureType) (s : Run) : Completion :=
  match features with
  | [] => Done s
  | feature :: rest =>
      match FeatureProcessor feature s with
      | Done s' => ForEachInRect rest s'
      | Stop s' => Stop s'
      end
  end.

(** The block of [Query::Search] guarded by
    [scale > scales::GetUpperWorldScale()], with its try and catch. *)
Definition LocalFeatureMatching (s : Run) : Run :=
  let q := run_query s in
  let scale := GetScaleLevel (m_viewport q) in
  if GetUpperWorldScale <? scale then
    match ForEachInRect (m_pIndex q (m_viewport q) (Z.min GetUpperScale (i32 (scale + 7)))) s with
    | Done s' => s'
    | Stop s' => s'
    end
  else s.

(** Modelled from the spec: [search::MatchAgainstTrie]
    (search_trie_matching.hpp is missing) enumerates the entities of the
    world trie, scores each the way the local phase does and checks the
    termination flag between entities; on a set flag it stops. *)
Fixpoint MatchAgainstTrie (entities : list FeatureType) (s : Run) : Run :=
  match entities with
  | [] => s
  | feature :: rest =>
      match FeatureProcessor feature s with
      | Done s' => MatchAgainstTrie rest s'
      | Stop s' => s'
      end
  end.

Definition TrieMatching (s : Run) : Run :=
  match m_pTrieRoot (run_query s) with
  | Some entities => MatchAgainstTrie entities s
  | None => s
  end.

(** [Query::Search]. *)
Definition Search (s0 : Run) : Run :=
  let (t1, s1) := GetTerminateFlag s0 in
  if t1 then s1 else
  let s2 := set_query s1 (LatLonMatching (run_query s1)) in
  let (t2, s3) := GetTerminateFlag s2 in
  if t2 then s3 else
  let s4 := set_query s3 (CategoryMatching (run_query s3)) in
  let (t3, s5) := GetTerminateFlag s4 in
  if t3 then s5 else
  let s6 := LocalFeatureMatching s5 in
  let (t4, s7) := GetTerminateFlag s6 in
  if t4 then s7 else
  let s8 := FlushResults s7 in
  if m_resultsRemaining (run_query s8) =? 0 then emit EndMarker s8 else
  let (t5, s9) := GetTerminateFlag s8 in
  if t5 then s9 else
  let s10 := TrieMatching s9 in
  let (t6, s11) := GetTerminateFlag s10 in
  if t6 then s11 else
  emit EndMarker (FlushResults s11).

(** A query that starts: no flag read yet, nothing sent yet. *)
Definition start (q : Query) : Run :=
  {| run_query := q; run_clock := 0; run_log := [] |}.

(** The results the callback received, in order. *)
Definition emitted (log : list Event) : list Result :=
  omap (fun e => match e with EvEmit r => Some r | EvCheck _ => None end) log.

(** The run after a read of the flag. *)
Definition checked (s : Run) : Run := (GetTerminateFlag s).2.

(** The run of a search that was not cancelled, right after the flush that
    follows the local features. *)
Definition LocalFlush (s0 : Run) : Run :=
  let s1 := checked s0 in
  let s3 := checked (set_query s1 (LatLonMatching (run_query s1))) in
  let s5 := checked (set_query s3 (CategoryMatching (run_query s3))) in
  FlushResults (checked (LocalFeatureMatching s5)).

(** The flag is level-triggered: once a read finds it set, every later read
    finds it set. *)
Definition level_triggered : Prop :=
  forall i j : nat, (i <= j)%nat -> flag i = true -> flag j = true.

(** An intermediate result whose final result is not the end marker. *)
Definition proper (r : IntermediateResult) : Prop := GenerateFinalResult r <> EndMarker.

(** No read of the flag in the log found it set. *)
Definition never_set (log : list Event) : Prop := EvCheck true ∉ log.

(** The log of a run that stopped: either no read found the flag set, or
    the log ends with the read that found it set, followed at most by the
    read that confirms it after the catch; before that read no end marker
    was sent. *)
Definition stopped_log (log : list Event) : Prop :=
  never_set log \/
  exists before,
    never_set before /\ (EndMarker ∉ emitted before) /\
    (log = before ++ [EvCheck true] \/ log = before ++ [EvCheck true; EvCheck true]).

(** A run in progress that was not cancelled: no read found the flag set
    (in the log, and by the count of reads), no end marker was sent, and no
    queued result would be taken for one. *)
Definition running (s : Run) : Prop :=
  never_set (run_log s) /\
  (forall k, (k < run_clock s)%nat -> flag k = false) /\
  (EndMarker ∉ emitted (run_log s)) /\
  Forall proper (m_results (run_query s)).

(** A run whose last event is the read that found the flag set for the
    first time. *)
Definition stopping (s : Run) : Prop :=
  flag (run_clock s) = true /\
  (forall k, (k + 1 < run_clock s)%nat -> flag k = false) /\
  exists before,
    run_log s = before ++ [EvCheck true] /\
    never_set before /\ (EndMarker ∉ emitted before).

(** A run that ended: its log is that of a run that stopped, and it made at
    most two reads of the flag from the first read that could find it set. *)
Definition stopped (s : Run) : Prop :=
  stopped_log (run_log s) /\
  forall k, flag k = true -> (run_clock s <= k + 2)%nat.

End Engine.

(** ** A small world to run the embedding in *)

Definition code_points (s : string) : UniString :=
  (fun a => Z.of_N (Ascii.N_of_ascii a)) <$> String.list_ascii_of_string s.

(** Space and comma delimit; normalisation keeps the code points as they
    are; no text parses as coordinates; the viewport is finer than the world
    overview. *)
Definition SmallWorld : External :=
  {| RectD := unit;
     double := unit;
     delims := fun c => (c =? 32) || (c =? 44);
     NormalizeAndSimplifyString := code_points;
     LastUniChar := fun s => default 0 (last (code_points s));
     MatchLatLon := fun _ => None;
     latlon_precision := fun _ _ => tt;
     GetScaleLevel := fun _ => 15;
     GetUpperWorldScale := 9;
     GetUpperScale := 17 |}.

(** The cost of a result of the small world: its penalty. *)
Definition penalty_cost (r : @IntermediateResult SmallWorld) : Z :=
  match r with
  | IRLatLon _ _ _ _ => 0
  | IRFeature _ _ _ matchPenalty _ => matchPenalty
  | IRCategory _ _ penalty => penalty
  end.

Definition candidate (name : string) (c : Z) : @IntermediateResult SmallWorld :=
  IRCategory name (name +:+ " ") c.

Definition no_features : @RectD SmallWorld -> Z -> list FeatureType := fun _ _ => [].

(** A query with cap [N] and nothing to search in. *)
Definition bare_query (text : string) (N : Z) : @Query SmallWorld :=
  set_resultsRemaining (Query_ctor (E := SmallWorld) text tt no_features None None) N.

Definition five_candidates : list (@IntermediateResult SmallWorld) :=
  [candidate "e" 5; candidate "c" 3; candidate "h" 8; candidate "a" 1; candidate "i" 9].

(** A flag that is never set, and a flag that is set from the read [k] on. *)
Definition never : nat -> bool := fun _ => false.

Definition set_from (k : nat) : nat -> bool := fun i => (k <=? i)%nat.

(** A dictionary of two entries, and two features named after cafes: one
    that is drawable as text from scale 10 on, one that is not drawable as
    text at any scale. *)
Definition cafe_category : Category :=
  {| m_synonyms := [ {| m_name := "cafe"; m_prefixLengthToSuggest := 2 |};
                     {| m_name := "coffee shop"; m_prefixLengthToSuggest := 3 |} ];
     m_types := [1] |}.

Definition car_category : Category :=
  {| m_synonyms := [ {| m_name := "car wash"; m_prefixLengthToSuggest := 2 |} ];
     m_types := [2; 3] |}.

Definition cafe_central : FeatureType :=
  {| ft_types := [1];
     ft_names := [(0, "cafe central")];
     DrawableScaleRangeForText := (10, 17) |}.

Definition cafe_hidden : FeatureType :=
  {| ft_types := [1];
     ft_names := [(0, "cafe hidden")];
     DrawableScaleRangeForText := (-1, -1) |}.

Definition cafe_index : @RectD SmallWorld -> Z -> list FeatureType :=
  fun _ _ => [cafe_central; cafe_hidden].

Definition cafe_query (text : string) : @Query SmallWorld :=
  Query_ctor (E := SmallWorld) text tt cafe_index
             (Some [cafe_category; car_category]) (Some [cafe_central]).

(** A text of forty words. *)
Definition forty_words : string :=
  "w w w w w w w w w w w w w w w w w w w w w w w w w w w w w w w w w w w w w w w w".

(** ** Accounting for what a search sends *)

(** From [q] to [q'] only candidates were offered and masks written: the
    budget, the keywords and the prefix are the same, and the ranker is
    still in order if it was. *)
Definition offers_only {E : External} (cost : IntermediateResult -> Z) (q q' : Query) : Prop :=
  m_resultsRemaining q' = m_resultsRemaining q /\
  m_keywords q' = m_keywords q /\
  m_prefix q' = m_prefix q /\
  (ranker_inv cost q -> ranker_inv cost q').

(** From [s] to [s'] nothing was sent to the callback and only candidates
    were offered. *)
Definition silent {E : External} (cost : IntermediateResult -> Z) (s s' : Run) : Prop :=
  emitted (run_log s') = emitted (run_log s) /\
  offers_only cost (run_query s) (run_query s').

(** The run [s] has sent the results of [flushed], which are in ascending
    order of cost, and nothing else; with what is left of the budget they
    add up to [N]. *)
Definition flushed_so_far {E : External} (cost : IntermediateResult -> Z) (N : Z)
    (s : Run) (flushed : list IntermediateResult) : Prop :=
  emitted (run_log s) = (GenerateFinalResult <$> flushed) /\
  StronglySorted (best_first cost) flushed /\
  Z.of_nat (length flushed) + m_resultsRemaining (run_query s) = N /\
  ranker_inv cost (run_query s).

(** The run [final] has sent two runs of results, each in ascending order of
    cost, then the end marker or nothing; with what is left of the budget
    the results add up to [N]. *)
Definition accounted {E : External} (cost : IntermediateResult -> Z) (N : Z)
    (final : Run) : Prop :=
  exists localRun worldRun tail,
    emitted (run_log final)
      = (GenerateFinalResult <$> localRun) ++ (GenerateFinalResult <$> worldRun) ++ tail /\
    (tail = [] \/ tail = [EndMarker]) /\
    StronglySorted (best_first cost) localRun /\
    StronglySorted (best_first cost) worldRun /\
    Z.of_nat (length localRun + length worldRun) + m_resultsRemaining (run_query final) = N /\
    0 <= m_resultsRemaining (run_query final).

(** The masks of [q] mark positions below [size] only. *)
Definition masks_below {E : External} (size : nat) (q : Query) : Prop :=
  forall type, 0 <= GetKeywordsToSkipForType q type < 2 ^ Z.of_nat size.

(** ** What the matcher of a feature is given and keeps *)

(** The tokens of the names of a feature, in the order in which
    [ForEachNameRef] gives them to the matcher. *)
Definition feature_tokens {E : External} (feature : FeatureType) : list UniString :=
  concat ((fun ln : Z * string => SplitUniString (NormalizeAndSimplifyString ln.2))
            <$> ft_names feature).

(** The lowest cost that [keyword] reaches against [tokens] with
    [KeywordMatch], from the cost of a keyword that nothing matched. *)
Definition lowest_keyword_cost (keyword : UniString) (tokens : list UniString) : Z :=
  foldl (fun c token => Z.min c (KeywordMatch keyword token GetMaxKeywordMatchScore))
        (u32 (GetMaxKeywordMatchScore + 1)) tokens.

(** The lowest cost that [prefix] reaches against [tokens] with
    [PrefixMatch]. *)
Definition lowest_prefix_cost (prefix : UniString) (tokens : list UniString) : Z :=
  let maxCost := GetMaxPrefixMatchScore (Z.of_nat (length prefix)) in
  foldl (fun c token => Z.min c (PrefixMatch prefix token maxCost))
        (u32 (maxCost + 1)) tokens.

(** The matcher [m] is the one [MakeMatcher] makes from [keywords] and
    [prefix], after it has seen the tokens [seen]: it holds these keywords
    and this prefix, and keeps for each keyword, and for the prefix, the
    lowest cost reached against the tokens seen. *)
Definition matcher_after (keywords : list UniString) (prefix : UniString)
    (seen : list UniString) (m : KeywordMatcher) : Prop :=
  km_keywords m = keywords /\
  km_prefix m = prefix /\
  km_maxKeywordMatchCost m = GetMaxKeywordMatchScore /\
  km_maxPrefixMatchCost m = GetMaxPrefixMatchScore (Z.of_nat (length prefix)) /\
  km_keywordMatchFn m = KeywordMatch /\
  km_prefixMatchFn m = PrefixMatch /\
  km_minKeywordMatchCost m = (fun kw => lowest_keyword_cost kw seen) <$> keywords /\
  km_minPrefixMatchCost m = lowest_prefix_cost prefix seen.

(** ** The checkpoints of a search *)

(** The places where a search reads the termination flag, in the order in
    which [Query::Search] comes to them: on entry; after the coordinate
    phase; after the category phase; in the functor of the local scan,
    before it scores the candidate number [i]; after the local scan; after
    the flush that follows it, when some budget is left; in the trie
    matching, before the entity number [i]; after the trie matching. *)
Inductive Checkpoint :=
| AtEntry
| AfterLatLon
| AfterCategories
| InLocalScan (i : nat)
| AfterLocalScan
| AfterLocalFlush
| InTrie (i : nat)
| AfterTrie.

(** A checkpoint inside a scan: when the read there finds the flag set the
    scan is given up, and the search reads the flag once more before it
    returns. *)
Definition in_scan (cp : Checkpoint) : bool :=
  match cp with
  | InLocalScan _ | InTrie _ => true
  | _ => false
  end.

(** The features that the local scan enumerates for the query. *)
Definition local_features {E : External} (q : Query) : list FeatureType :=
  let scale := GetScaleLevel (m_viewport q) in
  if GetUpperWorldScale <? scale
  then m_pIndex q (m_viewport q) (Z.min GetUpperScale (i32 (scale + 7)))
  else [].

(** The entities that the trie matching enumerates for the query. *)
Definition trie_entities {E : External} (q : Query) : list FeatureType :=
  match m_pTrieRoot q with
  | Some entities => entities
  | None => []
  end.

(** The run of a search that is not cancelled, where it comes to the
    checkpoints between its phases. *)
Definition after_latlon {E : External} (cost : IntermediateResult -> Z) (q : Query) : Run :=
  let s1 := checked never (start q) in
  set_query s1 (LatLonMatching cost (run_query s1)).

Definition after_categories {E : External} (cost : IntermediateResult -> Z) (q : Query)
  : Run :=
  let s3 := checked never (after_latlon cost q) in
  set_query s3 (CategoryMatching cost (run_query s3)).

Definition before_local_scan {E : External} (cost : IntermediateResult -> Z) (q : Query)
  : Run :=
  checked never (after_categories cost q).

Definition after_local_scan {E : External} (cost : IntermediateResult -> Z) (q : Query)
  : Run :=
  LocalFeatureMatching cost never (before_local_scan cost q).

Definition after_local_flush {E : External} (cost : IntermediateResult -> Z) (q : Query)
  : Run :=
  FlushResults (checked never (after_local_scan cost q)).

Definition before_trie {E : External} (cost : IntermediateResult -> Z) (q : Query) : Run :=
  checked never (after_local_flush cost q).

Definition after_trie {E : External} (cost : IntermediateResult -> Z) (q : Query) : Run :=
  TrieMatching cost never (before_trie cost q).

(** The run of a search on [q] that is not cancelled, at the moment it comes
    to the checkpoint [cp] and before it reads the flag there; [None] when
    such a search does not come to [cp]: the scan has fewer candidates, or
    no budget is left after the first flush. *)
Definition reach {E : External} (cost : IntermediateResult -> Z) (q : Query)
    (cp : Checkpoint) : option Run :=
  let local := local_features (run_query (before_local_scan cost q)) in
  let world := trie_entities (run_query (before_trie cost q)) in
  let budget_left := negb (m_resultsRemaining (run_query (after_local_flush cost q)) =? 0) in
  match cp with
  | AtEntry => Some (start q)
  | AfterLatLon => Some (after_latlon cost q)
  | AfterCategories => Some (after_categories cost q)
  | InLocalScan i =>
      if bool_decide (i < length local)%nat then
        match ForEachInRect cost never (take i local) (before_local_scan cost q) with
        | Done s | Stop s => Some s
        end
      else None
  | AfterLocalScan => Some (after_local_scan cost q)
  | AfterLocalFlush => if budget_left then Some (after_local_flush cost q) else None
  | InTrie i =>
      if budget_left && bool_decide (i < length world)%nat
      then Some (MatchAgainstTrie cost never (take i world) (before_trie cost q))
      else None
  | AfterTrie => if budget_left then Some (after_trie cost q) else None
  end.

(** The run that came to the checkpoint [cp] as [s] and halted there: the
    read of the checkpoint found the flag set, and so did, for a checkpoint
    inside a scan, the read that follows the scan; the query is that of
    [s], and nothing was sent after [s]. *)
Definition halted_at {E : External} (cp : Checkpoint) (s : Run) : Run :=
  {| run_query := run_query s;
     run_clock := if in_scan cp then S (S (run_clock s)) else S (run_clock s);
     run_log := run_log s ++ (if in_scan cp then [EvCheck true; EvCheck true]
                              else [EvCheck true]) |}.

(** A world in which the text "55 37" parses as coordinates; its
    coordinates are whole numbers. *)
Definition CoordWorld : External :=
  {| RectD := unit;
     double := Z;
     delims := fun c => (c =? 32) || (c =? 44);
     NormalizeAndSimplifyString := code_points;
     LastUniChar := fun s => default 0 (last (code_points s));
     MatchLatLon := fun s => if String.eqb s "55 37" then Some (55, 37, 2, 1) else None;
     latlon_precision := fun latPrec lonPrec => 5 * Z.max 1 (Z.min latPrec lonPrec);
     GetScaleLevel := fun _ => 15;
     GetUpperWorldScale := 9;
     GetUpperScale := 17 |}.

Definition flat_cost (r : @IntermediateResult CoordWorld) : Z := 0.

(** * Edge weights of the car router (routing/edge_estimator.cpp)

    A [double] of the source is a binary64 number of [PrimFloat.float].  The
    [ASSERT_]s of the source are left out (they are compiled out of a release
    build); the [CHECK_GREATER] of [CalcTrafficFactor] aborts the program,
    which is [None] here. *)

(** The collaborators that edge_estimator.cpp uses and does not define: the
    points, the map identifiers, the distance on the sphere and the table of
    the threshold percentages of the speed groups, a table of unsigned
    integers indexed by the speed group. *)
Class RoutingExternal := {
  PointD : Type;
  MwmId : Type;
  DistanceOnEarth : PointD -> PointD -> float;
  kSpeedGroupThresholdPercentage : Z -> Z
}.

Inductive Direction := kForwardDirection | kReverseDirection.

(** [TrafficInfo::RoadSegmentId(featureId, i, dir)]. *)
Record RoadSegmentId := {
  m_fid : Z;
  m_idx : Z;
  m_dir : Direction
}.

(** [traffic::TrafficInfo], as far as the estimator reads it; a speed group
    is the number of its enumerator. *)
Record TrafficInfo := {
  GetSpeedGroup : RoadSegmentId -> Z
}.

Section Routing.

Context {R : RoutingExternal}.

Record RoadGeometry := {
  GetSpeed : float;
  GetPoint : Z -> PointD;
  GetPointsCount : Z
}.

Record IVehicleModel := {
  GetMaxSpeed : float
}.

(** [CalcTrafficFactor] of the unnamed namespace. *)
#[warnings="-inexact-float"]
Definition CalcTrafficFactor (speedGroup : Z) : option float :=
  let percentage :=
    PrimFloat.mul 0.01%float
      (PrimFloat.of_uint63 (Uint63.of_Z (kSpeedGroupThresholdPercentage speedGroup))) in
  if PrimFloat.ltb 0%float percentage
  then Some (PrimFloat.div 1%float percentage)
  else None.

Definition kKMPH2MPS : float := PrimFloat.div 1000%float 3600%float.

Definition TimeBetweenSec (from to : PointD) (speedMPS : float) : float :=
  let distanceM := DistanceOnEarth from to in
  PrimFloat.div distanceM speedMPS.

(** [CarEdgeEstimator]; [m_trafficInfo] is a [shared_ptr], empty or not. *)
Record CarEdgeEstimator := {
  m_trafficGetter : MwmId -> option TrafficInfo;
  m_trafficInfo : option TrafficInfo;
  m_maxSpeedMPS : float
}.

Definition CarEdgeEstimator_ctor (vehicleModel : IVehicleModel)
    (getter : MwmId -> option TrafficInfo) : CarEdgeEstimator :=
  {| m_trafficGetter := getter;
     m_trafficInfo := None;
     m_maxSpeedMPS := PrimFloat.mul (GetMaxSpeed vehicleModel) kKMPH2MPS |}.

Definition Start (est : CarEdgeEstimator) (mwmId : MwmId) : CarEdgeEstimator :=
  {| m_trafficGetter := m_trafficGetter est;
     m_trafficInfo := m_trafficGetter est mwmId;
     m_maxSpeedMPS := m_maxSpeedMPS est |}.

Definition Finish (est : CarEdgeEstimator) : CarEdgeEstimator :=
  {| m_trafficGetter := m_trafficGetter est;
     m_trafficInfo := None;
     m_maxSpeedMPS := m_maxSpeedMPS est |}.

(** The body of the loop of [CalcEdgesWeight] at segment [i], on the value
    of [result]; [None] once the check of a traffic factor has failed. *)
Definition EdgeStep (est : CarEdgeEstimator) (featureId : Z) (road : RoadGeometry)
    (speedMPS : float) (dir : Direction) (result : option float) (i : Z) : option float :=
  match result with
  | None => None
  | Some result =>
      let edgeWeight := TimeBetweenSec (GetPoint road i) (GetPoint road (i + 1)) speedMPS in
      match m_trafficInfo est with
      | Some info =>
          let speedGroup :=
            GetSpeedGroup info {| m_fid := featureId; m_idx := i; m_dir := dir |} in
          match CalcTrafficFactor speedGroup with
          | Some factor => Some (PrimFloat.add result (PrimFloat.mul edgeWeight factor))
          | None => None
          end
      | None => Some (PrimFloat.add result edgeWeight)
      end
  end.

Definition CalcEdgesWeight (est : CarEdgeEstimator) (featureId : Z) (road : RoadGeometry)
    (pointFrom pointTo : Z) : option float :=
  let start := Z.min pointFrom pointTo in
  let finish := Z.max pointFrom pointTo in
  let speedMPS := PrimFloat.mul (GetSpeed road) kKMPH2MPS in
  let dir := if pointFrom <? pointTo then kForwardDirection else kReverseDirection in
  foldl (EdgeStep est featureId road speedMPS dir) (Some 0%float)
        (seqZ start (finish - start)).

Definition CalcHeuristic (est : CarEdgeEstimator) (from to : PointD) : float :=
  TimeBetweenSec from to (m_maxSpeedMPS est).

(** [EdgeEstimator::CreateForCar]. *)
Definition CreateForCar (vehicleModel : IVehicleModel)
    (getter : MwmId -> option TrafficInfo) : CarEdgeEstimator :=
  CarEdgeEstimator_ctor vehicleModel getter.

(** The weight of the segments [segments] for an estimator without traffic
    information: the times of the segments added up from 0, in order. *)
Definition free_flow (road : RoadGeometry) (segments : list Z) : float :=
  foldl (fun result i =>
           PrimFloat.add result
             (TimeBetweenSec (GetPoint road i) (GetPoint road (i + 1))
                             (PrimFloat.mul (GetSpeed road) kKMPH2MPS)))
        0%float segments.

End Routing.

(** An example: points on a line, a hundred metres apart on the road below;
    the last speed group has the threshold 0. *)
Definition StraightRoads : RoutingExternal :=
  {| PointD := Z;
     MwmId := Z;
     DistanceOnEarth := fun from to =>
       PrimFloat.of_uint63 (Uint63.of_Z (Z.abs (to - from)));
     kSpeedGroupThresholdPercentage := fun speedGroup =>
       nth (Z.to_nat speedGroup) [8; 16; 33; 58; 83; 100; 100] 0 |}.

Definition straight_road : @RoadGeometry StraightRoads :=
  @Build_RoadGeometry StraightRoads 36%float (fun i => 100 * i) 10.

(** Traffic whose speed group is the number of the segment, whatever the
    road and the direction. *)
Definition numbered_traffic : TrafficInfo :=
  {| GetSpeedGroup := fun segment => m_idx segment |}.

Definition busy_estimator : @CarEdgeEstimator StraightRoads :=
  Start (R := StraightRoads)
        (CreateForCar {| GetMaxSpeed := 90%float |}
                      (fun _ => Some numbered_traffic)) 1.

(** Traffic that is that of [numbered_traffic] in the forward direction
    only, on a shorter road with the same points, for a slower vehicle. *)
Definition forward_traffic : TrafficInfo :=
  {| GetSpeedGroup := fun segment =>
       match m_dir segment with
       | kForwardDirection => m_idx segment
       | kReverseDirection => 7
       end |}.

Definition short_road : @RoadGeometry StraightRoads :=
  @Build_RoadGeometry StraightRoads 36%float (fun i => 100 * i) 5.

Definition slow_estimator : @CarEdgeEstimator StraightRoads :=
  Start (R := StraightRoads)
        (CreateForCar {| GetMaxSpeed := 50%float |}
                      (fun _ => Some forward_traffic)) 2.

(** * The target platform (std/target_os.hpp) *)


(** The macros without a value that the header can define. *)
Inductive Macro :=
| OMIM_OS_BADA
| OMIM_OS_IPHONE
| OMIM_OS_IPHONE_SIMULATOR
| OMIM_OS_IPHONE_DEVICE
| OMIM_OS_MAC
| OMIM_OS_WINDOWS
| OMIM_OS_WINDOWS_MINGW
| OMIM_OS_WINDOWS_NATIVE
| OMIM_OS_LINUX.

#[global] Instance Macro_eq_dec : EqDecision Macro.
Proof. solve_decision. Defined.




(** ** Facts about machine integers *)

Lemma u32_small x : 0 <= x < 2 ^ 32 -> u32 x = x.
Proof. intros H. unfold u32. apply Z.mod_small. exact H. Qed.

Lemma i32_small x : - 2 ^ 31 <= x < 2 ^ 31 -> i32 x = x.
Proof. intros H. unfold i32. rewrite Z.mod_small; lia. Qed.

Lemma u32_range x : 0 <= u32 x < 2 ^ 32.
Proof. unfold u32. apply Z.mod_pos_bound. lia. Qed.

(** ** Facts about the matching functions *)

Section Matching.

Implicit Types (sA sB : UniString) (maxCost : Z).

Lemma match_loop_values sA sB maxCost :
  match_loop sA sB maxCost = 0 \/ match_loop sA sB maxCost = u32 (maxCost + 1).
Proof.
  revert sB. induction sA as [|a sA IH]; intros sB; simpl.
  - now left.
  - destruct sB as [|b sB]; [now right|].
    destruct (a =? b); simpl; [apply IH | now right].
Qed.

Lemma match_loop_prefix sA sB maxCost :
  sA `prefix_of` sB -> match_loop sA sB maxCost = 0.
Proof.
  intros [k ->]. induction sA as [|a sA IH]; simpl; [reflexivity|].
  rewrite Z.eqb_refl. simpl. exact IH.
Qed.

Lemma match_loop_zero sA sB maxCost :
  u32 (maxCost + 1) <> 0 ->
  match_loop sA sB maxCost = 0 -> sA `prefix_of` sB.
Proof.
  intros Hne. revert sB. induction sA as [|a sA IH]; intros sB; simpl.
  - intros _. apply prefix_nil.
  - destruct sB as [|b sB]; [intros H; contradiction|].
    destruct (Z.eqb_spec a b) as [->|Hab]; simpl.
    + intros H. apply prefix_cons, IH, H.
    + intros H. contradiction.
Qed.

Lemma prefix_same_length sA sB :
  sA `prefix_of` sB -> length sA = length sB -> sA = sB.
Proof.
  intros [k ->] Hlen. rewrite length_app in Hlen.
  destruct k; [now rewrite app_nil_r | simpl in Hlen; lia].
Qed.

Lemma KeywordMatch_values sA sB maxCost :
  KeywordMatch sA sB maxCost = 0 \/ KeywordMatch sA sB maxCost = u32 (maxCost + 1).
Proof.
  unfold KeywordMatch. destruct (length sA =? length sB)%nat; simpl.
  - apply match_loop_values.
  - now right.
Qed.

Lemma KeywordMatch_refl sA maxCost : KeywordMatch sA sA maxCost = 0.
Proof.
  unfold KeywordMatch. rewrite Nat.eqb_refl. simpl.
  now apply match_loop_prefix.
Qed.

Lemma KeywordMatch_zero sA sB maxCost :
  u32 (maxCost + 1) <> 0 -> KeywordMatch sA sB maxCost = 0 -> sA = sB.
Proof.
  intros Hne. unfold KeywordMatch.
  destruct (Nat.eqb_spec (length sA) (length sB)) as [Hlen|Hlen]; simpl.
  - intros H. apply prefix_same_length; [|exact Hlen].
    eapply match_loop_zero; eauto.
  - intros H. contradiction.
Qed.

Lemma PrefixMatch_values sA sB maxCost :
  PrefixMatch sA sB maxCost = 0 \/ PrefixMatch sA sB maxCost = u32 (maxCost + 1).
Proof.
  unfold PrefixMatch. destruct (length sB <? length sA)%nat.
  - now right.
  - apply match_loop_values.
Qed.

Lemma PrefixMatch_prefix sA sB maxCost :
  sA `prefix_of` sB -> PrefixMatch sA sB maxCost = 0.
Proof.
  intros Hp. unfold PrefixMatch.
  destruct (Nat.ltb_spec (length sB) (length sA)) as [Hlt|_].
  - apply prefix_length in Hp. lia.
  - now apply match_loop_prefix.
Qed.

Lemma PrefixMatch_zero sA sB maxCost :
  u32 (maxCost + 1) <> 0 -> PrefixMatch sA sB maxCost = 0 -> sA `prefix_of` sB.
Proof.
  intros Hne. unfold PrefixMatch.
  destruct (length sB <? length sA)%nat.
  - intros H. contradiction.
  - now apply match_loop_zero.
Qed.

Lemma succ_no_wrap maxCost :
  0 <= maxCost < 2 ^ 32 - 1 -> u32 (maxCost + 1) = maxCost + 1.
Proof. intros H. apply u32_small. lia. Qed.

Lemma GetMaxPrefixMatchScore_cases size :
  GetMaxPrefixMatchScore size = 1 /\ size < 3 \/
  GetMaxPrefixMatchScore size = 256 /\ 3 <= size < 6 \/
  GetMaxPrefixMatchScore size = 512 /\ 6 <= size.
Proof.
  unfold GetMaxPrefixMatchScore.
  destruct (Z.ltb_spec size 3); [left; lia|].
  destruct (Z.ltb_spec size 6); [right; left; lia | right; right; lia].
Qed.

Lemma GetMaxPrefixMatchScore_range size :
  1 <= GetMaxPrefixMatchScore size <= 512.
Proof. destruct (GetMaxPrefixMatchScore_cases size) as [[-> _]|[[-> _]|[-> _]]]; lia. Qed.

End Matching.

(** ** The result ranker: [AddResult] *)

Section Ranker.

Context {E : External}.
Variable cost : IntermediateResult -> Z.

Implicit Types (q : Query) (r : IntermediateResult) (pq : list IntermediateResult).

Lemma pq_push_Permutation r pq : pq_push cost r pq ≡ₚ r :: pq.
Proof.
  induction pq as [|x pq IH]; simpl; [reflexivity|].
  destruct (operator_lt cost x r); [reflexivity|].
  rewrite IH. apply Permutation_swap.
Qed.

Lemma pq_push_length r pq : length (pq_push cost r pq) = S (length pq).
Proof. now rewrite pq_push_Permutation. Qed.

Lemma pq_push_sorted r pq :
  StronglySorted (worst_first cost) pq -> StronglySorted (worst_first cost) (pq_push cost r pq).
Proof.
  induction pq as [|x pq IH]; simpl; intros Hs.
  - repeat constructor.
  - apply StronglySorted_cons in Hs as [Hx Hs].
    unfold operator_lt. destruct (Z.ltb_spec (cost x) (cost r)) as [Hlt|Hge].
    + apply StronglySorted_cons. split; [|now apply StronglySorted_cons].
      constructor; [unfold worst_first; lia|].
      eapply Forall_impl; [exact Hx|]. unfold worst_first. intros; lia.
    + apply StronglySorted_cons. split; [|now apply IH].
      rewrite pq_push_Permutation. constructor; [exact Hge | exact Hx].
Qed.

Lemma AddResult_resultsRemaining q r :
  m_resultsRemaining (AddResult cost q r) = m_resultsRemaining q.
Proof.
  unfold AddResult. destruct (_ <? _); [reflexivity|].
  destruct (m_results q) as [|top popped]; [reflexivity|].
  destruct (operator_lt cost r top); reflexivity.
Qed.

Lemma OfferAll_resultsRemaining q rs :
  m_resultsRemaining (OfferAll cost q rs) = m_resultsRemaining q.
Proof.
  revert q. induction rs as [|r rs IH]; intros q; simpl; [reflexivity|].
  unfold OfferAll in *. simpl. now rewrite IH, AddResult_resultsRemaining.
Qed.

Lemma OfferAll_snoc q rs r :
  OfferAll cost q (rs ++ [r]) = AddResult cost (OfferAll cost q rs) r.
Proof. unfold OfferAll. apply foldl_snoc. Qed.

Lemma AddResult_sorted q r :
  StronglySorted (worst_first cost) (m_results q) ->
  StronglySorted (worst_first cost) (m_results (AddResult cost q r)).
Proof.
  intros Hs. unfold AddResult. destruct (_ <? _); simpl.
  - now apply pq_push_sorted.
  - destruct (m_results q) as [|top popped] eqn:Hq; [now rewrite Hq|].
    destruct (operator_lt cost r top); simpl; [|now rewrite Hq].
    apply pq_push_sorted. now apply StronglySorted_cons in Hs as [_ Hs].
Qed.

Lemma OfferAll_sorted q rs :
  StronglySorted (worst_first cost) (m_results q) ->
  StronglySorted (worst_first cost) (m_results (OfferAll cost q rs)).
Proof.
  induction rs as [|r rs IH] using rev_ind; intros Hs; [exact Hs|].
  rewrite OfferAll_snoc. apply AddResult_sorted, IH, Hs.
Qed.

Lemma AddResult_contract (N : nat) q r :
  m_resultsRemaining q = Z.of_nat N -> (0 < N)%nat ->
  (length (m_results q) <= N)%nat ->
  StronglySorted (worst_first cost) (m_results q) ->
  offer_contract cost N q r.
Proof.
  intros HN Hpos Hlen Hs. unfold offer_contract, AddResult. rewrite HN.
  destruct (decide (length (m_results q) < N)%nat) as [Hlt|Hge].
  - destruct (Z.ltb_spec (Z.of_nat (length (m_results q))) (Z.of_nat N)); [|lia].
    simpl. apply pq_push_Permutation.
  - destruct (Z.ltb_spec (Z.of_nat (length (m_results q))) (Z.of_nat N)); [lia|].
    destruct (m_results q) as [|top popped] eqn:Hq; [simpl in *; lia|].
    exists top, popped. split; [reflexivity|].
    apply StronglySorted_cons in Hs as [Htop Hs]. split.
    + intros x Hx. apply elem_of_cons in Hx as [->|Hx]; [lia|].
      rewrite Forall_forall in Htop. apply (Htop x Hx).
    + unfold operator_lt.
      destruct (decide (cost r < cost top)) as [Hr|Hr].
      * destruct (Z.ltb_spec (cost r) (cost top)); [|lia].
        simpl. apply pq_push_Permutation.
      * destruct (Z.ltb_spec (cost r) (cost top)); [lia|]. reflexivity.
Qed.

Lemma AddResult_length (N : nat) q r :
  m_resultsRemaining q = Z.of_nat N ->
  (length (m_results q) <= N)%nat ->
  (length (m_results (AddResult cost q r)) <= N)%nat.
Proof.
  intros HN Hlen. unfold AddResult. rewrite HN.
  destruct (Z.ltb_spec (Z.of_nat (length (m_results q))) (Z.of_nat N)); simpl.
  - rewrite pq_push_length. lia.
  - destruct (m_results q) as [|top popped] eqn:Hq; [now rewrite Hq|].
    destruct (operator_lt cost r top); simpl; [|now rewrite Hq].
    rewrite pq_push_length. simpl in Hlen. lia.
Qed.

Lemma OfferAll_length (N : nat) q rs :
  m_resultsRemaining q = Z.of_nat N ->
  (length (m_results q) <= N)%nat ->
  (length (m_results (OfferAll cost q rs)) <= N)%nat.
Proof.
  intros HN Hlen. induction rs as [|r rs IH] using rev_ind; [exact Hlen|].
  rewrite OfferAll_snoc. apply AddResult_length; [|exact IH].
  now rewrite OfferAll_resultsRemaining.
Qed.

(** The heart of the ranker: after any sequence of offers to an empty
    queue, the queue holds [N] best of them. *)
Lemma OfferAll_best_of (N : nat) q rs :
  m_resultsRemaining q = Z.of_nat N -> (0 < N)%nat ->
  m_results q = [] ->
  best_of cost N rs (m_results (OfferAll cost q rs)).
Proof.
  intros HN Hpos Hq. induction rs as [|r rs IH] using rev_ind.
  - exists []. unfold OfferAll. simpl. rewrite Hq. simpl.
    split; [reflexivity|]. split; [simpl; lia|].
    intros a b Ha. now apply elem_of_nil in Ha.
  - destruct IH as (dropped & Hperm & Hlen & Hord).
    rewrite OfferAll_snoc. set (q1 := OfferAll cost q rs) in *.
    assert (HN1 : m_resultsRemaining q1 = Z.of_nat N)
      by (unfold q1; now rewrite OfferAll_resultsRemaining).
    assert (Hs : StronglySorted (worst_first cost) (m_results q1))
      by (apply OfferAll_sorted; rewrite Hq; constructor).
    assert (Hle : (length (m_results q1) <= N)%nat) by lia.
    pose proof (AddResult_contract N q1 r HN1 Hpos Hle Hs) as Hc.
    unfold offer_contract in Hc. unfold best_of. rewrite length_app. simpl.
    destruct (decide (length (m_results q1) < N)%nat) as [Hlt|Hge].
    + assert (dropped = []) as ->.
      { apply Permutation_length in Hperm. rewrite length_app in Hperm.
        destruct dropped; [reflexivity | simpl in Hperm; lia]. }
      exists []. rewrite app_nil_r in *. split; [|split].
      * rewrite Hc, Hperm. symmetry. apply Permutation_cons_append.
      * rewrite Hc. simpl. lia.
      * intros a b _ Hb. now apply elem_of_nil in Hb.
    + destruct Hc as (worst & rest & Hq1 & Hworst & Hc).
      assert (Hin : forall x, x ∈ rest -> x ∈ m_results q1)
        by (intros x Hx; rewrite Hq1; now right).
      assert (Hw : worst ∈ m_results q1) by (rewrite Hq1; now left).
      destruct (decide (cost r < cost worst)) as [Hr|Hr].
      * exists (worst :: dropped). split; [|split].
        -- rewrite Hc, Hperm, Hq1. simpl.
           rewrite <- Permutation_cons_append.
           rewrite (Permutation_swap r worst). constructor.
           now rewrite Permutation_middle.
        -- rewrite Hc. simpl. rewrite Hq1 in Hlen. simpl in Hlen.
           rewrite Hq1 in Hge. simpl in Hge. lia.
        -- intros a b Ha Hb. rewrite Hc in Ha.
           assert (cost a <= cost worst) as Ha'.
           { apply elem_of_cons in Ha as [->|Ha]; [lia|]. apply Hworst, Hin, Ha. }
           apply elem_of_cons in Hb as [->|Hb]; [exact Ha'|].
           apply elem_of_cons in Ha as [->|Ha].
           ++ specialize (Hord worst b Hw Hb). lia.
           ++ apply Hord; [apply Hin, Ha | exact Hb].
      * rewrite Hc. exists (r :: dropped). split; [|split].
        -- rewrite Hperm. rewrite <- Permutation_cons_append.
           now rewrite Permutation_middle.
        -- lia.
        -- intros a b Ha Hb. apply elem_of_cons in Hb as [->|Hb].
           ++ specialize (Hworst a Ha). lia.
           ++ now apply Hord.
Qed.

(** The costs kept are determined by the costs offered: they are the [N]
    lowest, whatever the order of the offers. *)
Lemma best_of_costs (N : nat) offered kept :
  StronglySorted (worst_first cost) kept ->
  best_of cost N offered kept ->
  reverse (cost <$> kept) = take N (merge_sort Z.le (cost <$> offered)).
Proof.
  intros Hs (dropped & Hperm & Hlen & Hord).
  set (lo := reverse (cost <$> kept)).
  set (hi := merge_sort Z.le (cost <$> dropped)).
  assert (Hlo : StronglySorted Z.le lo).
  { unfold lo. clear -Hs. induction Hs as [|x l Hl IH Hx]; [constructor|].
    rewrite fmap_cons, reverse_cons. apply StronglySorted_app_2.
    - intros x1 x2 H1 H2. apply list_elem_of_singleton in H2 as ->.
      apply elem_of_reverse, list_elem_of_fmap in H1 as (y & -> & Hy).
      rewrite Forall_forall in Hx. apply (Hx y Hy).
    - exact IH.
    - repeat constructor. }
  assert (Heq : merge_sort Z.le (cost <$> offered) = lo ++ hi).
  { apply (StronglySorted_unique Z.le).
    - apply StronglySorted_merge_sort; apply _.
    - apply StronglySorted_app_2; [|exact Hlo|apply StronglySorted_merge_sort; apply _].
      intros x1 x2 H1 H2. unfold lo in H1. unfold hi in H2.
      rewrite merge_sort_Permutation in H2.
      apply elem_of_reverse, list_elem_of_fmap in H1 as (a & -> & Ha).
      apply list_elem_of_fmap in H2 as (b & -> & Hb). now apply Hord.
    - rewrite merge_sort_Permutation. unfold lo, hi.
      rewrite merge_sort_Permutation, reverse_Permutation, Hperm, fmap_app.
      reflexivity. }
  rewrite Heq.
  assert (Hlolen : length lo = length kept)
    by (unfold lo; now rewrite length_reverse, length_fmap).
  destruct (decide (N <= length offered)%nat) as [Hfull|Hpart].
  - rewrite take_app_length'; [reflexivity | lia].
  - assert (dropped = []) as ->.
    { apply Permutation_length in Hperm. rewrite length_app in Hperm.
      destruct dropped; [reflexivity | simpl in Hperm; lia]. }
    unfold hi. simpl. rewrite app_nil_r. rewrite take_ge; [reflexivity | lia].
Qed.

End Ranker.

(** ** The claims about the ranker *)

Lemma merge_sort_costs_Permutation (l1 l2 : list Z) :
  l1 ≡ₚ l2 -> merge_sort Z.le l1 = merge_sort Z.le l2.
Proof.
  intros Hp. apply (StronglySorted_unique Z.le).
  - apply StronglySorted_merge_sort; apply _.
  - apply StronglySorted_merge_sort; apply _.
  - now rewrite !merge_sort_Permutation.
Qed.

(** C1.  The ranker keeps a bounded best-N collection.  For a cap [N] (the
    value of [m_resultsRemaining], positive) and any sequence of candidates
    offered to an empty queue: (1) after every offer the queue holds at most
    [N] entries; (2) every offer follows the contract of [Offer]: it inserts
    when fewer than [N] entries are held, otherwise it has a worst entry at
    the top and replaces it by the candidate exactly when the candidate's
    cost is strictly lower, and else leaves the queue as it is; (3) the
    final queue holds [N] best of the candidates offered; (4) its costs
    are the [N] lowest costs offered; (5) these costs do not depend on the
    order of the offers. *)
Theorem ranker_keeps_N_best {E : External} (cost : IntermediateResult -> Z)
    (N : nat) (q : Query) (offered : list IntermediateResult) :
  (0 < N)%nat ->
  m_resultsRemaining q = Z.of_nat N ->
  m_results q = [] ->
  (forall k, (length (m_results (OfferAll cost q (take k offered))) <= N)%nat) /\
  (forall k r, offered !! k = Some r ->
               offer_contract cost N (OfferAll cost q (take k offered)) r) /\
  best_of cost N offered (m_results (OfferAll cost q offered)) /\
  reverse (cost <$> m_results (OfferAll cost q offered))
    = take N (merge_sort Z.le (cost <$> offered)) /\
  (forall offered', offered' ≡ₚ offered ->
     cost <$> m_results (OfferAll cost q offered')
       = cost <$> m_results (OfferAll cost q offered)).
Proof.
  intros Hpos HN Hq.
  assert (Hlen : forall rs, (length (m_results (OfferAll cost q rs)) <= N)%nat).
  { intros rs. apply OfferAll_length; [exact HN|]. rewrite Hq. simpl. lia. }
  assert (Hsorted : forall rs,
             StronglySorted (worst_first cost) (m_results (OfferAll cost q rs))).
  { intros rs. apply OfferAll_sorted. rewrite Hq. constructor. }
  assert (Hcosts : forall rs,
             reverse (cost <$> m_results (OfferAll cost q rs))
               = take N (merge_sort Z.le (cost <$> rs))).
  { intros rs. apply best_of_costs; [apply Hsorted|].
    now apply OfferAll_best_of. }
  split; [intros k; apply Hlen|].
  split.
  { intros k r Hk. apply AddResult_contract; auto.
    now rewrite OfferAll_resultsRemaining. }
  split; [now apply OfferAll_best_of|].
  split; [apply Hcosts|].
  intros offered' Hp.
  apply (inj reverse). rewrite !Hcosts.
  f_equal. apply merge_sort_costs_Permutation. now rewrite Hp.
Qed.

Lemma ranker_keeps_N_best_witness :
  let q := bare_query "x" 2 in
  (forall k, (length (m_results (OfferAll penalty_cost q (take k five_candidates))) <= 2)%nat) /\
  (forall k r, five_candidates !! k = Some r ->
               offer_contract penalty_cost 2 (OfferAll penalty_cost q (take k five_candidates)) r) /\
  best_of penalty_cost 2 five_candidates (m_results (OfferAll penalty_cost q five_candidates)) /\
  reverse (penalty_cost <$> m_results (OfferAll penalty_cost q five_candidates))
    = take 2 (merge_sort Z.le (penalty_cost <$> five_candidates)) /\
  (forall offered', offered' ≡ₚ five_candidates ->
     penalty_cost <$> m_results (OfferAll penalty_cost q offered')
       = penalty_cost <$> m_results (OfferAll penalty_cost q five_candidates)).
Proof.
  apply (ranker_keeps_N_best penalty_cost 2 (bare_query "x" 2) five_candidates).
  - lia.
  - reflexivity.
  - reflexivity.
Defined.

(** ** [FlushResults] *)

Section Flush.

Context {E : External}.
Variable cost : IntermediateResult -> Z.

Lemma drain_spec pq results :
  drain pq results = results ++ (GenerateFinalResult <$> pq).
Proof.
  revert results. induction pq as [|top popped IH]; intros results; simpl.
  - now rewrite app_nil_r.
  - rewrite IH, <- app_assoc. reflexivity.
Qed.

Lemma drain_length pq : length (drain pq []) = length pq.
Proof. rewrite drain_spec. simpl. apply length_fmap. Qed.

Lemma FlushResults_log (s : Run) :
  run_log (FlushResults s)
    = run_log s ++ (EvEmit <$> (GenerateFinalResult <$> reverse (m_results (run_query s)))).
Proof.
  unfold FlushResults. cbn [run_log]. rewrite drain_spec, app_nil_l.
  now rewrite (fmap_reverse GenerateFinalResult).
Qed.

Lemma emitted_app (l1 l2 : list Event) : emitted (l1 ++ l2) = emitted l1 ++ emitted l2.
Proof. unfold emitted. apply omap_app. Qed.

Lemma emitted_emits (rs : list Result) : emitted (EvEmit <$> rs) = rs.
Proof.
  induction rs as [|r rs IH]; [reflexivity|].
  rewrite fmap_cons. unfold emitted in *. cbn [omap list_omap]. now rewrite IH.
Qed.

Lemma reverse_worst_first (pq : list IntermediateResult) :
  StronglySorted (worst_first cost) pq ->
  StronglySorted (best_first cost) (reverse pq).
Proof.
  induction 1 as [|x l Hl IH Hx]; [constructor|].
  rewrite reverse_cons. apply StronglySorted_app_2.
  - intros x1 x2 H1 H2. apply list_elem_of_singleton in H2 as ->.
    rewrite elem_of_reverse in H1. rewrite Forall_forall in Hx.
    apply (Hx x1 H1).
  - exact IH.
  - repeat constructor.
Qed.

Lemma FlushResults_resultsRemaining (s : Run) :
  ranker_inv cost (run_query s) ->
  m_resultsRemaining (run_query (FlushResults s))
    = m_resultsRemaining (run_query s) - Z.of_nat (length (m_results (run_query s))).
Proof.
  intros (Hrange & Hlen & _). unfold FlushResults.
  cbn [run_query set_resultsRemaining m_resultsRemaining].
  rewrite drain_length.
  rewrite (i32_small (Z.of_nat _)) by lia.
  rewrite i32_small by lia. lia.
Qed.

Lemma FlushResults_inv (s : Run) :
  ranker_inv cost (run_query s) -> ranker_inv cost (run_query (FlushResults s)).
Proof.
  intros Hinv. pose proof (FlushResults_resultsRemaining s Hinv) as Hrem.
  destruct Hinv as (Hrange & Hlen & _).
  unfold ranker_inv. rewrite Hrem. simpl. repeat split; try lia. constructor.
Qed.

Lemma AddResult_inv (q : Query) (r : IntermediateResult) :
  ranker_inv cost q -> ranker_inv cost (AddResult cost q r).
Proof.
  intros (Hrange & Hlen & Hs). unfold ranker_inv.
  rewrite AddResult_resultsRemaining.
  split; [exact Hrange|]. split; [|now apply AddResult_sorted].
  pose proof (AddResult_length cost (Z.to_nat (m_resultsRemaining q)) q r) as Hl.
  rewrite Z2Nat.id in Hl by lia. specialize (Hl eq_refl). lia.
Qed.

Lemma Query_ctor_inv query viewport pIndex pCategories pTrieRoot :
  ranker_inv cost (Query_ctor query viewport pIndex pCategories pTrieRoot).
Proof.
  unfold ranker_inv, Query_ctor. cbn [m_resultsRemaining m_results length].
  split; [lia|]. split; [lia | constructor].
Qed.

End Flush.

(** C2.  In every state of the ranker (the invariant [ranker_inv], which the
    constructor establishes and [AddResult] and [FlushResults] keep),
    [FlushResults] drains the queue and sends the drained results to the
    callback in ascending order of cost (best first); the budget decreases
    by the number of results flushed, floored at 0; on an empty queue
    nothing is sent and the budget stays as it is.  With a cap of 2 and
    candidates of costs 5, 3, 8, 1, 9 offered in that order, the results
    flushed are those of costs 1 and 3, in that order. *)
Theorem flush_best_first :
  (forall (E : External) (cost : IntermediateResult -> Z) (s : Run),
      ranker_inv cost (run_query s) ->
      let q := run_query s in
      let flushed := reverse (m_results q) in
      StronglySorted (best_first cost) flushed /\
      flushed ≡ₚ m_results q /\
      run_log (FlushResults s) = run_log s ++ (EvEmit <$> (GenerateFinalResult <$> flushed)) /\
      emitted (run_log (FlushResults s)) = emitted (run_log s) ++ (GenerateFinalResult <$> flushed) /\
      m_results (run_query (FlushResults s)) = [] /\
      m_resultsRemaining (run_query (FlushResults s))
        = Z.max 0 (m_resultsRemaining q - Z.of_nat (length flushed)) /\
      (m_results q = [] ->
       run_log (FlushResults s) = run_log s /\
       m_resultsRemaining (run_query (FlushResults s)) = m_resultsRemaining q) /\
      ranker_inv cost (run_query (FlushResults s)) /\
      (forall r, ranker_inv cost (AddResult cost q r))) /\
  (forall (E : External) (cost : IntermediateResult -> Z) query viewport pIndex
          pCategories pTrieRoot,
      ranker_inv cost (Query_ctor query viewport pIndex pCategories pTrieRoot)) /\
  (let q := OfferAll penalty_cost (bare_query "x" 2) five_candidates in
   penalty_cost <$> reverse (m_results q) = [1; 3] /\
   emitted (run_log (FlushResults (start q)))
     = [ResultSuggestion "a" "a "; ResultSuggestion "c" "c "] /\
   m_resultsRemaining (run_query (FlushResults (start q))) = 0).
Proof.
  split.
  - intros E cost s Hinv q flushed.
    pose proof (FlushResults_resultsRemaining cost s Hinv) as Hrem.
    pose proof (FlushResults_log s) as Hlog.
    pose proof (FlushResults_inv cost s Hinv) as Hinv'.
    pose proof (fun r => AddResult_inv cost (run_query s) r Hinv) as Hadd.
    destruct Hinv as (Hrange & Hlen & Hs). fold q in Hrem, Hlog, Hlen, Hs, Hrange.
    split; [now apply reverse_worst_first|].
    split; [apply reverse_Permutation|].
    split; [exact Hlog|].
    split; [rewrite Hlog, emitted_app, emitted_emits; reflexivity|].
    split; [reflexivity|].
    split.
    + rewrite Hrem. unfold flushed. rewrite length_reverse. lia.
    + split; [|split; [exact Hinv' | exact Hadd]].
      intros Hempty. split.
      * rewrite Hlog. unfold flushed. rewrite Hempty. simpl. apply app_nil_r.
      * rewrite Hrem, Hempty. simpl. lia.
  - split; [intros; apply Query_ctor_inv|].
    vm_compute. repeat split.
Qed.

Lemma flush_best_first_witness :
  let s := start (OfferAll penalty_cost (bare_query "x" 2) five_candidates) in
  StronglySorted (best_first penalty_cost) (reverse (m_results (run_query s))) /\
  emitted (run_log (FlushResults s))
    = emitted (run_log s) ++ (GenerateFinalResult <$> reverse (m_results (run_query s))).
Proof.
  assert (Hinv : ranker_inv penalty_cost
                   (run_query (start (OfferAll penalty_cost (bare_query "x" 2) five_candidates)))).
  { unfold ranker_inv. vm_compute.
    split; [split; [discriminate | reflexivity]|].
    split; [discriminate|].
    repeat constructor; discriminate. }
  destruct (proj1 flush_best_first SmallWorld penalty_cost _ Hinv) as (H1 & _ & _ & H4 & _).
  split; [exact H1 | exact H4].
Defined.

(** ** The claims about the matching functions *)

(** C5, as stated, fails at the greatest [uint32_t] ceiling: there
    [maxCost + 1] wraps to 0, and two different tokens get the cost 0. *)
Lemma keyword_match_wraps_at_greatest_ceiling :
  KeywordMatch [97] [98] 4294967295 = 0 /\ ([97] : UniString) <> [98].
Proof. split; [reflexivity | discriminate]. Qed.

(** C5, amended.  For all tokens A and B and every ceiling [maxCost] below
    the greatest [uint32_t] value (512 for a full keyword), the keyword-match
    cost is 0 exactly when A and B are the same sequence of characters (same
    length, same character at each position); any difference in length or in
    a character gives exactly [maxCost + 1], which is above the ceiling; no
    other cost is returned. *)
Theorem keyword_match_exact (A B : UniString) (maxCost : Z) :
  0 <= maxCost < 2 ^ 32 - 1 ->
  (KeywordMatch A B maxCost = 0 <-> A = B) /\
  (A <> B -> KeywordMatch A B maxCost = maxCost + 1) /\
  (length A <> length B -> KeywordMatch A B maxCost = maxCost + 1) /\
  (KeywordMatch A B maxCost = 0 \/ KeywordMatch A B maxCost = maxCost + 1) /\
  (A <> B -> maxCost < KeywordMatch A B maxCost) /\
  KeywordMatch A B GetMaxKeywordMatchScore = (if decide (A = B) then 0 else 513).
Proof.
  intros Hmax.
  pose proof (succ_no_wrap maxCost Hmax) as Hw.
  assert (Hne : u32 (maxCost + 1) <> 0) by (rewrite Hw; lia).
  assert (Hiff : forall m, u32 (m + 1) <> 0 -> KeywordMatch A B m = 0 <-> A = B).
  { intros m Hm. split.
    - now apply KeywordMatch_zero.
    - intros ->. apply KeywordMatch_refl. }
  assert (Hdiff : forall m, u32 (m + 1) <> 0 -> A <> B -> KeywordMatch A B m = u32 (m + 1)).
  { intros m Hm Hab. destruct (KeywordMatch_values A B m) as [H0|H1]; [|exact H1].
    apply Hiff in H0; [contradiction | exact Hm]. }
  split; [now apply Hiff|].
  split; [intros Hab; rewrite <- Hw; now apply Hdiff|].
  split; [intros Hlen; rewrite <- Hw; apply Hdiff; [exact Hne | congruence]|].
  split; [rewrite <- Hw; apply KeywordMatch_values|].
  split; [intros Hab; rewrite (Hdiff maxCost Hne Hab), Hw; lia|].
  destruct (decide (A = B)) as [->|Hab].
  - apply KeywordMatch_refl.
  - rewrite Hdiff; [reflexivity | discriminate | exact Hab].
Qed.

Lemma keyword_match_exact_witness :
  (KeywordMatch [99; 97] [99; 97; 102] 512 = 0 <-> ([99; 97] : UniString) = [99; 97; 102]) /\
  KeywordMatch [99; 97] [99; 97; 102] 512 = 513.
Proof.
  destruct (keyword_match_exact [99; 97] [99; 97; 102] 512) as (H1 & H2 & _).
  - lia.
  - split; [exact H1 | apply H2; discriminate].
Defined.

(** C6.  For every prefix P and candidate token T, with the ceiling that
    [GetMaxPrefixMatchScore] gives for the length of P (1 below 3
    characters, 256 below 6, 512 otherwise), the prefix-match cost is 0
    exactly when T starts with P character for character, which needs P to
    be no longer than T; otherwise it is the ceiling plus one. *)
Theorem prefix_match_exact (P T : UniString) :
  let size := Z.of_nat (length P) in
  let maxCost := GetMaxPrefixMatchScore size in
  (PrefixMatch P T maxCost = 0 <-> P `prefix_of` T) /\
  (~ P `prefix_of` T -> PrefixMatch P T maxCost = maxCost + 1) /\
  ((length T < length P)%nat -> PrefixMatch P T maxCost = maxCost + 1) /\
  (PrefixMatch P T maxCost = 0 \/ PrefixMatch P T maxCost = maxCost + 1) /\
  maxCost = (if decide (size < 3) then 1 else if decide (size < 6) then 256 else 512).
Proof.
  intros size maxCost.
  pose proof (GetMaxPrefixMatchScore_range size) as Hrange. fold maxCost in Hrange.
  assert (Hw : u32 (maxCost + 1) = maxCost + 1) by (apply succ_no_wrap; lia).
  assert (Hne : u32 (maxCost + 1) <> 0) by (rewrite Hw; lia).
  assert (Hiff : PrefixMatch P T maxCost = 0 <-> P `prefix_of` T).
  { split; [now apply PrefixMatch_zero | apply PrefixMatch_prefix]. }
  assert (Hdiff : ~ P `prefix_of` T -> PrefixMatch P T maxCost = maxCost + 1).
  { intros Hnp. destruct (PrefixMatch_values P T maxCost) as [H0|H1].
    - apply Hiff in H0. contradiction.
    - now rewrite <- Hw. }
  split; [exact Hiff|].
  split; [exact Hdiff|].
  split.
  { intros Hlt. apply Hdiff. intros Hp. apply prefix_length in Hp. lia. }
  split; [rewrite <- Hw; apply PrefixMatch_values|].
  unfold maxCost, GetMaxPrefixMatchScore.
  destruct (decide (size < 3)); destruct (Z.ltb_spec size 3); try lia.
  destruct (decide (size < 6)); destruct (Z.ltb_spec size 6); try lia.
Qed.

Lemma prefix_match_exact_witness :
  PrefixMatch [99; 97; 102] [99; 97] (GetMaxPrefixMatchScore 3) = GetMaxPrefixMatchScore 3 + 1 /\
  PrefixMatch [99; 97; 102] [99; 97; 114] (GetMaxPrefixMatchScore 3) = 257.
Proof.
  destruct (prefix_match_exact [99; 97; 102] [99; 97]) as (_ & _ & H3 & _).
  destruct (prefix_match_exact [99; 97; 102] [99; 97; 114]) as (_ & H2 & _).
  split.
  - apply H3. simpl. lia.
  - apply H2. intros [k Hk]. discriminate Hk.
Defined.

(** ** Tokenization on construction *)

Section Tokenization.

Context {E : External}.

Lemma select_keywords_sublist (i : nat) (mask : Z) (kws : list UniString) :
  select_keywords i mask kws `sublist_of` kws.
Proof.
  revert i. induction kws as [|kw kws IH]; intros i; cbn [select_keywords]; [constructor|].
  destruct (32 <=? i)%nat; [apply sublist_nil_l|].
  destruct (_ =? 0).
  - apply sublist_skip, IH.
  - apply sublist_cons, IH.
Qed.

Lemma resize_31 (kws : list UniString) :
  (if (31 <? length kws)%nat then take 31 kws else kws) = take 31 kws.
Proof.
  destruct (Nat.ltb_spec 31 (length kws)); [reflexivity|].
  symmetry. apply take_ge. lia.
Qed.

Lemma Query_ctor_keywords query viewport pIndex pCategories pTrieRoot :
  let tokens := SplitUniString (NormalizeAndSimplifyString query) in
  m_keywords (Query_ctor query viewport pIndex pCategories pTrieRoot)
    = take 31 (if negb (bool_decide (tokens = [])) && negb (delims (LastUniChar query))
               then removelast tokens else tokens).
Proof.
  intros tokens. unfold Query_ctor. cbn [m_keywords]. fold tokens.
  rewrite resize_31. destruct (_ && _); reflexivity.
Qed.

Lemma Query_ctor_prefix query viewport pIndex pCategories pTrieRoot :
  let tokens := SplitUniString (NormalizeAndSimplifyString query) in
  m_prefix (Query_ctor query viewport pIndex pCategories pTrieRoot)
    = if negb (bool_decide (tokens = [])) && negb (delims (LastUniChar query))
      then default [] (last tokens) else [].
Proof.
  intros tokens. unfold Query_ctor. cbn [m_prefix]. fold tokens.
  destruct (_ && _); reflexivity.
Qed.

Lemma removelast_prefix (l : list UniString) : removelast l `prefix_of` l.
Proof.
  destruct l as [|x l] using rev_ind; [reflexivity|].
  rewrite removelast_last. now exists [x].
Qed.

End Tokenization.

(** C7.  On construction of a query, with [tokens] the tokens that splitting
    the normalised text yields: if the text ends in a delimiter the prefix
    is empty and the keywords are the first 31 tokens; if it does not, the
    last token is taken out of the keywords and becomes the prefix, and the
    keywords are the first 31 of the tokens before it; at most 31 keywords
    are kept, and they are the leading tokens; from 40 tokens exactly the
    first 31 (indices 0 to 30) are kept; and the keywords given to matching
    are drawn from these 31 only. *)
Theorem tokenization_on_construction {E : External} (query : string) (viewport : RectD)
    (pIndex : RectD -> Z -> list FeatureType)
    (pCategories : option (list Category)) (pTrieRoot : option (list FeatureType)) :
  let q := Query_ctor query viewport pIndex pCategories pTrieRoot in
  let tokens := SplitUniString (NormalizeAndSimplifyString query) in
  (delims (LastUniChar query) = true ->
   m_prefix q = [] /\ m_keywords q = take 31 tokens) /\
  (delims (LastUniChar query) = false ->
   forall init final, tokens = init ++ [final] ->
     m_prefix q = final /\ m_keywords q = take 31 init) /\
  (tokens = [] -> m_prefix q = [] /\ m_keywords q = []) /\
  (length (m_keywords q) <= 31)%nat /\
  m_keywords q `prefix_of` tokens /\
  (length tokens = 40%nat ->
   length (m_keywords q) = 31%nat /\ m_keywords q = take 31 tokens) /\
  (forall mask, select_keywords 0 mask (m_keywords q) `sublist_of` take 31 tokens).
Proof.
  intros q tokens.
  pose proof (Query_ctor_keywords query viewport pIndex pCategories pTrieRoot) as Hk.
  pose proof (Query_ctor_prefix query viewport pIndex pCategories pTrieRoot) as Hp.
  cbv zeta in Hk, Hp. fold tokens q in Hk, Hp.
  assert (Hpre : m_keywords q `prefix_of` tokens).
  { rewrite Hk. etransitivity; [apply prefix_take|].
    destruct (_ && _); [apply removelast_prefix | reflexivity]. }
  assert (Hlen : (length (m_keywords q) <= 31)%nat).
  { rewrite Hk, length_take. lia. }
  split.
  { intros Hd. rewrite Hk, Hp, Hd, andb_false_r. split; reflexivity. }
  split.
  { intros Hd init final Htok. rewrite Hk, Hp, Hd, Htok.
    rewrite bool_decide_eq_false_2 by (intros H; now apply app_nil in H as [_ H]).
    simpl. rewrite removelast_last, last_snoc. split; reflexivity. }
  split.
  { intros Htok. rewrite Hk, Hp, Htok. split; reflexivity. }
  split; [exact Hlen|].
  split; [exact Hpre|].
  split.
  { intros H40.
    assert (Heq : m_keywords q = take 31 tokens).
    { rewrite Hk. destruct (_ && _); [|reflexivity].
      destruct tokens as [|x l] using rev_ind; [reflexivity|].
      rewrite removelast_last. rewrite length_app in H40. simpl in H40.
      rewrite take_app_le by lia. reflexivity. }
    split; [|exact Heq]. rewrite Heq, length_take. lia. }
  intros mask. etransitivity; [apply select_keywords_sublist|].
  destruct Hpre as [k Hk']. rewrite Hk'.
  rewrite take_app, (take_ge (m_keywords q)) by lia.
  now apply sublist_inserts_r.
Qed.

Lemma tokenization_on_construction_witness :
  let q := cafe_query forty_words in
  length (m_keywords q) = 31%nat /\
  m_keywords q = replicate 31 [119] /\
  m_prefix q = [119].
Proof.
  destruct (tokenization_on_construction (E := SmallWorld) forty_words tt cafe_index
              (Some [cafe_category; car_category]) (Some [cafe_central]))
    as (_ & Hopen & _ & _ & _ & H40 & _).
  destruct H40 as [Hlen Hkw]; [vm_compute; reflexivity|].
  destruct (Hopen eq_refl (replicate 39 [119]) [119]) as [Hprefix _];
    [vm_compute; reflexivity|].
  split; [exact Hlen|]. split; [|exact Hprefix].
  etransitivity; [exact Hkw|]. vm_compute. reflexivity.
Defined.

(** ** Runs of [Search] *)

Lemma GetTerminateFlag_eq {E : External} (flag : nat -> bool) (s : Run) :
  GetTerminateFlag flag s = (flag (run_clock s), checked flag s).
Proof. reflexivity. Qed.

(** Take the outermost read of the flag in the goal and split on its value. *)
Ltac read_flag H :=
  match goal with
  | |- context [GetTerminateFlag ?fl ?s] =>
      rewrite (GetTerminateFlag_eq fl s);
      destruct (fl (run_clock s)) eqn:H
  end;
  cbv beta iota zeta.

Section Runs.

Context {E : External}.
Variable cost : IntermediateResult -> Z.
Variable flag : nat -> bool.

Implicit Types (s : Run) (q : Query) (r : IntermediateResult).

Lemma checked_log s :
  run_log (checked flag s) = run_log s ++ [EvCheck (flag (run_clock s))].
Proof. reflexivity. Qed.

Lemma emitted_check (log : list Event) b : emitted (log ++ [EvCheck b]) = emitted log.
Proof. rewrite emitted_app. simpl. apply app_nil_r. Qed.

Lemma emitted_emit (log : list Event) (res : Result) :
  emitted (log ++ [EvEmit res]) = emitted log ++ [res].
Proof. now rewrite emitted_app. Qed.

Lemma never_set_snoc_false (log : list Event) :
  never_set log -> never_set (log ++ [EvCheck false]).
Proof.
  unfold never_set. intros H Hin. apply elem_of_app in Hin as [Hin|Hin]; [auto|].
  apply list_elem_of_singleton in Hin. discriminate.
Qed.

Lemma never_set_emits (log : list Event) (rs : list Result) :
  never_set log -> never_set (log ++ (EvEmit <$> rs)).
Proof.
  unfold never_set. intros H Hin. apply elem_of_app in Hin as [Hin|Hin]; [auto|].
  apply list_elem_of_fmap in Hin as (x & Hx & _). discriminate.
Qed.

(** *** Results that are not the end marker *)

Lemma AddResult_proper q r :
  Forall (proper) (m_results q) -> proper r ->
  Forall proper (m_results (AddResult cost q r)).
Proof.
  intros Hq Hr. unfold AddResult. destruct (_ <? _); cbn [m_results set_results].
  - rewrite pq_push_Permutation. now constructor.
  - destruct (m_results q) as [|top popped] eqn:Hres; [now rewrite Hres|].
    destruct (operator_lt cost r top); cbn [m_results set_results]; [|now rewrite Hres].
    rewrite pq_push_Permutation. constructor; [exact Hr|].
    now apply Forall_cons in Hq as [_ Hq].
Qed.

Lemma proper_place r : GenerateFinalResult r = ResultPlace r -> proper r.
Proof. unfold proper. intros ->. discriminate. Qed.

Lemma proper_category name completion penalty :
  string_empty name = false -> proper (IRCategory name completion penalty).
Proof.
  unfold proper, EndMarker. simpl. intros Hne Heq.
  injection Heq as -> _. discriminate.
Qed.

Lemma LatLonMatching_proper q :
  Forall proper (m_results q) -> Forall proper (m_results (LatLonMatching cost q)).
Proof.
  intros Hq. unfold LatLonMatching.
  destruct (MatchLatLon (m_queryText q)) as [[[[lat lon] latPrec] lonPrec]|]; [|exact Hq].
  apply AddResult_proper; [exact Hq|]. now apply proper_place.
Qed.

Lemma SkipForTypes_results types mask q :
  m_results (SkipForTypes types mask q) = m_results q.
Proof. reflexivity. Qed.

Lemma SynonymStep_results c (st : Query * Best) name :
  m_results (SynonymStep c st name).1 = m_results st.1.
Proof.
  unfold SynonymStep.
  destruct (negb (bool_decide (m_keywords st.1 = []))).
  - destruct (_ <=? _)%nat; [|reflexivity]. cbn [fst].
    destruct (bool_decide _); destruct (bool_decide _); reflexivity.
  - destruct (negb _); [|reflexivity].
    destruct (_ <=? _); [|reflexivity].
    destruct (_ <? _); reflexivity.
Qed.

Lemma Synonyms_results c (st : Query * Best) names :
  m_results (foldl (SynonymStep c) st names).1 = m_results st.1.
Proof.
  revert st. induction names as [|name names IH]; intros st; simpl; [reflexivity|].
  now rewrite IH, SynonymStep_results.
Qed.

Lemma CategoryStep_proper q c :
  Forall proper (m_results q) -> Forall proper (m_results (CategoryStep cost q c)).
Proof.
  intros Hq. unfold CategoryStep.
  set (st := foldl (SynonymStep c) (q, Best_init q) (m_synonyms c)).
  assert (Hst : Forall proper (m_results st.1))
    by (unfold st; now rewrite Synonyms_results).
  destruct (string_empty (bestPrefixMatch st.2)) eqn:Hempty; simpl; [exact Hst|].
  apply AddResult_proper; [exact Hst|]. now apply proper_category.
Qed.

Lemma CategoryMatching_proper q :
  Forall proper (m_results q) -> Forall proper (m_results (CategoryMatching cost q)).
Proof.
  unfold CategoryMatching. destruct (m_pCategories q) as [categories|]; [|auto].
  clear. revert q. induction categories as [|c categories IH]; intros q Hq; simpl; [exact Hq|].
  apply IH, CategoryStep_proper, Hq.
Qed.

(** *** The feature functor *)

Lemma FeatureProcessor_stop feature s :
  flag (run_clock s) = true ->
  FeatureProcessor cost flag feature s = Stop (checked flag s).
Proof.
  intros Hf. unfold FeatureProcessor. rewrite GetTerminateFlag_eq, Hf. reflexivity.
Qed.

Lemma FeatureProcessor_done feature s :
  flag (run_clock s) = false ->
  exists q',
    FeatureProcessor cost flag feature s = Done (set_query (checked flag s) q') /\
    (Forall proper (m_results (run_query s)) -> Forall proper (m_results q')).
Proof.
  intros Hf. unfold FeatureProcessor. rewrite GetTerminateFlag_eq, Hf.
  cbv beta iota.
  assert (Hsame : checked flag s = set_query (checked flag s) (run_query s))
    by reflexivity.
  destruct (_ <=? _); [|exists (run_query s); now rewrite <- Hsame].
  destruct (_ <=? _); [|exists (run_query s); now rewrite <- Hsame].
  destruct (_ <? 0); [exists (run_query s); now rewrite <- Hsame|].
  eexists. split; [reflexivity|].
  intros Hq. apply AddResult_proper; [exact Hq|]. now apply proper_place.
Qed.

Lemma running_checked_false s :
  running flag s -> flag (run_clock s) = false -> running flag (checked flag s).
Proof.
  intros (Hns & Hk & Hm & Hp) Hf. unfold running.
  rewrite checked_log, Hf, emitted_check.
  split; [now apply never_set_snoc_false|].
  split; [|split; [exact Hm | exact Hp]].
  intros k Hlt. simpl in Hlt.
  destruct (decide (k = run_clock s)) as [->|Hne]; [exact Hf | apply Hk; lia].
Qed.

Lemma running_checked_true s :
  running flag s -> flag (run_clock s) = true -> stopped flag (checked flag s).
Proof.
  intros (Hns & Hk & Hm & _) Hf. split.
  - right. exists (run_log s).
    split; [exact Hns|]. split; [exact Hm|]. left. now rewrite checked_log, Hf.
  - intros k Hset. simpl.
    destruct (decide (k < run_clock s)%nat) as [Hlt|Hge]; [|lia].
    rewrite (Hk k Hlt) in Hset. discriminate.
Qed.

Lemma running_checked_stopping s :
  level_triggered flag ->
  running flag s -> flag (run_clock s) = true -> stopping flag (checked flag s).
Proof.
  intros Hlt (Hns & Hk & Hm & _) Hf. split; [|split].
  - apply (Hlt (run_clock s)); [simpl; lia | exact Hf].
  - intros k Hlt'. simpl in Hlt'. apply Hk. lia.
  - exists (run_log s). rewrite checked_log, Hf. auto.
Qed.

Lemma stopping_checked s :
  stopping flag s ->
  flag (run_clock s) = true /\ stopped flag (checked flag s).
Proof.
  intros (Hf & Hk & before & Hlog & Hns & Hm). split; [exact Hf|]. split.
  - right. exists before. split; [exact Hns|]. split; [exact Hm|]. right.
    rewrite checked_log, Hf, Hlog, <- app_assoc. reflexivity.
  - intros k Hset. simpl.
    destruct (decide (k + 1 < run_clock s)%nat) as [Hlt|Hge]; [|lia].
    rewrite (Hk k Hlt) in Hset. discriminate.
Qed.

Lemma running_start q : Forall proper (m_results q) -> running flag (start q).
Proof.
  intros Hq. split; [|split; [|split; [|exact Hq]]].
  - intros Hin. now apply elem_of_nil in Hin.
  - intros k Hk. simpl in Hk. lia.
  - intros Hin. now apply elem_of_nil in Hin.
Qed.

Lemma running_set_query s q :
  running flag s -> Forall proper (m_results q) -> running flag (set_query s q).
Proof. intros (Hns & Hk & Hm & _) Hq. repeat split; assumption. Qed.

Lemma ForEachInRect_cases features s :
  level_triggered flag -> running flag s ->
  (exists s', ForEachInRect cost flag features s = Done s' /\ running flag s') \/
  (exists s', ForEachInRect cost flag features s = Stop s' /\ stopping flag s').
Proof.
  intros Hlt. revert s. induction features as [|feature rest IH]; intros s Hrun; simpl.
  - left. eauto.
  - destruct (flag (run_clock s)) eqn:Hf.
    + right. rewrite FeatureProcessor_stop by exact Hf.
      eexists. split; [reflexivity|]. now apply running_checked_stopping.
    + destruct (FeatureProcessor_done feature s Hf) as (q' & -> & Hq').
      apply IH. apply running_set_query.
      * now apply running_checked_false.
      * apply Hq'. apply Hrun.
Qed.

Lemma LocalFeatureMatching_cases s :
  level_triggered flag -> running flag s ->
  running flag (LocalFeatureMatching cost flag s) \/
  stopping flag (LocalFeatureMatching cost flag s).
Proof.
  intros Hlt Hrun. unfold LocalFeatureMatching.
  destruct (_ <? _); [|now left].
  destruct (ForEachInRect_cases
              (m_pIndex (run_query s) (m_viewport (run_query s))
                 (Z.min GetUpperScale (i32 (GetScaleLevel (m_viewport (run_query s)) + 7))))
              s Hlt Hrun)
    as [(s' & -> & H)|(s' & -> & H)]; [now left | now right].
Qed.

Lemma MatchAgainstTrie_cases entities s :
  level_triggered flag -> running flag s ->
  running flag (MatchAgainstTrie cost flag entities s) \/
  stopping flag (MatchAgainstTrie cost flag entities s).
Proof.
  intros Hlt. revert s. induction entities as [|feature rest IH]; intros s Hrun; simpl.
  - now left.
  - destruct (flag (run_clock s)) eqn:Hf.
    + right. rewrite FeatureProcessor_stop by exact Hf.
      now apply running_checked_stopping.
    + destruct (FeatureProcessor_done feature s Hf) as (q' & -> & Hq').
      apply IH. apply running_set_query.
      * now apply running_checked_false.
      * apply Hq'. apply Hrun.
Qed.

Lemma TrieMatching_cases s :
  level_triggered flag -> running flag s ->
  running flag (TrieMatching cost flag s) \/ stopping flag (TrieMatching cost flag s).
Proof.
  intros Hlt Hrun. unfold TrieMatching.
  destruct (m_pTrieRoot (run_query s)); [now apply MatchAgainstTrie_cases | now left].
Qed.

Lemma FlushResults_running s : running flag s -> running flag (FlushResults s).
Proof.
  intros (Hns & Hk & Hm & Hp). unfold running. rewrite FlushResults_log.
  split; [now apply never_set_emits|]. split; [exact Hk|]. split; [|constructor].
  rewrite emitted_app, emitted_emits. intros Hin.
  apply elem_of_app in Hin as [Hin|Hin]; [auto|].
  apply list_elem_of_fmap in Hin as (r & Heq & Hr).
  rewrite elem_of_reverse in Hr. rewrite Forall_forall in Hp.
  apply (Hp r Hr). now symmetry.
Qed.

Lemma emit_EndMarker_stopped s :
  running flag s -> stopped flag (emit EndMarker s).
Proof.
  intros (Hns & Hk & _). split.
  - left. unfold never_set, emit. simpl. intros Hin.
    apply elem_of_app in Hin as [Hin|Hin]; [auto|].
    apply list_elem_of_singleton in Hin. discriminate.
  - intros k Hset. simpl.
    destruct (decide (k < run_clock s)%nat) as [Hlt|Hge]; [|lia].
    rewrite (Hk k Hlt) in Hset. discriminate.
Qed.

(** *** The search as a whole *)

Lemma LatLonMatching_running s :
  running flag s -> running flag (set_query s (LatLonMatching cost (run_query s))).
Proof.
  intros R. apply running_set_query; [exact R|]. apply LatLonMatching_proper, R.
Qed.

Lemma CategoryMatching_running s :
  running flag s -> running flag (set_query s (CategoryMatching cost (run_query s))).
Proof.
  intros R. apply running_set_query; [exact R|]. apply CategoryMatching_proper, R.
Qed.

Lemma Search_stopped s0 :
  level_triggered flag -> running flag s0 ->
  stopped flag (Search cost flag s0).
Proof.
  intros Hlt R. unfold Search.
  read_flag H; [now apply running_checked_true|].
  apply running_checked_false in R; [|exact H]. clear H.
  apply LatLonMatching_running in R.
  read_flag H; [now apply running_checked_true|].
  apply running_checked_false in R; [|exact H]. clear H.
  apply CategoryMatching_running in R.
  read_flag H; [now apply running_checked_true|].
  apply running_checked_false in R; [|exact H]. clear H.
  apply (LocalFeatureMatching_cases _ Hlt) in R as [R|S].
  2: { rewrite GetTerminateFlag_eq.
       destruct (stopping_checked _ S) as [-> Hs]. exact Hs. }
  read_flag H; [now apply running_checked_true|].
  apply running_checked_false in R; [|exact H]. clear H.
  apply FlushResults_running in R.
  destruct (_ =? 0); [now apply emit_EndMarker_stopped|].
  read_flag H; [now apply running_checked_true|].
  apply running_checked_false in R; [|exact H]. clear H.
  apply (TrieMatching_cases _ Hlt) in R as [R|S].
  2: { rewrite GetTerminateFlag_eq.
       destruct (stopping_checked _ S) as [-> Hs]. exact Hs. }
  read_flag H; [now apply running_checked_true|].
  apply running_checked_false in R; [|exact H]. clear H.
  apply emit_EndMarker_stopped, FlushResults_running, R.
Qed.

Lemma stopped_log_first (before pre post : list Event) :
  never_set before ->
  pre ++ EvCheck true :: post = before ++ [EvCheck true] ->
  pre = before /\ post = [].
Proof.
  intros Hns Heq. destruct post as [|x post] using rev_ind.
  - apply app_inj_tail in Heq as [-> _]. auto.
  - clear IHpost. exfalso. apply Hns.
    rewrite app_comm_cons, app_assoc in Heq.
    apply app_inj_tail in Heq as [<- _].
    apply elem_of_app. right. left.
Qed.

Lemma stopped_log_quiet (log pre post : list Event) :
  stopped_log log ->
  log = pre ++ EvCheck true :: post ->
  (forall res, EvEmit res ∉ post) /\ emitted log = emitted pre.
Proof.
  intros [Hns|(before & Hns & _ & [Hlog|Hlog])] Heq.
  - exfalso. apply Hns. rewrite Heq. apply elem_of_app. right. left.
  - rewrite Hlog in Heq. symmetry in Heq.
    apply stopped_log_first in Heq as [-> ->]; [|exact Hns].
    split; [intros res Hin; now apply elem_of_nil in Hin|].
    rewrite Hlog. apply emitted_check.
  - destruct post as [|x post] using rev_ind.
    + rewrite Hlog in Heq.
      change (before ++ [EvCheck true; EvCheck true])
        with (before ++ [EvCheck true] ++ [EvCheck true]) in Heq.
      rewrite app_assoc in Heq. apply app_inj_tail in Heq as [<- _].
      split; [intros res Hin; now apply elem_of_nil in Hin|].
      rewrite Hlog.
      change (before ++ [EvCheck true; EvCheck true])
        with (before ++ [EvCheck true] ++ [EvCheck true]).
      rewrite app_assoc. apply emitted_check.
    + clear IHpost. rewrite Hlog in Heq.
      change (before ++ [EvCheck true; EvCheck true])
        with (before ++ [EvCheck true] ++ [EvCheck true]) in Heq.
      rewrite app_comm_cons, !app_assoc in Heq.
      apply app_inj_tail in Heq as [Heq <-]. symmetry in Heq.
      apply stopped_log_first in Heq as [-> ->]; [|exact Hns].
      split.
      * intros res Hin. apply list_elem_of_singleton in Hin. discriminate.
      * rewrite Hlog.
        change (before ++ [EvCheck true; EvCheck true])
          with (before ++ [EvCheck true] ++ [EvCheck true]).
        rewrite app_assoc, !emitted_check. reflexivity.
Qed.

Lemma stopped_log_no_marker (log : list Event) :
  stopped_log log -> EvCheck true ∈ log -> EndMarker ∉ emitted log.
Proof.
  intros [Hns|(before & Hns & Hm & [->| ->])] Hin.
  - contradiction.
  - now rewrite emitted_check.
  - change (before ++ [EvCheck true; EvCheck true])
      with (before ++ [EvCheck true] ++ [EvCheck true]).
    now rewrite app_assoc, !emitted_check.
Qed.

(** *** Runs in which the flag is never set *)

Section Uncancelled.

Hypothesis flag_never_set : forall k, flag k = false.

Lemma never_set_level_triggered : level_triggered flag.
Proof. intros i j _ Hi. now rewrite flag_never_set in Hi. Qed.

Lemma not_stopping s : ~ stopping flag s.
Proof. intros [Hf _]. now rewrite flag_never_set in Hf. Qed.

Lemma running_checked s : running flag s -> running flag (checked flag s).
Proof. intros R. now apply running_checked_false. Qed.

Lemma LocalFlush_running s0 : running flag s0 -> running flag (LocalFlush cost flag s0).
Proof.
  intros R. unfold LocalFlush. cbv zeta.
  apply FlushResults_running, running_checked.
  destruct (LocalFeatureMatching_cases
              (checked flag
                 (set_query
                    (checked flag
                       (set_query (checked flag s0)
                          (LatLonMatching cost (run_query (checked flag s0)))))
                    (CategoryMatching cost
                       (run_query
                          (checked flag
                             (set_query (checked flag s0)
                                (LatLonMatching cost (run_query (checked flag s0)))))))))
              never_set_level_triggered) as [R'|S].
  - now apply running_checked, CategoryMatching_running, running_checked,
      LatLonMatching_running, running_checked.
  - exact R'.
  - now apply not_stopping in S.
Qed.

Lemma TrieMatching_running s : running flag s -> running flag (TrieMatching cost flag s).
Proof.
  intros R.
  destruct (TrieMatching_cases s never_set_level_triggered R) as [R'|S]; [exact R'|].
  now apply not_stopping in S.
Qed.

Lemma Search_uncancelled s0 :
  Search cost flag s0 =
    if m_resultsRemaining (run_query (LocalFlush cost flag s0)) =? 0
    then emit EndMarker (LocalFlush cost flag s0)
    else emit EndMarker
           (FlushResults
              (checked flag (TrieMatching cost flag (checked flag (LocalFlush cost flag s0))))).
Proof.
  unfold Search, LocalFlush.
  repeat (rewrite GetTerminateFlag_eq, flag_never_set; cbv beta iota zeta).
  destruct (_ =? 0); [reflexivity|].
  repeat (rewrite GetTerminateFlag_eq, flag_never_set; cbv beta iota zeta).
  reflexivity.
Qed.

End Uncancelled.

(** *** What the phases send *)

Lemma emitted_checked s :
  emitted (run_log (checked flag s)) = emitted (run_log s).
Proof. unfold checked, GetTerminateFlag. cbn [snd run_log]. apply emitted_check. Qed.

Lemma emitted_FlushResults s :
  emitted (run_log s) `prefix_of` emitted (run_log (FlushResults s)).
Proof. rewrite FlushResults_log, emitted_app. apply prefix_app_r. reflexivity. Qed.

Lemma emitted_emit_prefix (res : Result) s :
  emitted (run_log s) `prefix_of` emitted (run_log (emit res s)).
Proof. unfold emit. cbn [run_log]. rewrite emitted_emit. apply prefix_app_r. reflexivity. Qed.

Lemma FeatureProcessor_emitted feature s :
  match FeatureProcessor cost flag feature s with
  | Done s' | Stop s' => emitted (run_log s') = emitted (run_log s)
  end.
Proof.
  unfold FeatureProcessor. rewrite GetTerminateFlag_eq.
  pose proof (emitted_checked s) as He.
  destruct (flag (run_clock s)); [exact He|].
  destruct (_ <=? _); [|exact He].
  destruct (_ <=? _); [|exact He].
  destruct (_ <? 0); exact He.
Qed.

Lemma ForEachInRect_emitted features s :
  match ForEachInRect cost flag features s with
  | Done s' | Stop s' => emitted (run_log s') = emitted (run_log s)
  end.
Proof.
  revert s. induction features as [|feature rest IH]; intros s; cbn [ForEachInRect];
    [reflexivity|].
  pose proof (FeatureProcessor_emitted feature s) as Hf.
  destruct (FeatureProcessor cost flag feature s) as [s'|s']; [|exact Hf].
  specialize (IH s'). destruct (ForEachInRect cost flag rest s'); congruence.
Qed.

Lemma MatchAgainstTrie_emitted entities s :
  emitted (run_log (MatchAgainstTrie cost flag entities s)) = emitted (run_log s).
Proof.
  revert s. induction entities as [|feature rest IH]; intros s; cbn [MatchAgainstTrie];
    [reflexivity|].
  pose proof (FeatureProcessor_emitted feature s) as Hf.
  destruct (FeatureProcessor cost flag feature s) as [s'|s']; [|exact Hf].
  rewrite IH. exact Hf.
Qed.

Lemma LocalFeatureMatching_emitted s :
  emitted (run_log (LocalFeatureMatching cost flag s)) = emitted (run_log s).
Proof.
  unfold LocalFeatureMatching. destruct (_ <? _); [|reflexivity].
  match goal with
  | |- context [ForEachInRect cost flag ?fs s] =>
      pose proof (ForEachInRect_emitted fs s) as Hf;
      destruct (ForEachInRect cost flag fs s); exact Hf
  end.
Qed.

Lemma TrieMatching_emitted s :
  emitted (run_log (TrieMatching cost flag s)) = emitted (run_log s).
Proof.
  unfold TrieMatching. destruct (m_pTrieRoot _); [|reflexivity].
  apply MatchAgainstTrie_emitted.
Qed.


End Runs.


Section Cancelled.

Context {E : External}.
Variable cost : IntermediateResult -> Z.
Variable flag : nat -> bool.

Implicit Types (s : Run).

(** *** A cancelled run against the run that is not cancelled *)

Lemma checked_never s :
  flag (run_clock s) = false -> checked flag s = checked never s.
Proof. intros Hf. unfold checked, GetTerminateFlag. cbn [snd]. now rewrite Hf. Qed.

Lemma FeatureProcessor_never feature s :
  flag (run_clock s) = false ->
  FeatureProcessor cost flag feature s = FeatureProcessor cost never feature s.
Proof.
  intros Hf. unfold FeatureProcessor. rewrite !GetTerminateFlag_eq, Hf.
  unfold never at 1. now rewrite (checked_never s Hf).
Qed.

Lemma ForEachInRect_never features s :
  level_triggered flag ->
  ForEachInRect cost flag features s = ForEachInRect cost never features s \/
  exists s', ForEachInRect cost flag features s = Stop s' /\ flag (run_clock s') = true.
Proof.
  intros Hlt. revert s. induction features as [|feature rest IH]; intros s;
    cbn [ForEachInRect]; [now left|].
  destruct (flag (run_clock s)) eqn:Hf.
  - right. rewrite FeatureProcessor_stop by exact Hf. eexists. split; [reflexivity|].
    apply (Hlt (run_clock s)); [simpl; lia | exact Hf].
  - rewrite FeatureProcessor_never by exact Hf.
    destruct (FeatureProcessor cost never feature s) as [s'|s']; [apply IH | now left].
Qed.

Lemma MatchAgainstTrie_never entities s :
  level_triggered flag ->
  MatchAgainstTrie cost flag entities s = MatchAgainstTrie cost never entities s \/
  flag (run_clock (MatchAgainstTrie cost flag entities s)) = true.
Proof.
  intros Hlt. revert s. induction entities as [|feature rest IH]; intros s;
    cbn [MatchAgainstTrie]; [now left|].
  destruct (flag (run_clock s)) eqn:Hf.
  - right. rewrite FeatureProcessor_stop by exact Hf.
    apply (Hlt (run_clock s)); [simpl; lia | exact Hf].
  - rewrite FeatureProcessor_never by exact Hf.
    destruct (FeatureProcessor cost never feature s) as [s'|s']; [apply IH | now left].
Qed.

Lemma LocalFeatureMatching_never s :
  level_triggered flag ->
  LocalFeatureMatching cost flag s = LocalFeatureMatching cost never s \/
  flag (run_clock (LocalFeatureMatching cost flag s)) = true.
Proof.
  intros Hlt. unfold LocalFeatureMatching. destruct (_ <? _); [|now left].
  match goal with
  | |- context [ForEachInRect cost flag ?fs s] =>
      destruct (ForEachInRect_never fs s Hlt) as [->|(s' & -> & Hs')]; [now left | now right]
  end.
Qed.

Lemma TrieMatching_never s :
  level_triggered flag ->
  TrieMatching cost flag s = TrieMatching cost never s \/
  flag (run_clock (TrieMatching cost flag s)) = true.
Proof.
  intros Hlt. unfold TrieMatching. destruct (m_pTrieRoot _); [|now left].
  now apply MatchAgainstTrie_never.
Qed.

(** What a cancelled run sends is the beginning of what the run sends when
    it is not cancelled. *)
Lemma Search_prefix_of_uncancelled s0 :
  level_triggered flag ->
  emitted (run_log (Search cost flag s0))
    `prefix_of` emitted (run_log (Search cost never s0)).
Proof.
  intros Hlt.
  rewrite (Search_uncancelled cost never (fun k => eq_refl) s0).
  set (final := if m_resultsRemaining (run_query (LocalFlush cost never s0)) =? 0
                then emit EndMarker (LocalFlush cost never s0)
                else emit EndMarker
                       (FlushResults
                          (checked never
                             (TrieMatching cost never
                                (checked never (LocalFlush cost never s0)))))).
  assert (Hflushed : emitted (run_log (LocalFlush cost never s0))
                       `prefix_of` emitted (run_log final)).
  { unfold final. destruct (_ =? 0); [apply emitted_emit_prefix|].
    etransitivity; [|apply emitted_emit_prefix].
    etransitivity; [|apply emitted_FlushResults].
    now rewrite emitted_checked, TrieMatching_emitted, emitted_checked. }
  assert (Hstart : emitted (run_log s0) `prefix_of` emitted (run_log final)).
  { etransitivity; [|exact Hflushed]. unfold LocalFlush. cbv zeta.
    etransitivity; [|apply emitted_FlushResults].
    rewrite emitted_checked, LocalFeatureMatching_emitted, emitted_checked.
    cbn [run_log set_query]. rewrite emitted_checked.
    cbn [run_log set_query]. now rewrite emitted_checked. }
  unfold Search.
  read_flag H; [now rewrite emitted_checked|].
  rewrite (checked_never s0 H). clear H.
  read_flag H; [now rewrite emitted_checked; cbn [run_log set_query]; rewrite emitted_checked|].
  rewrite (checked_never _ H). clear H.
  read_flag H.
  { rewrite emitted_checked. cbn [run_log set_query]. rewrite emitted_checked.
    cbn [run_log set_query]. now rewrite emitted_checked. }
  rewrite (checked_never _ H). clear H.
  match goal with
  | |- context [LocalFeatureMatching cost flag ?s] =>
      destruct (LocalFeatureMatching_never s Hlt) as [->|Hset]
  end.
  2: { rewrite GetTerminateFlag_eq, Hset. cbv beta iota.
       rewrite emitted_checked, LocalFeatureMatching_emitted, emitted_checked.
       cbn [run_log set_query]. rewrite emitted_checked.
       cbn [run_log set_query]. now rewrite emitted_checked. }
  read_flag H.
  { rewrite emitted_checked, LocalFeatureMatching_emitted, emitted_checked.
    cbn [run_log set_query]. rewrite emitted_checked.
    cbn [run_log set_query]. now rewrite emitted_checked. }
  rewrite (checked_never _ H). clear H.
  set (flushed := FlushResults (checked never (LocalFeatureMatching cost never _))).
  assert (Hsame : flushed = LocalFlush cost never s0) by reflexivity.
  clearbody flushed. subst flushed.
  unfold final. clear Hstart Hflushed final.
  destruct (_ =? 0); [reflexivity|].
  assert (Htail :
    emitted (run_log (LocalFlush cost never s0))
      `prefix_of`
      emitted (run_log (emit EndMarker
                          (FlushResults
                             (checked never
                                (TrieMatching cost never
                                   (checked never (LocalFlush cost never s0)))))))).
  { etransitivity; [|apply emitted_emit_prefix].
    etransitivity; [|apply emitted_FlushResults].
    now rewrite emitted_checked, TrieMatching_emitted, emitted_checked. }
  read_flag H; [now rewrite emitted_checked|].
  rewrite (checked_never _ H). clear H.
  match goal with
  | |- context [TrieMatching cost flag ?s] =>
      destruct (TrieMatching_never s Hlt) as [->|Hset]
  end.
  2: { rewrite GetTerminateFlag_eq, Hset. cbv beta iota.
       now rewrite emitted_checked, TrieMatching_emitted, emitted_checked. }
  read_flag H.
  { now rewrite emitted_checked, TrieMatching_emitted, emitted_checked. }
  rewrite (checked_never _ H). reflexivity.
Qed.

End Cancelled.

(** *** Where a cancelled search halts *)

Section Scans.

Context {E : External}.
Variable cost : IntermediateResult -> Z.

Implicit Types (s : Run) (q : Query) (features : list FeatureType).

Lemma FeatureProcessor_never_Done (feature : FeatureType) s :
  exists s', FeatureProcessor cost never feature s = Done s' /\
             run_clock s' = S (run_clock s).
Proof.
  destruct (FeatureProcessor_done cost never feature s eq_refl) as (q' & Hfp & _).
  eexists. split; [exact Hfp | reflexivity].
Qed.

Lemma ForEachInRect_never_Done features s :
  ForEachInRect cost never features s = Done (MatchAgainstTrie cost never features s).
Proof.
  revert s. induction features as [|feature rest IH]; intros s;
    cbn [ForEachInRect MatchAgainstTrie]; [reflexivity|].
  destruct (FeatureProcessor_never_Done feature s) as (s' & -> & _). apply IH.
Qed.

Lemma scan_clock features s :
  run_clock (MatchAgainstTrie cost never features s) = (run_clock s + length features)%nat.
Proof.
  revert s. induction features as [|feature rest IH]; intros s;
    cbn [MatchAgainstTrie length]; [lia|].
  destruct (FeatureProcessor_never_Done feature s) as (s' & -> & Hc).
  rewrite IH, Hc. lia.
Qed.

Lemma LocalFeatureMatching_features (fl : nat -> bool) s :
  LocalFeatureMatching cost fl s
    = match ForEachInRect cost fl (local_features (run_query s)) s with
      | Done s' | Stop s' => s'
      end.
Proof.
  unfold LocalFeatureMatching, local_features. cbv zeta.
  destruct (_ <? _); reflexivity.
Qed.

Lemma TrieMatching_entities (fl : nat -> bool) s :
  TrieMatching cost fl s = MatchAgainstTrie cost fl (trie_entities (run_query s)) s.
Proof. unfold TrieMatching, trie_entities. destruct (m_pTrieRoot _); reflexivity. Qed.

Lemma after_local_scan_scan q :
  after_local_scan cost q
    = MatchAgainstTrie cost never (local_features (run_query (before_local_scan cost q)))
                       (before_local_scan cost q).
Proof.
  unfold after_local_scan.
  now rewrite LocalFeatureMatching_features, ForEachInRect_never_Done.
Qed.

Lemma after_trie_scan q :
  after_trie cost q
    = MatchAgainstTrie cost never (trie_entities (run_query (before_trie cost q)))
                       (before_trie cost q).
Proof. unfold after_trie. apply TrieMatching_entities. Qed.

Lemma before_local_scan_clock q : run_clock (before_local_scan cost q) = 3%nat.
Proof. reflexivity. Qed.

Lemma after_local_scan_clock q :
  run_clock (after_local_scan cost q)
    = (3 + length (local_features (run_query (before_local_scan cost q))))%nat.
Proof. now rewrite after_local_scan_scan, scan_clock. Qed.

Lemma after_local_flush_clock q :
  run_clock (after_local_flush cost q)
    = (4 + length (local_features (run_query (before_local_scan cost q))))%nat.
Proof.
  unfold after_local_flush, FlushResults, checked, GetTerminateFlag.
  cbn [run_clock snd]. rewrite after_local_scan_clock. lia.
Qed.

Lemma before_trie_clock q :
  run_clock (before_trie cost q)
    = (5 + length (local_features (run_query (before_local_scan cost q))))%nat.
Proof.
  unfold before_trie, checked, GetTerminateFlag. cbn [run_clock snd].
  rewrite after_local_flush_clock. lia.
Qed.

Lemma after_trie_clock q :
  run_clock (after_trie cost q)
    = (5 + length (local_features (run_query (before_local_scan cost q)))
       + length (trie_entities (run_query (before_trie cost q))))%nat.
Proof. now rewrite after_trie_scan, scan_clock, before_trie_clock. Qed.

End Scans.

Section Checkpoints.

Context {E : External}.
Variable cost : IntermediateResult -> Z.
Variable flag : nat -> bool.

Implicit Types (s : Run) (q : Query) (features : list FeatureType).

(** A scan during which the flag is not found set is the scan of a search
    that is not cancelled. *)
Lemma scan_quiet features s :
  (forall j, (j < length features)%nat -> flag (run_clock s + j) = false) ->
  ForEachInRect cost flag features s = Done (MatchAgainstTrie cost never features s) /\
  MatchAgainstTrie cost flag features s = MatchAgainstTrie cost never features s.
Proof.
  revert s. induction features as [|feature rest IH]; intros s Hquiet;
    cbn [ForEachInRect MatchAgainstTrie]; [auto|].
  assert (H0 : flag (run_clock s) = false).
  { rewrite <- (Nat.add_0_r (run_clock s)). apply Hquiet. cbn [length]. lia. }
  rewrite (FeatureProcessor_never cost flag feature s H0).
  destruct (FeatureProcessor_never_Done cost feature s) as (s' & -> & Hc).
  apply IH. intros j Hj. rewrite Hc.
  replace (S (run_clock s) + j)%nat with (run_clock s + S j)%nat by lia.
  apply Hquiet. cbn [length]. lia.
Qed.

(** A scan in which the read before the candidate [i] is the first that
    finds the flag set stops there: the candidates before [i] were scored
    as in a search that is not cancelled, and nothing was done since. *)
Lemma scan_cut features s (i : nat) :
  (i < length features)%nat ->
  (forall j, (j < i)%nat -> flag (run_clock s + j) = false) ->
  flag (run_clock s + i) = true ->
  ForEachInRect cost flag features s
    = Stop (checked flag (MatchAgainstTrie cost never (take i features) s)) /\
  MatchAgainstTrie cost flag features s
    = checked flag (MatchAgainstTrie cost never (take i features) s).
Proof.
  revert s i. induction features as [|feature rest IH]; intros s i Hi Hquiet Hset;
    [cbn [length] in Hi; lia|].
  destruct i as [|i].
  - rewrite Nat.add_0_r in Hset. cbn [take ForEachInRect MatchAgainstTrie].
    rewrite (FeatureProcessor_stop cost flag feature s Hset). auto.
  - cbn [take ForEachInRect MatchAgainstTrie].
    assert (H0 : flag (run_clock s) = false).
    { rewrite <- (Nat.add_0_r (run_clock s)). apply Hquiet. lia. }
    rewrite (FeatureProcessor_never cost flag feature s H0).
    destruct (FeatureProcessor_never_Done cost feature s) as (s' & -> & Hc).
    apply IH.
    + cbn [length] in Hi. lia.
    + intros j Hj. rewrite Hc.
      replace (S (run_clock s) + j)%nat with (run_clock s + S j)%nat by lia.
      apply Hquiet. lia.
    + rewrite Hc. replace (S (run_clock s) + i)%nat with (run_clock s + S i)%nat by lia.
      exact Hset.
Qed.

(** [Search] as the cascade of its reads of the flag, each state before a
    read being that of a search that was not cancelled so far. *)
Lemma Search_cascade q :
  Search cost flag (start q) =
    if flag 0%nat then checked flag (start q) else
    if flag 1%nat then checked flag (after_latlon cost q) else
    if flag 2%nat then checked flag (after_categories cost q) else
    let s6 := LocalFeatureMatching cost flag (before_local_scan cost q) in
    if flag (run_clock s6) then checked flag s6 else
    let s8 := FlushResults (checked never s6) in
    if m_resultsRemaining (run_query s8) =? 0 then emit EndMarker s8 else
    if flag (run_clock s8) then checked flag s8 else
    let s10 := TrieMatching cost flag (checked never s8) in
    if flag (run_clock s10) then checked flag s10 else
    emit EndMarker (FlushResults (checked never s10)).
Proof.
  unfold Search.
  rewrite (GetTerminateFlag_eq flag (start q)).
  change (run_clock (start q)) with 0%nat.
  destruct (flag 0%nat) eqn:H0; [reflexivity|]. cbv beta iota zeta.
  rewrite (checked_never flag (start q) H0).
  change (set_query (checked never (start q))
            (LatLonMatching cost (run_query (checked never (start q)))))
    with (after_latlon cost q).
  rewrite (GetTerminateFlag_eq flag (after_latlon cost q)).
  change (run_clock (after_latlon cost q)) with 1%nat.
  destruct (flag 1%nat) eqn:H1; [reflexivity|]. cbv beta iota zeta.
  rewrite (checked_never flag (after_latlon cost q) H1).
  change (set_query (checked never (after_latlon cost q))
            (CategoryMatching cost (run_query (checked never (after_latlon cost q)))))
    with (after_categories cost q).
  rewrite (GetTerminateFlag_eq flag (after_categories cost q)).
  change (run_clock (after_categories cost q)) with 2%nat.
  destruct (flag 2%nat) eqn:H2; [reflexivity|]. cbv beta iota zeta.
  rewrite (checked_never flag (after_categories cost q) H2).
  change (checked never (after_categories cost q)) with (before_local_scan cost q).
  set (s6 := LocalFeatureMatching cost flag (before_local_scan cost q)).
  rewrite (GetTerminateFlag_eq flag s6).
  destruct (flag (run_clock s6)) eqn:H6; [reflexivity|]. cbv beta iota zeta.
  rewrite (checked_never flag s6 H6).
  set (s8 := FlushResults (checked never s6)).
  destruct (m_resultsRemaining (run_query s8) =? 0); [reflexivity|].
  rewrite (GetTerminateFlag_eq flag s8).
  destruct (flag (run_clock s8)) eqn:H8; [reflexivity|]. cbv beta iota zeta.
  rewrite (checked_never flag s8 H8).
  set (s10 := TrieMatching cost flag (checked never s8)).
  rewrite (GetTerminateFlag_eq flag s10).
  destruct (flag (run_clock s10)) eqn:H10; [reflexivity|]. cbv beta iota zeta.
  rewrite (checked_never flag s10 H10). reflexivity.
Qed.

End Checkpoints.

Section Halts.

Context {E : External}.
Variable cost : IntermediateResult -> Z.
Variable flag : nat -> bool.

Implicit Types (s : Run) (q : Query) (cp : Checkpoint).

Lemma start_clock q : run_clock (start q) = 0%nat.
Proof. reflexivity. Qed.

Lemma after_latlon_clock q : run_clock (after_latlon cost q) = 1%nat.
Proof. reflexivity. Qed.

Lemma after_categories_clock q : run_clock (after_categories cost q) = 2%nat.
Proof. reflexivity. Qed.

Lemma checked_halted cp s :
  in_scan cp = false -> flag (run_clock s) = true -> checked flag s = halted_at cp s.
Proof.
  intros Hcp Hset. unfold checked, GetTerminateFlag, halted_at. cbn [snd].
  now rewrite Hcp, Hset.
Qed.

Lemma checked_twice_halted cp s :
  in_scan cp = true -> flag (run_clock s) = true -> flag (S (run_clock s)) = true ->
  checked flag (checked flag s) = halted_at cp s.
Proof.
  intros Hcp Hset Hnext. unfold checked, GetTerminateFlag, halted_at.
  cbn [snd run_clock run_log run_query]. now rewrite Hcp, Hset, Hnext, <- app_assoc.
Qed.

Lemma local_scan_quiet q :
  (forall j, (j < run_clock (after_local_scan cost q))%nat -> flag j = false) ->
  LocalFeatureMatching cost flag (before_local_scan cost q) = after_local_scan cost q.
Proof.
  intros Hquiet. rewrite LocalFeatureMatching_features, after_local_scan_scan.
  destruct (scan_quiet cost flag
              (local_features (run_query (before_local_scan cost q)))
              (before_local_scan cost q)) as [-> _]; [|reflexivity].
  intros j Hj. apply Hquiet. rewrite after_local_scan_clock, before_local_scan_clock. lia.
Qed.

Lemma local_scan_cut q (i : nat) :
  (i < length (local_features (run_query (before_local_scan cost q))))%nat ->
  (forall j, (j < 3 + i)%nat -> flag j = false) ->
  flag (3 + i)%nat = true ->
  LocalFeatureMatching cost flag (before_local_scan cost q)
    = checked flag
        (MatchAgainstTrie cost never
           (take i (local_features (run_query (before_local_scan cost q))))
           (before_local_scan cost q)).
Proof.
  intros Hi Hquiet Hset. rewrite LocalFeatureMatching_features.
  destruct (scan_cut cost flag
              (local_features (run_query (before_local_scan cost q)))
              (before_local_scan cost q) i Hi) as [-> _]; [| |reflexivity].
  - intros j Hj. apply Hquiet. rewrite before_local_scan_clock. lia.
  - rewrite before_local_scan_clock. exact Hset.
Qed.

Lemma trie_quiet q :
  (forall j, (j < run_clock (after_trie cost q))%nat -> flag j = false) ->
  TrieMatching cost flag (before_trie cost q) = after_trie cost q.
Proof.
  intros Hquiet. rewrite TrieMatching_entities, after_trie_scan.
  apply scan_quiet. intros j Hj. apply Hquiet.
  rewrite after_trie_clock, before_trie_clock. lia.
Qed.

Lemma trie_cut q (i : nat) :
  (i < length (trie_entities (run_query (before_trie cost q))))%nat ->
  (forall j, (j < run_clock (before_trie cost q) + i)%nat -> flag j = false) ->
  flag (run_clock (before_trie cost q) + i)%nat = true ->
  TrieMatching cost flag (before_trie cost q)
    = checked flag
        (MatchAgainstTrie cost never
           (take i (trie_entities (run_query (before_trie cost q))))
           (before_trie cost q)).
Proof.
  intros Hi Hquiet Hset. rewrite TrieMatching_entities.
  apply scan_cut; [exact Hi | | exact Hset].
  intros j Hj. apply Hquiet. lia.
Qed.

(** The search that is not cancelled, from the first flush on. *)
Lemma Search_never q :
  Search cost never (start q) =
    if m_resultsRemaining (run_query (after_local_flush cost q)) =? 0
    then emit EndMarker (after_local_flush cost q)
    else emit EndMarker (FlushResults (checked never (after_trie cost q))).
Proof. rewrite (Search_cascade cost never q). reflexivity. Qed.

Lemma Search_never_clock q :
  run_clock (Search cost never (start q)) =
    if m_resultsRemaining (run_query (after_local_flush cost q)) =? 0
    then run_clock (after_local_flush cost q)
    else S (run_clock (after_trie cost q)).
Proof. rewrite Search_never. destruct (_ =? 0); reflexivity. Qed.

(** A search whose reads up to the first flush do not find the flag set. *)
Lemma Search_past_local_flush q :
  (forall j, (j < run_clock (after_local_flush cost q))%nat -> flag j = false) ->
  Search cost flag (start q) =
    if m_resultsRemaining (run_query (after_local_flush cost q)) =? 0
    then emit EndMarker (after_local_flush cost q)
    else if flag (run_clock (after_local_flush cost q))
         then checked flag (after_local_flush cost q)
         else
           let s10 := TrieMatching cost flag (before_trie cost q) in
           if flag (run_clock s10) then checked flag s10
           else emit EndMarker (FlushResults (checked never s10)).
Proof.
  intros Hquiet. rewrite Search_cascade.
  assert (Hc : run_clock (after_local_flush cost q)
               = S (run_clock (after_local_scan cost q))) by reflexivity.
  pose proof (after_local_scan_clock cost q) as Hn.
  rewrite (Hquiet 0%nat), (Hquiet 1%nat), (Hquiet 2%nat) by lia.
  cbv beta iota zeta.
  rewrite local_scan_quiet by (intros j Hj; apply Hquiet; lia).
  rewrite (Hquiet (run_clock (after_local_scan cost q))) by lia.
  reflexivity.
Qed.

(** A search whose reads up to the local scan do not find the flag set. *)
Lemma Search_past_categories q :
  (forall j, (j < 3)%nat -> flag j = false) ->
  Search cost flag (start q) =
    let s6 := LocalFeatureMatching cost flag (before_local_scan cost q) in
    if flag (run_clock s6) then checked flag s6 else
    let s8 := FlushResults (checked never s6) in
    if m_resultsRemaining (run_query s8) =? 0 then emit EndMarker s8 else
    if flag (run_clock s8) then checked flag s8 else
    let s10 := TrieMatching cost flag (checked never s8) in
    if flag (run_clock s10) then checked flag s10 else
    emit EndMarker (FlushResults (checked never s10)).
Proof.
  intros Hquiet. rewrite Search_cascade.
  rewrite (Hquiet 0%nat), (Hquiet 1%nat), (Hquiet 2%nat) by lia. reflexivity.
Qed.

End Halts.

Section Cancellation.

Context {E : External}.
Variable cost : IntermediateResult -> Z.
Variable flag : nat -> bool.

Implicit Types (s : Run) (q : Query) (cp : Checkpoint).

(** The search halts at the checkpoint whose read is the first to find the
    flag set. *)
Lemma Search_halts_at q cp s :
  level_triggered flag ->
  reach cost q cp = Some s ->
  (forall j, (j < run_clock s)%nat -> flag j = false) ->
  flag (run_clock s) = true ->
  Search cost flag (start q) = halted_at cp s.
Proof.
  intros Hlt Hreach Hquiet Hset.
  pose proof (after_local_scan_clock cost q) as Hn6.
  pose proof (after_local_flush_clock cost q) as Hn8.
  pose proof (before_trie_clock cost q) as Hn9.
  pose proof (after_trie_clock cost q) as Hn10.
  unfold reach in Hreach. cbv zeta in Hreach.
  destruct cp as [| | |i| | |i|].
  - apply (inj Some) in Hreach. subst s. rewrite Search_cascade.
    change (flag 0%nat) with (flag (run_clock (start q))). rewrite Hset.
    now apply checked_halted.
  - apply (inj Some) in Hreach. subst s. rewrite Search_cascade.
    rewrite (Hquiet 0%nat) by (rewrite after_latlon_clock; lia).
    change (flag 1%nat) with (flag (run_clock (after_latlon cost q))). rewrite Hset.
    now apply checked_halted.
  - apply (inj Some) in Hreach. subst s. rewrite Search_cascade.
    rewrite (Hquiet 0%nat), (Hquiet 1%nat) by (rewrite after_categories_clock; lia).
    change (flag 2%nat) with (flag (run_clock (after_categories cost q))). rewrite Hset.
    now apply checked_halted.
  - destruct (bool_decide_reflect
                (i < length (local_features (run_query (before_local_scan cost q))))%nat)
      as [Hi|]; [|discriminate].
    rewrite ForEachInRect_never_Done in Hreach. cbv beta iota in Hreach.
    apply (inj Some) in Hreach. subst s.
    assert (Hc : run_clock
                   (MatchAgainstTrie cost never
                      (take i (local_features (run_query (before_local_scan cost q))))
                      (before_local_scan cost q)) = (3 + i)%nat).
    { rewrite scan_clock, length_take, before_local_scan_clock. lia. }
    rewrite Hc in Hquiet, Hset.
    rewrite Search_past_categories by (intros j Hj; apply Hquiet; lia). cbv zeta.
    rewrite (local_scan_cut cost flag q i Hi Hquiet Hset).
    set (si := MatchAgainstTrie cost never _ _) in *.
    assert (Hnext : flag (S (run_clock si)) = true).
    { apply (Hlt (run_clock si)); [lia | now rewrite Hc]. }
    change (run_clock (checked flag si)) with (S (run_clock si)). rewrite Hnext.
    apply checked_twice_halted; [reflexivity | now rewrite Hc | exact Hnext].
  - apply (inj Some) in Hreach. subst s.
    rewrite Search_past_categories by (intros j Hj; apply Hquiet; lia). cbv zeta.
    rewrite local_scan_quiet by exact Hquiet. rewrite Hset.
    now apply checked_halted.
  - destruct (m_resultsRemaining (run_query (after_local_flush cost q)) =? 0) eqn:Hb;
      cbn [negb] in Hreach; [discriminate|].
    apply (inj Some) in Hreach. subst s.
    rewrite Search_past_local_flush by exact Hquiet. rewrite Hb, Hset.
    now apply checked_halted.
  - destruct (m_resultsRemaining (run_query (after_local_flush cost q)) =? 0) eqn:Hb;
      cbn [negb andb] in Hreach; [discriminate|].
    destruct (bool_decide_reflect
                (i < length (trie_entities (run_query (before_trie cost q))))%nat)
      as [Hi|]; [|discriminate].
    apply (inj Some) in Hreach. subst s.
    assert (Hc : run_clock
                   (MatchAgainstTrie cost never
                      (take i (trie_entities (run_query (before_trie cost q))))
                      (before_trie cost q)) = (run_clock (before_trie cost q) + i)%nat).
    { rewrite scan_clock, length_take. lia. }
    rewrite Hc in Hquiet, Hset.
    rewrite Search_past_local_flush by (intros j Hj; apply Hquiet; lia). rewrite Hb.
    rewrite (Hquiet (run_clock (after_local_flush cost q))) by lia. cbv zeta.
    rewrite (trie_cut cost flag q i Hi Hquiet Hset).
    set (si := MatchAgainstTrie cost never _ _) in *.
    assert (Hnext : flag (S (run_clock si)) = true).
    { apply (Hlt (run_clock si)); [lia | now rewrite Hc]. }
    change (run_clock (checked flag si)) with (S (run_clock si)). rewrite Hnext.
    apply checked_twice_halted; [reflexivity | now rewrite Hc | exact Hnext].
  - destruct (m_resultsRemaining (run_query (after_local_flush cost q)) =? 0) eqn:Hb;
      cbn [negb] in Hreach; [discriminate|].
    apply (inj Some) in Hreach. subst s.
    rewrite Search_past_local_flush by (intros j Hj; apply Hquiet; lia). rewrite Hb.
    rewrite (Hquiet (run_clock (after_local_flush cost q))) by lia. cbv zeta.
    rewrite trie_quiet by exact Hquiet. rewrite Hset.
    now apply checked_halted.
Qed.

(** The first read that can find the flag set is the read of a checkpoint,
    unless the search has made all its reads before. *)
Lemma Search_checkpoint_or_done q (k : nat) :
  flag k = true ->
  (forall j, (j < k)%nat -> flag j = false) ->
  (exists cp s, reach cost q cp = Some s /\ run_clock s = k) \/
  ((run_clock (Search cost never (start q)) <= k)%nat /\
   Search cost flag (start q) = Search cost never (start q)).
Proof.
  intros Hset Hquiet.
  pose proof (after_local_scan_clock cost q) as Hn6.
  pose proof (after_local_flush_clock cost q) as Hn8.
  pose proof (before_trie_clock cost q) as Hn9.
  pose proof (after_trie_clock cost q) as Hn10.
  destruct (decide (k = 0%nat)) as [->|H0].
  { left. now exists AtEntry, (start q). }
  destruct (decide (k = 1%nat)) as [->|H1].
  { left. now exists AfterLatLon, (after_latlon cost q). }
  destruct (decide (k = 2%nat)) as [->|H2].
  { left. now exists AfterCategories, (after_categories cost q). }
  destruct (decide (k < run_clock (after_local_scan cost q))%nat) as [Hlocal|Hlocal].
  { left. exists (InLocalScan (k - 3)). eexists. split.
    - unfold reach. cbv zeta. rewrite bool_decide_eq_true_2 by lia.
      rewrite ForEachInRect_never_Done. reflexivity.
    - rewrite scan_clock, length_take, before_local_scan_clock. lia. }
  destruct (decide (k = run_clock (after_local_scan cost q))) as [->|H6].
  { left. now exists AfterLocalScan, (after_local_scan cost q). }
  assert (Hpast : forall j, (j < run_clock (after_local_flush cost q))%nat ->
                            flag j = false)
    by (intros j Hj; apply Hquiet; lia).
  destruct (m_resultsRemaining (run_query (after_local_flush cost q)) =? 0) eqn:Hb.
  { right. split.
    - rewrite Search_never_clock, Hb. lia.
    - rewrite (Search_past_local_flush cost flag q Hpast), Search_never, Hb.
      reflexivity. }
  destruct (decide (k = run_clock (after_local_flush cost q))) as [->|H8].
  { left. exists AfterLocalFlush, (after_local_flush cost q). split; [|reflexivity].
    unfold reach. cbv zeta. now rewrite Hb. }
  destruct (decide (k < run_clock (after_trie cost q))%nat) as [Htrie|Htrie].
  { left. exists (InTrie (k - run_clock (before_trie cost q))). eexists. split.
    - unfold reach. cbv zeta. rewrite Hb. cbn [negb andb].
      rewrite bool_decide_eq_true_2 by lia. reflexivity.
    - rewrite scan_clock, length_take. lia. }
  destruct (decide (k = run_clock (after_trie cost q))) as [->|H10].
  { left. exists AfterTrie, (after_trie cost q). split; [|reflexivity].
    unfold reach. cbv zeta. now rewrite Hb. }
  right. split.
  - rewrite Search_never_clock, Hb. lia.
  - rewrite (Search_past_local_flush cost flag q Hpast), Search_never, Hb.
    rewrite (Hquiet (run_clock (after_local_flush cost q))) by lia. cbv zeta.
    rewrite trie_quiet by (intros j Hj; apply Hquiet; lia).
    rewrite (Hquiet (run_clock (after_trie cost q))) by lia.
    reflexivity.
Qed.

End Cancellation.

(** ** The claims about the search as a whole *)

(** C3.  In a run of [Search] in which no read of the termination flag finds
    it set, on a query whose queue holds nothing that would be taken for
    the end marker (a query just constructed, for one), the results sent to the callback end with the end marker, and
    the end marker is sent once only, whatever was found.  If the budget is
    0 after the flush that follows the local features, the run is that
    flush followed by the end marker: the trie is not entered; otherwise
    the run goes on with the trie, the final flush and the end marker. *)
Theorem search_ends_with_one_marker {E : External} (cost : IntermediateResult -> Z)
    (flag : nat -> bool) (q : Query) :
  (forall k, flag k = false) ->
  Forall proper (m_results q) ->
  let final := Search cost flag (start q) in
  let flushed := LocalFlush cost flag (start q) in
  (exists results,
      emitted (run_log final) = results ++ [EndMarker] /\ EndMarker ∉ results) /\
  (m_resultsRemaining (run_query flushed) = 0 ->
   final = emit EndMarker flushed /\
   run_log final = run_log flushed ++ [EvEmit EndMarker] /\
   run_clock final = run_clock flushed) /\
  (m_resultsRemaining (run_query flushed) <> 0 ->
   final = emit EndMarker
             (FlushResults (checked flag (TrieMatching cost flag (checked flag flushed))))).
Proof.
  intros Hnever Hq final flushed.
  assert (R0 : running flag (start q)) by now apply running_start.
  assert (Rf : running flag flushed) by now apply LocalFlush_running.
  pose proof (Search_uncancelled cost flag Hnever (start q)) as Heq.
  fold final flushed in Heq.
  split; [|split].
  - destruct (Z.eqb_spec (m_resultsRemaining (run_query flushed)) 0) as [H0|H0].
    + exists (emitted (run_log flushed)). rewrite Heq. split; [|apply Rf].
      apply emitted_emit.
    + set (last := FlushResults
                     (checked flag (TrieMatching cost flag (checked flag flushed)))) in *.
      assert (Rl : running flag last).
      { apply FlushResults_running, running_checked; [exact Hnever|].
        apply TrieMatching_running; [exact Hnever|].
        now apply running_checked. }
      exists (emitted (run_log last)). rewrite Heq. split; [|apply Rl].
      apply emitted_emit.
  - intros H0. rewrite H0 in Heq. simpl in Heq. rewrite Heq. repeat split.
  - intros H0. apply Z.eqb_neq in H0. now rewrite H0 in Heq.
Qed.

Lemma search_ends_with_one_marker_witness :
  exists results,
    emitted (run_log (Search penalty_cost never (start (cafe_query "caf"))))
      = results ++ [EndMarker] /\ EndMarker ∉ results.
Proof.
  refine (proj1 (search_ends_with_one_marker penalty_cost never (cafe_query "caf") _ _)).
  - intros k. reflexivity.
  - constructor.
Defined.

(** C4.  Cancellation is cooperative and level-triggered.  With a flag that
    stays set once set, on a query whose queue holds nothing that would be
    taken for the end marker: whenever a read of the flag finds it set, nothing is
    sent to the callback after that read, and what was sent before it is
    all the caller receives, and is the beginning of what the run sends when
    it is not cancelled; a run in which a read found the flag set sends no
    end marker; a run makes at most two reads from the first one that
    can find the flag set (the one that finds it, and the one that follows
    the catch of the scan).  The functor of the local scan reads the flag before it
    scores a candidate, and on a set flag it leaves the scan with the query
    as it was.  The search halts at the checkpoint whose read is the first
    to find the flag set: its query and what it has sent are then those of
    the search that is not cancelled at the moment it comes to that
    checkpoint, between two phases or before the candidate that the scan
    was about to score, and the only thing it has done since is that read,
    followed inside a scan by the read that follows the scan.  The first
    read that can find the flag set is the read of such a checkpoint, unless
    the search had made all its reads before, and is then the search that
    is not cancelled. *)
Theorem cancellation_is_cooperative {E : External} (cost : IntermediateResult -> Z)
    (flag : nat -> bool) (q : Query) :
  level_triggered flag ->
  Forall proper (m_results q) ->
  let log := run_log (Search cost flag (start q)) in
  (forall pre post,
      log = pre ++ EvCheck true :: post ->
      (forall res, EvEmit res ∉ post) /\ emitted log = emitted pre) /\
  (EvCheck true ∈ log -> EndMarker ∉ emitted log) /\
  emitted log `prefix_of` emitted (run_log (Search cost never (start q))) /\
  (flag 0%nat = true -> emitted log = []) /\
  (forall k, flag k = true -> (run_clock (Search cost flag (start q)) <= k + 2)%nat) /\
  (forall feature rest s,
      flag (run_clock s) = true ->
      FeatureProcessor cost flag feature s = Stop (checked flag s) /\
      ForEachInRect cost flag (feature :: rest) s = Stop (checked flag s) /\
      run_query (checked flag s) = run_query s) /\
  (forall cp s,
      reach cost q cp = Some s ->
      (forall j, (j < run_clock s)%nat -> flag j = false) ->
      flag (run_clock s) = true ->
      Search cost flag (start q) = halted_at cp s) /\
  (forall k,
      flag k = true ->
      (forall j, (j < k)%nat -> flag j = false) ->
      (exists cp s, reach cost q cp = Some s /\ run_clock s = k) \/
      ((run_clock (Search cost never (start q)) <= k)%nat /\
       Search cost flag (start q) = Search cost never (start q))).
Proof.
  intros Hlt Hq log.
  assert (R0 : running flag (start q)) by now apply running_start.
  destruct (Search_stopped cost flag (start q) Hlt R0) as [Hstop Hreads].
  fold log in Hstop.
  split; [|split; [|split; [|split; [|split; [|split; [|split]]]]]].
  - intros pre post Hlog. now apply (stopped_log_quiet log pre post).
  - now apply stopped_log_no_marker.
  - now apply Search_prefix_of_uncancelled.
  - intros H0. subst log. unfold Search.
    rewrite GetTerminateFlag_eq. simpl run_clock. rewrite H0. reflexivity.
  - exact Hreads.
  - intros feature rest s Hf.
    pose proof (FeatureProcessor_stop cost flag feature s Hf) as Hfp.
    split; [exact Hfp|]. split; [|reflexivity].
    simpl. now rewrite Hfp.
  - intros cp s. now apply Search_halts_at.
  - intros k. apply Search_checkpoint_or_done.
Qed.

Lemma cancellation_is_cooperative_witness :
  let log := run_log (Search penalty_cost (set_from 6) (start (cafe_query "caf"))) in
  ((EvCheck true ∈ log -> EndMarker ∉ emitted log) /\
   (forall pre post,
       log = pre ++ EvCheck true :: post ->
       (forall res, EvEmit res ∉ post) /\ emitted log = emitted pre)) /\
  Search penalty_cost (set_from 1) (start (cafe_query "ca"))
    = {| run_query := cafe_query "ca";
         run_clock := 2;
         run_log := [EvCheck false; EvCheck true] |}.
Proof.
  split.
  - assert (Hlt : level_triggered (set_from 6)).
    { intros i j Hij. unfold set_from. rewrite !Nat.leb_le. lia. }
    destruct (cancellation_is_cooperative penalty_cost (set_from 6) (cafe_query "caf") Hlt)
      as (H1 & H2 & _).
    + constructor.
    + split; [exact H2 | exact H1].
  - assert (Hlt : level_triggered (set_from 1)).
    { intros i j Hij. unfold set_from. rewrite !Nat.leb_le. lia. }
    destruct (cancellation_is_cooperative penalty_cost (set_from 1) (cafe_query "ca") Hlt)
      as (_ & _ & _ & _ & _ & _ & Hhalt & _).
    + constructor.
    + apply (Hhalt AfterLatLon (after_latlon penalty_cost (cafe_query "ca"))).
      * reflexivity.
      * intros j Hj. destruct j as [|j]; [reflexivity|].
        change (run_clock (after_latlon penalty_cost (cafe_query "ca"))) with 1%nat in Hj.
        lia.
      * reflexivity.
Defined.

(** ** The skip masks *)

Section SkipMasks.

Context {E : External}.
Variable cost : IntermediateResult -> Z.

Implicit Types (q : Query) (c : Category) (name : Name) (st : Query * Best).

(** *** Bits *)

Lemma bit_of_int_pow2 (i : nat) :
  (i < 32)%nat -> u32 (i32 (Z.shiftl 1 (Z.of_nat i))) = 2 ^ Z.of_nat i.
Proof.
  intros Hi.
  assert (Hall : forallb (fun k => u32 (i32 (Z.shiftl 1 (Z.of_nat k))) =? 2 ^ Z.of_nat k)
                         (seq 0 32) = true) by (vm_compute; reflexivity).
  rewrite forallb_forall in Hall. apply Z.eqb_eq, Hall, in_seq. lia.
Qed.

Lemma head_mask_ones (n : nat) :
  (n <= 31)%nat -> u32 (head_mask n) = Z.ones (Z.of_nat n).
Proof.
  intros Hn.
  assert (Hall : forallb (fun k => u32 (head_mask k) =? Z.ones (Z.of_nat k))
                         (seq 0 32) = true) by (vm_compute; reflexivity).
  rewrite forallb_forall in Hall. apply Z.eqb_eq, Hall, in_seq. lia.
Qed.

Lemma tail_mask_ones (n size : nat) :
  (n <= size <= 31)%nat ->
  u32 (tail_mask n size) = Z.shiftl (Z.ones (Z.of_nat n)) (Z.of_nat (size - n)).
Proof.
  intros Hn.
  assert (Hall : forallb
                   (fun sz => forallb
                      (fun k => u32 (tail_mask k sz)
                                =? Z.shiftl (Z.ones (Z.of_nat k)) (Z.of_nat (sz - k)))
                      (seq 0 (S sz)))
                   (seq 0 32) = true) by (vm_compute; reflexivity).
  rewrite forallb_forall in Hall.
  assert (Hsz : In size (seq 0 32)) by (apply in_seq; lia).
  specialize (Hall size Hsz). rewrite forallb_forall in Hall.
  apply Z.eqb_eq, Hall, in_seq. lia.
Qed.

Lemma head_mask_bit (n i : nat) :
  (n <= 31)%nat ->
  Z.testbit (u32 (head_mask n)) (Z.of_nat i) = true <-> (i < n)%nat.
Proof.
  intros Hn. rewrite head_mask_ones by exact Hn.
  rewrite Z.testbit_ones_nonneg by lia. rewrite Z.ltb_lt. lia.
Qed.

Lemma tail_mask_bit (n size i : nat) :
  (n <= size <= 31)%nat ->
  Z.testbit (u32 (tail_mask n size)) (Z.of_nat i) = true <-> (size - n <= i < size)%nat.
Proof.
  intros Hn. rewrite tail_mask_ones by exact Hn.
  rewrite Z.shiftl_spec by lia.
  destruct (decide (size - n <= i)%nat) as [Hle|Hlt].
  - rewrite Z.testbit_ones_nonneg by lia. rewrite Z.ltb_lt. lia.
  - rewrite Z.testbit_neg_r by lia. split; [discriminate | lia].
Qed.

Lemma land_pow2_zero (mask : Z) (i : nat) :
  (Z.land mask (2 ^ Z.of_nat i) =? 0) = negb (Z.testbit mask (Z.of_nat i)).
Proof.
  destruct (Z.testbit mask (Z.of_nat i)) eqn:Hbit; simpl.
  - apply Z.eqb_neq. intros H0.
    assert (Hb : Z.testbit (Z.land mask (2 ^ Z.of_nat i)) (Z.of_nat i) = true).
    { rewrite Z.land_spec, Hbit, Z.pow2_bits_true by lia. reflexivity. }
    rewrite H0, Z.bits_0 in Hb. discriminate.
  - apply Z.eqb_eq. apply Z.bits_inj'. intros j Hj.
    rewrite Z.land_spec, Z.bits_0, Z.pow2_bits_eqb by lia.
    destruct (Z.eqb_spec (Z.of_nat i) j) as [<-|_].
    + now rewrite Hbit.
    + apply andb_false_r.
Qed.

(** *** [select_keywords] *)

Lemma select_keywords_from (i : nat) (mask : Z) (kws : list UniString) :
  (i + length kws <= 32)%nat ->
  select_keywords i mask kws
    = (filter (fun ik => Z.testbit mask (Z.of_nat ik.1) = false)
              (zip (seq i (length kws)) kws)).*2.
Proof.
  revert i. induction kws as [|kw kws IH]; intros i Hlen; [reflexivity|].
  cbn [select_keywords length seq zip zip_with]. simpl in Hlen.
  destruct (Nat.leb_spec 32 i); [lia|].
  rewrite bit_of_int_pow2, land_pow2_zero by lia.
  rewrite filter_cons. cbn [fst].
  destruct (Z.testbit mask (Z.of_nat i)); cbn [negb].
  - rewrite decide_False by discriminate. apply IH. lia.
  - rewrite decide_True by reflexivity. rewrite fmap_cons. cbn [snd].
    f_equal. apply IH. lia.
Qed.

Lemma select_keywords_unmasked (mask : Z) (kws : list UniString) :
  (length kws <= 31)%nat -> select_keywords 0 mask kws = unmasked mask kws.
Proof. intros Hlen. apply select_keywords_from. lia. Qed.

(** *** The mask of a feature *)

Lemma FeatureSkipMask_from q (types : list Z) (mask0 : Z) (i : Z) :
  Z.testbit (foldl (fun mask type => Z.lor mask (GetKeywordsToSkipForType q type))
                   mask0 types) i = true <->
  Z.testbit mask0 i = true \/
  exists type, type ∈ types /\ Z.testbit (GetKeywordsToSkipForType q type) i = true.
Proof.
  revert mask0. induction types as [|t types IH]; intros mask0; simpl.
  - split; [auto|]. intros [H|(type & Hin & _)]; [exact H|]. now apply elem_of_nil in Hin.
  - rewrite IH, Z.lor_spec, orb_true_iff. split.
    + intros [[H|H]|(type & Hin & H)]; [now left| |].
      * right. exists t. split; [left | exact H].
      * right. exists type. split; [now right | exact H].
    + intros [H|(type & Hin & H)]; [now left; left|].
      apply elem_of_cons in Hin as [->|Hin]; [left; now right|].
      right. exists type. auto.
Qed.

Lemma FeatureSkipMask_bit q (feature : FeatureType) (i : Z) :
  Z.testbit (FeatureSkipMask q feature) i = true <->
  exists type, type ∈ ft_types feature /\
               Z.testbit (GetKeywordsToSkipForType q type) i = true.
Proof.
  unfold FeatureSkipMask. rewrite FeatureSkipMask_from, Z.bits_0.
  split; [intros [H|H]; [discriminate | exact H] | now right].
Qed.

(** *** The masks written by the category matching *)

Lemma GetKeywordsToSkipForType_default q type :
  GetKeywordsToSkipForType q type = default 0 (m_keywordsToSkipForType q !! type).
Proof. unfold GetKeywordsToSkipForType. now destruct (_ !! _). Qed.

Lemma skip_fold_lookup (types : list Z) (mask : Z) (m : gmap Z Z) (type : Z) :
  default 0 (foldl (fun m t => <[t := Z.lor (default 0 (m !! t)) mask]> m) m types !! type)
    = if decide (type ∈ types)
      then Z.lor (default 0 (m !! type)) mask
      else default 0 (m !! type).
Proof.
  revert m. induction types as [|t types IH]; intros m; cbn [foldl].
  - destruct (decide (type ∈ [])) as [Hin|_]; [now apply elem_of_nil in Hin | reflexivity].
  - rewrite IH. destruct (decide (type = t)) as [->|Hne].
    + rewrite lookup_insert_eq. cbn [default from_option id].
      destruct (decide (t ∈ t :: types)) as [_|Hnin]; [|exfalso; apply Hnin; left].
      destruct (decide (t ∈ types)); [|reflexivity].
      rewrite <- Z.lor_assoc, Z.lor_diag. reflexivity.
    + rewrite lookup_insert_ne by congruence.
      destruct (decide (type ∈ types)) as [Hin|Hnin];
        destruct (decide (type ∈ t :: types)) as [Hin'|Hnin']; try reflexivity.
      * exfalso. apply Hnin'. now right.
      * exfalso. apply elem_of_cons in Hin' as [?|?]; contradiction.
Qed.

Lemma SkipForTypes_bit (types : list Z) (mask : Z) q (type : Z) (i : Z) :
  Z.testbit (GetKeywordsToSkipForType (SkipForTypes types mask q) type) i = true <->
  Z.testbit (GetKeywordsToSkipForType q type) i = true \/
  (type ∈ types /\ Z.testbit (u32 mask) i = true).
Proof.
  rewrite !GetKeywordsToSkipForType_default. unfold SkipForTypes.
  cbn [m_keywordsToSkipForType set_keywordsToSkipForType].
  rewrite skip_fold_lookup.
  destruct (decide (type ∈ types)) as [Hin|Hnin].
  - rewrite Z.lor_spec, orb_true_iff. tauto.
  - tauto.
Qed.

Lemma SynonymStep_keywords c st name :
  m_keywords (SynonymStep c st name).1 = m_keywords st.1.
Proof.
  unfold SynonymStep.
  destruct (negb (bool_decide (m_keywords st.1 = []))).
  - destruct (_ <=? _)%nat; [|reflexivity]. cbn [fst].
    destruct (bool_decide _); destruct (bool_decide _); reflexivity.
  - destruct (negb _); [|reflexivity].
    destruct (_ <=? _); [|reflexivity].
    destruct (_ <? _); reflexivity.
Qed.

Lemma SynonymStep_best c st name :
  m_keywords st.1 <> [] -> (SynonymStep c st name).2 = st.2.
Proof.
  intros Hkw. unfold SynonymStep.
  rewrite bool_decide_eq_false_2 by exact Hkw. cbn [negb].
  destruct (_ <=? _)%nat; reflexivity.
Qed.

Lemma SynonymStep_bit c st name (type : Z) (i : nat) :
  m_keywords st.1 <> [] -> (length (m_keywords st.1) <= 31)%nat ->
  Z.testbit (GetKeywordsToSkipForType (SynonymStep c st name).1 type) (Z.of_nat i) = true <->
  Z.testbit (GetKeywordsToSkipForType st.1 type) (Z.of_nat i) = true \/
  (type ∈ m_types c /\ consumes (m_keywords st.1) (synonym_tokens name) i).
Proof.
  intros Hkw Hlen. unfold SynonymStep, consumes.
  rewrite bool_decide_eq_false_2 by exact Hkw. cbn [negb].
  fold (synonym_tokens name).
  set (tokens := synonym_tokens name). set (kws := m_keywords st.1) in *.
  destruct (Nat.leb_spec (length tokens) (length kws)) as [Hn|Hn]; [|intuition lia].
  cbn [fst].
  destruct (bool_decide_reflect (tokens = take (length tokens) kws)) as [Hhead|Hhead];
    destruct (bool_decide_reflect (tokens = drop (length kws - length tokens) kws))
      as [Htail|Htail];
    rewrite ?SkipForTypes_bit, ?head_mask_bit, ?tail_mask_bit by lia;
    intuition lia.
Qed.

Lemma Synonyms_keywords c st names :
  m_keywords (foldl (SynonymStep c) st names).1 = m_keywords st.1.
Proof.
  revert st. induction names as [|name names IH]; intros st; simpl; [reflexivity|].
  now rewrite IH, SynonymStep_keywords.
Qed.

Lemma Synonyms_best c st names :
  m_keywords st.1 <> [] -> (foldl (SynonymStep c) st names).2 = st.2.
Proof.
  revert st. induction names as [|name names IH]; intros st Hkw; simpl; [reflexivity|].
  rewrite IH by now rewrite SynonymStep_keywords.
  now apply SynonymStep_best.
Qed.

Lemma Synonyms_bit c st names (type : Z) (i : nat) :
  m_keywords st.1 <> [] -> (length (m_keywords st.1) <= 31)%nat ->
  Z.testbit (GetKeywordsToSkipForType (foldl (SynonymStep c) st names).1 type)
            (Z.of_nat i) = true <->
  Z.testbit (GetKeywordsToSkipForType st.1 type) (Z.of_nat i) = true \/
  (type ∈ m_types c /\
   exists name, name ∈ names /\ consumes (m_keywords st.1) (synonym_tokens name) i).
Proof.
  revert st. induction names as [|name names IH]; intros st Hkw Hlen; simpl.
  - split; [auto|]. intros [H|(_ & name & Hin & _)]; [exact H|].
    now apply elem_of_nil in Hin.
  - rewrite IH by now rewrite SynonymStep_keywords.
    rewrite SynonymStep_bit, SynonymStep_keywords by assumption. split.
    + intros [[H|(Ht & Hc)]|(Ht & name' & Hin & Hc)]; [now left| |].
      * right. split; [exact Ht|]. exists name. split; [left | exact Hc].
      * right. split; [exact Ht|]. exists name'. split; [now right | exact Hc].
    + intros [H|(Ht & name' & Hin & Hc)]; [now left; left|].
      apply elem_of_cons in Hin as [->|Hin]; [left; right; auto|].
      right. split; [exact Ht|]. exists name'. auto.
Qed.

Lemma CategoryStep_keyword_mode q c :
  m_keywords q <> [] ->
  CategoryStep cost q c = (foldl (SynonymStep c) (q, Best_init q) (m_synonyms c)).1.
Proof.
  intros Hkw. unfold CategoryStep. rewrite Synonyms_best by exact Hkw. reflexivity.
Qed.

Lemma Categories_keyword_mode q (categories : list Category) :
  m_keywords q <> [] -> (length (m_keywords q) <= 31)%nat ->
  let q' := foldl (CategoryStep cost) q categories in
  m_keywords q' = m_keywords q /\
  m_results q' = m_results q /\
  forall (type : Z) (i : nat),
    Z.testbit (GetKeywordsToSkipForType q' type) (Z.of_nat i) = true <->
    Z.testbit (GetKeywordsToSkipForType q type) (Z.of_nat i) = true \/
    skipped_by categories (m_keywords q) type i.
Proof.
  revert q. induction categories as [|c categories IH]; intros q Hkw Hlen; simpl.
  - split; [reflexivity|]. split; [reflexivity|]. intros type i. split; [auto|].
    intros [H|(c & name & Hin & _)]; [exact H|]. now apply elem_of_nil in Hin.
  - rewrite CategoryStep_keyword_mode by exact Hkw.
    set (q1 := (foldl (SynonymStep c) (q, Best_init q) (m_synonyms c)).1).
    assert (Hkw1 : m_keywords q1 = m_keywords q) by apply Synonyms_keywords.
    assert (Hres1 : m_results q1 = m_results q) by apply Synonyms_results.
    destruct (IH q1) as (Hk & Hr & Hbits); [now rewrite Hkw1 | now rewrite Hkw1 |].
    split; [now rewrite Hk|]. split; [now rewrite Hr|].
    intros type i. rewrite Hbits. unfold q1.
    rewrite (Synonyms_bit c (q, Best_init q)) by assumption.
    fold q1. rewrite Hkw1. cbn [fst]. unfold skipped_by. split.
    + intros [[H|(Ht & name & Hin & Hc)]|(c' & name & Hin & Ht & Hn & Hc)]; [now left| |].
      * right. exists c, name. split; [left|]. auto.
      * right. exists c', name. split; [now right|]. auto.
    + intros [H|(c' & name & Hin & Ht & Hn & Hc)]; [now left; left|].
      apply elem_of_cons in Hin as [->|Hin].
      * left. right. split; [exact Ht|]. exists name. auto.
      * right. exists c', name. auto.
Qed.

End SkipMasks.

(** *** The keywords the matcher holds and the costs it keeps *)

Section MatcherKeywords.

Context {E : External}.

Implicit Types (m : KeywordMatcher) (q : Query) (feature : FeatureType).

Lemma zip_with_fmap_same {A B : Type} (f : A -> B -> B) (g : A -> B) (l : list A) :
  zip_with f l (g <$> l) = (fun a => f a (g a)) <$> l.
Proof. induction l as [|a l IH]; [reflexivity|]. cbn. now rewrite IH. Qed.

Lemma matcher_after_MakeMatcher (keywords : list UniString) (prefix : UniString) :
  matcher_after keywords prefix [] (MakeMatcher keywords prefix).
Proof.
  unfold matcher_after, MakeMatcher, KeywordMatcher_ctor.
  cbn [km_keywords km_prefix km_maxKeywordMatchCost km_maxPrefixMatchCost
       km_keywordMatchFn km_prefixMatchFn km_minKeywordMatchCost km_minPrefixMatchCost].
  repeat (split; [reflexivity|]). split; [|reflexivity].
  unfold lowest_keyword_cost. cbn [foldl].
  induction keywords as [|kw keywords IH]; [reflexivity|].
  cbn [length replicate fmap list_fmap]. now rewrite IH.
Qed.

Lemma matcher_after_ProcessNameToken (keywords : list UniString) (prefix : UniString)
    (seen : list UniString) m (name : string) (token : UniString) :
  matcher_after keywords prefix seen m ->
  matcher_after keywords prefix (seen ++ [token]) (ProcessNameToken m name token).
Proof.
  intros (Hk & Hp & Hmk & Hmp & Hfk & Hfp & Hck & Hcp).
  unfold matcher_after, ProcessNameToken.
  cbn [km_keywords km_prefix km_maxKeywordMatchCost km_maxPrefixMatchCost
       km_keywordMatchFn km_prefixMatchFn km_minKeywordMatchCost km_minPrefixMatchCost].
  repeat (split; [assumption|]). split.
  - rewrite Hk, Hck, Hfk, Hmk, zip_with_fmap_same.
    apply list_fmap_ext. intros _ kw _. unfold lowest_keyword_cost.
    now rewrite foldl_snoc.
  - rewrite Hcp, Hfp, Hmp, Hp. unfold lowest_prefix_cost. cbv zeta.
    now rewrite foldl_snoc.
Qed.

Lemma matcher_after_tokens (keywords : list UniString) (prefix : UniString)
    (name : string) (tokens seen : list UniString) m :
  matcher_after keywords prefix seen m ->
  matcher_after keywords prefix (seen ++ tokens)
    (foldl (fun m' token => ProcessNameToken m' name token) m tokens).
Proof.
  revert seen m. induction tokens as [|token tokens IH]; intros seen m Hm; cbn [foldl].
  - now rewrite app_nil_r.
  - replace (seen ++ token :: tokens) with ((seen ++ [token]) ++ tokens)
      by now rewrite <- app_assoc.
    apply IH. now apply matcher_after_ProcessNameToken.
Qed.

Lemma matcher_after_names (keywords : list UniString) (prefix : UniString)
    (names : list (Z * string)) (seen : list UniString) m :
  matcher_after keywords prefix seen m ->
  matcher_after keywords prefix
    (seen ++ concat ((fun ln : Z * string =>
                        SplitUniString (NormalizeAndSimplifyString ln.2)) <$> names))
    (foldl (fun m' ln => ProcessName m' ln.2) m names).
Proof.
  revert seen m. induction names as [|ln names IH]; intros seen m Hm;
    cbn [foldl fmap list_fmap concat].
  - now rewrite app_nil_r.
  - rewrite app_assoc. apply IH. unfold ProcessName. now apply matcher_after_tokens.
Qed.

(** The matcher of a feature holds the keywords selected for its mask and
    has seen the tokens of its names. *)
Lemma FeatureMatcher_after q feature :
  matcher_after (select_keywords 0 (FeatureSkipMask q feature) (m_keywords q))
                (m_prefix q) (feature_tokens feature) (FeatureMatcher q feature).
Proof.
  unfold FeatureMatcher, ForEachNameRef, feature_tokens.
  apply (matcher_after_names _ _ (ft_names feature) []).
  apply matcher_after_MakeMatcher.
Qed.

End MatcherKeywords.

(** ** The claims about the skip masks and the feature functor *)

(** C9.  For a query with at least one keyword (and at most 31, as the
    constructor leaves them), after the category matching the bit [i] of the
    skip mask of an entity type is set exactly when it was set before or
    some synonym of some dictionary entry that denotes the type consumes the
    keyword position [i]: its tokens are the first [n] keywords and [i] is
    among the first [n] positions, or they are the last [n] keywords and
    [i] is among the last [n] positions.  Keywords and queued results are
    untouched.  The mask of a feature is the union of the masks of its
    types, and the keywords given to the matcher for the feature are exactly
    those at the positions that are not set in it: these are the keywords
    the matcher holds once it has seen the names of the feature, it keeps
    one cost for each of them, the lowest that the keyword reaches against
    the tokens of the names, and the match score adds up these costs and
    that of the prefix, so that a keyword at a masked position takes no
    part in the matching. *)
Theorem skip_masks_mark_consumed_keywords {E : External} (cost : IntermediateResult -> Z)
    (q : Query) (categories : list Category) :
  m_pCategories q = Some categories ->
  m_keywords q <> [] ->
  (length (m_keywords q) <= 31)%nat ->
  let q' := CategoryMatching cost q in
  (forall (type : Z) (i : nat),
      Z.testbit (GetKeywordsToSkipForType q' type) (Z.of_nat i) = true <->
      Z.testbit (GetKeywordsToSkipForType q type) (Z.of_nat i) = true \/
      skipped_by categories (m_keywords q) type i) /\
  (m_keywordsToSkipForType q = ∅ ->
   forall (type : Z) (i : nat),
      Z.testbit (GetKeywordsToSkipForType q' type) (Z.of_nat i) = true <->
      skipped_by categories (m_keywords q) type i) /\
  m_keywords q' = m_keywords q /\
  m_results q' = m_results q /\
  (forall (feature : FeatureType) (i : nat),
      Z.testbit (FeatureSkipMask q' feature) (Z.of_nat i) = true <->
      exists type, type ∈ ft_types feature /\
                   Z.testbit (GetKeywordsToSkipForType q' type) (Z.of_nat i) = true) /\
  (forall feature : FeatureType,
      FeatureMatcher q' feature
        = ForEachNameRef feature
            (MakeMatcher (unmasked (FeatureSkipMask q' feature) (m_keywords q))
                         (m_prefix q'))) /\
  (forall feature : FeatureType,
      let matcher := FeatureMatcher q' feature in
      let kept := unmasked (FeatureSkipMask q' feature) (m_keywords q) in
      let costs := (fun kw => lowest_keyword_cost kw (feature_tokens feature)) <$> kept in
      km_keywords matcher = kept /\
      km_minKeywordMatchCost matcher = costs /\
      km_prefix matcher = m_prefix q' /\
      GetPrefixMatchScore matcher = lowest_prefix_cost (m_prefix q') (feature_tokens feature) /\
      GetMatchScore matcher
        = foldl (fun acc c => u32 (acc + c))
                (lowest_prefix_cost (m_prefix q') (feature_tokens feature)) costs).
Proof.
  intros Hcat Hkw Hlen q'.
  destruct (Categories_keyword_mode cost q categories Hkw Hlen) as (Hk & Hr & Hbits).
  assert (Hq' : q' = foldl (CategoryStep cost) q categories).
  { unfold q', CategoryMatching. now rewrite Hcat. }
  rewrite <- Hq' in Hk, Hr, Hbits.
  split; [exact Hbits|].
  split.
  { intros Hempty type i. rewrite Hbits.
    rewrite (GetKeywordsToSkipForType_default q), Hempty, lookup_empty. simpl.
    rewrite Z.bits_0. split; [intros [H|H]; [discriminate | exact H] | now right]. }
  split; [exact Hk|]. split; [exact Hr|].
  split; [intros feature i; apply FeatureSkipMask_bit|].
  assert (Hkept : forall feature,
             select_keywords 0 (FeatureSkipMask q' feature) (m_keywords q')
               = unmasked (FeatureSkipMask q' feature) (m_keywords q)).
  { intros feature. rewrite select_keywords_unmasked by (rewrite Hk; exact Hlen).
    now rewrite Hk. }
  split.
  - intros feature. unfold FeatureMatcher. now rewrite Hkept.
  - intros feature matcher kept costs.
    destruct (FeatureMatcher_after q' feature)
      as (Hkeywords & Hprefix & _ & _ & _ & _ & Hcosts & Hpcost).
    fold matcher in Hkeywords, Hprefix, Hcosts, Hpcost.
    rewrite Hkept in Hkeywords, Hcosts. fold kept in Hkeywords, Hcosts.
    fold costs in Hcosts.
    split; [exact Hkeywords|]. split; [exact Hcosts|]. split; [exact Hprefix|].
    split; [exact Hpcost|].
    unfold GetMatchScore. now rewrite Hcosts, Hpcost.
Qed.

Lemma skip_masks_mark_consumed_keywords_witness :
  let q := cafe_query "cafe central " in
  let q' := CategoryMatching penalty_cost q in
  (forall (type : Z) (i : nat),
      Z.testbit (GetKeywordsToSkipForType q' type) (Z.of_nat i) = true <->
      skipped_by (E := SmallWorld) [cafe_category; car_category] (m_keywords q) type i) /\
  FeatureMatcher q' cafe_central
    = ForEachNameRef (E := SmallWorld) cafe_central
        (MakeMatcher (unmasked (FeatureSkipMask q' cafe_central) (m_keywords q))
                     (m_prefix q')) /\
  km_keywords (FeatureMatcher q' cafe_central) = [code_points "central"] /\
  km_minKeywordMatchCost (FeatureMatcher q' cafe_central) = [0].
Proof.
  destruct (skip_masks_mark_consumed_keywords penalty_cost (cafe_query "cafe central ")
              [cafe_category; car_category])
    as (_ & Hbits & _ & _ & _ & Hmatcher & Hkept).
  - reflexivity.
  - vm_compute. discriminate.
  - vm_compute. lia.
  - split; [apply Hbits; reflexivity|]. split; [apply Hmatcher|].
    destruct (Hkept cafe_central) as (Hkeywords & Hcosts & _).
    split; [exact Hkeywords | exact Hcosts].
Defined.

(** C10.  In the local feature phase (the flag not being set at the read the
    functor makes), a feature is offered to the ranker exactly when the
    prefix score of its matcher is within the prefix ceiling, its match
    score is within the keyword ceiling, 512, and the lower bound of its
    drawable scale range for text is not negative; otherwise the query is
    left as it was.  In particular a feature whose range has a negative
    lower bound is dropped without a trace, whatever its scores. *)
Theorem feature_is_offered_only_when_drawable {E : External}
    (cost : IntermediateResult -> Z) (flag : nat -> bool)
    (feature : FeatureType) (s : Run) :
  flag (run_clock s) = false ->
  let q := run_query s in
  let matcher := FeatureMatcher q feature in
  let scaleRange := DrawableScaleRangeForText feature in
  let within :=
    GetPrefixMatchScore matcher <= GetMaxPrefixMatchScore (Z.of_nat (length (m_prefix q))) /\
    GetMatchScore matcher <= GetMaxKeywordMatchScore in
  (within /\ 0 <= scaleRange.1 ->
   FeatureProcessor cost flag feature s
     = Done (set_query (checked flag s)
               (AddResult cost q
                  (IRFeature (m_viewport q) feature (GetBestMatchName matcher)
                             (GetMatchScore matcher) scaleRange.1)))) /\
  (~ (within /\ 0 <= scaleRange.1) ->
   FeatureProcessor cost flag feature s = Done (checked flag s)) /\
  (scaleRange.1 < 0 ->
   FeatureProcessor cost flag feature s = Done (checked flag s) /\
   run_query (checked flag s) = q) /\
  GetMaxKeywordMatchScore = 512.
Proof.
  intros Hf q matcher scaleRange within.
  assert (Hcases :
    FeatureProcessor cost flag feature s =
      if GetPrefixMatchScore matcher
           <=? GetMaxPrefixMatchScore (Z.of_nat (length (m_prefix q)))
      then if GetMatchScore matcher <=? GetMaxKeywordMatchScore
           then if scaleRange.1 <? 0 then Done (checked flag s)
                else Done (set_query (checked flag s)
                             (AddResult cost q
                                (IRFeature (m_viewport q) feature (GetBestMatchName matcher)
                                           (GetMatchScore matcher) scaleRange.1)))
           else Done (checked flag s)
      else Done (checked flag s)).
  { unfold FeatureProcessor. rewrite GetTerminateFlag_eq, Hf. reflexivity. }
  rewrite Hcases. unfold within.
  destruct (Z.leb_spec (GetPrefixMatchScore matcher)
              (GetMaxPrefixMatchScore (Z.of_nat (length (m_prefix q)))));
    destruct (Z.leb_spec (GetMatchScore matcher) GetMaxKeywordMatchScore);
    destruct (Z.ltb_spec scaleRange.1 0);
    repeat split; try reflexivity; intros; try lia; try tauto.
Qed.

Lemma feature_is_offered_only_when_drawable_witness :
  let s := start (cafe_query "cafe ") in
  (GetPrefixMatchScore (FeatureMatcher (run_query s) cafe_hidden) = 0 /\
   GetMatchScore (FeatureMatcher (run_query s) cafe_hidden) = 0) /\
  FeatureProcessor penalty_cost never cafe_hidden s = Done (checked never s) /\
  run_query (checked never s) = run_query s.
Proof.
  split; [vm_compute; split; reflexivity|].
  refine (proj1 (proj2 (proj2
    (feature_is_offered_only_when_drawable penalty_cost never cafe_hidden
       (start (cafe_query "cafe ")) _))) _).
  - reflexivity.
  - simpl. lia.
Defined.

(** ** Suggestions from the prefix *)

Section Suggestions.

Context {E : External}.
Variable cost : IntermediateResult -> Z.

Implicit Types (q : Query) (c : Category) (name : Name) (best : Best).

Lemma lor_low_bits (a len : Z) :
  0 <= len < 32 -> Z.lor (Z.shiftl a 5) len = Z.shiftl a 5 + len.
Proof.
  intros Hlen.
  assert (Hland : forall j, 0 <= j ->
                    Z.testbit (Z.shiftl a 5) j && Z.testbit len j = false).
  { intros j Hj. destruct (decide (j < 5)) as [Hlow|Hhigh].
    - now rewrite Z.shiftl_spec_low.
    - destruct (decide (len = 0)) as [->|Hpos].
      + rewrite Z.bits_0. apply andb_false_r.
      + rewrite (Z.bits_above_log2 len j); [apply andb_false_r | lia |].
        assert (Z.log2 len < 5) by (apply Z.log2_lt_pow2; lia). lia. }
  rewrite Z.add_nocarry_lxor.
  - apply Z.bits_inj'. intros j Hj. rewrite Z.lor_spec, Z.lxor_spec.
    specialize (Hland j Hj).
    destruct (Z.testbit (Z.shiftl a 5) j), (Z.testbit len j); simpl in *; congruence.
  - apply Z.bits_inj'. intros j Hj. rewrite Z.land_spec, Z.bits_0. now apply Hland.
Qed.

(** The prefix score of the matcher that the loop builds for a synonym. *)
Lemma synonym_prefix_score (prefix token : UniString) :
  GetPrefixMatchScore (ProcessNameToken (MakeMatcher [] prefix) EmptyString token)
    = PrefixMatch prefix token (GetMaxPrefixMatchScore (Z.of_nat (length prefix))).
Proof.
  unfold GetPrefixMatchScore, ProcessNameToken, MakeMatcher, KeywordMatcher_ctor.
  cbn [km_minPrefixMatchCost km_prefixMatchFn km_prefix km_maxPrefixMatchCost].
  set (ceiling := GetMaxPrefixMatchScore (Z.of_nat (length prefix))).
  pose proof (u32_range (ceiling + 1)).
  destruct (PrefixMatch_values prefix token ceiling) as [->| ->]; lia.
Qed.

Lemma ceiling_cases (size : Z) :
  GetMaxPrefixMatchScore size = 1 \/ GetMaxPrefixMatchScore size = 256 \/
  GetMaxPrefixMatchScore size = 512.
Proof. destruct (GetMaxPrefixMatchScore_cases size) as [[-> _]|[[-> _]|[-> _]]]; auto. Qed.

Lemma Best_init_penalty q :
  bestPrefixMatchPenalty (Best_init q)
    = 32 * (GetMaxPrefixMatchScore (Z.of_nat (length (m_prefix q))) + 1) - 1.
Proof.
  unfold Best_init, PREFIX_LEN_BITS. cbn [bestPrefixMatchPenalty].
  destruct (ceiling_cases (Z.of_nat (length (m_prefix q)))) as [->|[->| ->]]; reflexivity.
Qed.

Lemma SynonymPenalty_value q name :
  0 <= m_prefixLengthToSuggest name < 32 ->
  let score :=
    PrefixMatch (m_prefix q) (NormalizeAndSimplifyString (m_name name))
                (GetMaxPrefixMatchScore (Z.of_nat (length (m_prefix q)))) in
  SynonymPenalty q name = 32 * score + m_prefixLengthToSuggest name /\
  SynonymPenalty q name
    = Z.lor (Z.shiftl score PREFIX_LEN_BITS) (m_prefixLengthToSuggest name).
Proof.
  intros Hlen score.
  assert (Hsum : SynonymPenalty q name = 32 * score + m_prefixLengthToSuggest name).
  { unfold SynonymPenalty. rewrite synonym_prefix_score. fold score.
    unfold PREFIX_LEN_BITS. rewrite Z.shiftl_mul_pow2 by lia.
    assert (Hscore : 0 <= score <= 513).
    { unfold score.
      pose proof (GetMaxPrefixMatchScore_range (Z.of_nat (length (m_prefix q)))) as Hc.
      destruct (PrefixMatch_values (m_prefix q) (NormalizeAndSimplifyString (m_name name))
                  (GetMaxPrefixMatchScore (Z.of_nat (length (m_prefix q))))) as [-> | ->];
        [lia|].
      rewrite succ_no_wrap; lia. }
    rewrite (u32_small (score * 2 ^ 5)) by lia.
    rewrite u32_small by lia. rewrite i32_small by lia. lia. }
  split; [exact Hsum|].
  unfold PREFIX_LEN_BITS. rewrite lor_low_bits by exact Hlen.
  rewrite Z.shiftl_mul_pow2 by lia. lia.
Qed.

(** In prefix mode a step of the loop leaves the query as it is and keeps
    the better of the current best and the synonym, if it is considered. *)
Lemma SynonymStep_prefix_mode c q best name :
  m_keywords q = [] -> m_prefix q <> [] ->
  SynonymStep c (q, best) name
    = (q, if m_prefixLengthToSuggest name <=? Z.of_nat (length (m_prefix q))
          then if SynonymPenalty q name <? bestPrefixMatchPenalty best
               then {| bestPrefixMatch := m_name name;
                       bestPrefixMatchPenalty := SynonymPenalty q name |}
               else best
          else best).
Proof.
  intros Hkw Hpre. unfold SynonymStep. cbn [fst snd].
  rewrite (bool_decide_eq_true_2 (m_keywords q = [])) by exact Hkw.
  rewrite (bool_decide_eq_false_2 (m_prefix q = [])) by exact Hpre. cbn [negb].
  destruct (_ <=? _); [|reflexivity].
  destruct (_ <? _); reflexivity.
Qed.

Lemma Synonyms_prefix_mode c q best names :
  m_keywords q = [] -> m_prefix q <> [] ->
  let st := foldl (SynonymStep c) (q, best) names in
  st.1 = q /\
  bestPrefixMatchPenalty st.2 <= bestPrefixMatchPenalty best /\
  (forall name, name ∈ names -> considered q name ->
                bestPrefixMatchPenalty st.2 <= SynonymPenalty q name) /\
  (st.2 = best \/
   exists name,
     name ∈ names /\ considered q name /\
     st.2 = {| bestPrefixMatch := m_name name;
               bestPrefixMatchPenalty := SynonymPenalty q name |} /\
     SynonymPenalty q name < bestPrefixMatchPenalty best).
Proof.
  intros Hkw Hpre. revert best.
  induction names as [|name names IH]; intros best; cbn [foldl].
  - cbn [fst snd]. split; [reflexivity|]. split; [lia|]. split; [|now left].
    intros name Hin. now apply elem_of_nil in Hin.
  - rewrite SynonymStep_prefix_mode by assumption.
    set (best1 := if m_prefixLengthToSuggest name <=? Z.of_nat (length (m_prefix q))
                  then if SynonymPenalty q name <? bestPrefixMatchPenalty best
                       then {| bestPrefixMatch := m_name name;
                               bestPrefixMatchPenalty := SynonymPenalty q name |}
                       else best
                  else best).
    destruct (IH best1) as (Hq & Hle & Hall & Hwho).
    set (st := foldl (SynonymStep c) (q, best1) names) in *.
    assert (Hstep :
      bestPrefixMatchPenalty best1 <= bestPrefixMatchPenalty best /\
      (considered q name -> bestPrefixMatchPenalty best1 <= SynonymPenalty q name) /\
      (best1 = best \/
       considered q name /\
       best1 = {| bestPrefixMatch := m_name name;
                  bestPrefixMatchPenalty := SynonymPenalty q name |} /\
       SynonymPenalty q name < bestPrefixMatchPenalty best)).
    { unfold best1, considered.
      destruct (Z.leb_spec (m_prefixLengthToSuggest name) (Z.of_nat (length (m_prefix q))));
        [|split; [lia|]; split; [lia | now left]].
      destruct (Z.ltb_spec (SynonymPenalty q name) (bestPrefixMatchPenalty best)).
      - cbn [bestPrefixMatchPenalty]. split; [lia|]. split; [lia|]. right. auto.
      - split; [lia|]. split; [lia|]. now left. }
    destruct Hstep as (Hle1 & Hname & Hwho1).
    split; [exact Hq|]. split; [lia|]. split.
    + intros name' Hin Hc. apply elem_of_cons in Hin as [->|Hin].
      * specialize (Hname Hc). lia.
      * now apply Hall.
    + destruct Hwho as [Hsame|(name' & Hin & Hc & Heq & Hlt)].
      * rewrite Hsame. destruct Hwho1 as [->|(Hc & Heq & Hlt)]; [now left|].
        right. exists name. split; [left|]. auto.
      * right. exists name'. split; [now right|]. split; [exact Hc|].
        split; [exact Heq | lia].
Qed.

Lemma EntryBest_best_of_synonyms q c :
  m_keywords q = [] -> m_prefix q <> [] ->
  best_of_synonyms q (m_synonyms c) (EntryBest q c).
Proof.
  intros Hkw Hpre.
  destruct (Synonyms_prefix_mode c q (Best_init q) (m_synonyms c) Hkw Hpre)
    as (_ & Hle & Hall & Hwho).
  unfold best_of_synonyms, EntryBest. auto.
Qed.

Lemma CategoryStep_prefix_mode q c :
  m_keywords q = [] -> m_prefix q <> [] ->
  CategoryStep cost q c
    = match EntrySuggestion q c with
      | Some suggestion => AddResult cost q suggestion
      | None => q
      end.
Proof.
  intros Hkw Hpre. unfold CategoryStep, EntrySuggestion, EntryBest.
  destruct (Synonyms_prefix_mode c q (Best_init q) (m_synonyms c) Hkw Hpre) as (-> & _).
  destruct (negb _); reflexivity.
Qed.

(** The suggestion of an entry depends on the query through its prefix and
    keywords only. *)
Lemma SynonymStep_same_text c q1 q2 best name :
  m_keywords q1 = m_keywords q2 -> m_prefix q1 = m_prefix q2 ->
  m_keywords q1 = [] -> m_prefix q1 <> [] ->
  (SynonymStep c (q1, best) name).2 = (SynonymStep c (q2, best) name).2.
Proof.
  intros Hk Hp Hkw Hpre.
  rewrite !SynonymStep_prefix_mode by congruence. cbn [snd].
  unfold SynonymPenalty. now rewrite Hp.
Qed.

Lemma EntryBest_same_text c q1 q2 :
  m_keywords q1 = m_keywords q2 -> m_prefix q1 = m_prefix q2 ->
  m_keywords q1 = [] -> m_prefix q1 <> [] ->
  EntryBest q1 c = EntryBest q2 c.
Proof.
  intros Hk Hp Hkw Hpre. unfold EntryBest.
  assert (Hinit : Best_init q1 = Best_init q2) by (unfold Best_init; now rewrite Hp).
  rewrite Hinit. generalize (Best_init q2). intros best.
  revert best. induction (m_synonyms c) as [|name names IH]; intros best;
    cbn [foldl]; [reflexivity|].
  rewrite !SynonymStep_prefix_mode by congruence.
  unfold SynonymPenalty. rewrite Hp. apply IH.
Qed.

Lemma AddResult_text q r :
  m_keywords (AddResult cost q r) = m_keywords q /\
  m_prefix (AddResult cost q r) = m_prefix q.
Proof.
  unfold AddResult. destruct (_ <? _); [split; reflexivity|].
  destruct (m_results q) as [|top popped]; [split; reflexivity|].
  destruct (operator_lt cost r top); split; reflexivity.
Qed.

Lemma Categories_prefix_mode q0 q (categories : list Category) :
  m_keywords q0 = [] -> m_prefix q0 <> [] ->
  m_keywords q = m_keywords q0 -> m_prefix q = m_prefix q0 ->
  foldl (CategoryStep cost) q categories
    = OfferAll cost q (omap (EntrySuggestion q0) categories).
Proof.
  intros Hkw Hpre. revert q.
  induction categories as [|c categories IH]; intros q Hk Hp; [reflexivity|].
  cbn [foldl omap list_omap].
  rewrite CategoryStep_prefix_mode by congruence.
  assert (Hsame : EntrySuggestion q c = EntrySuggestion q0 c).
  { unfold EntrySuggestion. rewrite (EntryBest_same_text c q q0) by congruence.
    reflexivity. }
  rewrite Hsame. destruct (EntrySuggestion q0 c) as [suggestion|].
  - unfold OfferAll. cbn [foldl]. apply IH.
    + now rewrite (proj1 (AddResult_text q suggestion)).
    + now rewrite (proj2 (AddResult_text q suggestion)).
  - now apply IH.
Qed.

End Suggestions.

(** ** The claim about the suggestions *)

(** C8, as stated, fails on a dictionary of two entries that both match the
    prefix: each entry has its own best suggestion, and both are offered. *)
Lemma two_entries_two_suggestions :
  m_results (CategoryMatching penalty_cost (cafe_query "ca"))
    = [IRCategory "cafe" "cafe " 2; IRCategory "car wash" "car wash " 2].
Proof. vm_compute. reflexivity. Qed.

(** C8, amended.  When the query has no keywords and a non-empty prefix
    (the trigger lengths of the dictionary being below 32, as the code
    asserts): the penalty of a synonym is
    [(prefixMatchCost << 5) | minTriggerLength], so that a lower match cost
    always wins and the shorter trigger length decides between equal match
    costs; for each dictionary entry separately, the loop retains the best
    of the entry's considered synonyms (those whose trigger length is at
    most the length of the prefix) whose penalty is below the bound it
    starts from, which is a considered synonym that starts with the prefix
    and has the least trigger length among those; and the category matching
    offers to the ranker one
    completion suggestion per entry whose retained suggestion is not empty,
    in the order of the dictionary. *)
Theorem suggestion_per_entry {E : External} (cost : IntermediateResult -> Z)
    (q : Query) (categories : list Category) :
  m_pCategories q = Some categories ->
  m_keywords q = [] ->
  m_prefix q <> [] ->
  (forall c name, c ∈ categories -> name ∈ m_synonyms c ->
                  0 <= m_prefixLengthToSuggest name < 32) ->
  (forall c name, c ∈ categories -> name ∈ m_synonyms c ->
     SynonymPenalty q name
       = Z.lor (Z.shiftl (SynonymScore q name) PREFIX_LEN_BITS)
               (m_prefixLengthToSuggest name)) /\
  (forall c1 name1 c2 name2,
     c1 ∈ categories -> name1 ∈ m_synonyms c1 ->
     c2 ∈ categories -> name2 ∈ m_synonyms c2 ->
     SynonymPenalty q name1 < SynonymPenalty q name2 <->
     SynonymScore q name1 < SynonymScore q name2 \/
     (SynonymScore q name1 = SynonymScore q name2 /\
      m_prefixLengthToSuggest name1 < m_prefixLengthToSuggest name2)) /\
  (forall c, c ∈ categories -> best_of_synonyms q (m_synonyms c) (EntryBest q c)) /\
  (forall c suggestion,
     c ∈ categories -> EntrySuggestion q c = Some suggestion ->
     exists name,
       name ∈ m_synonyms c /\ considered q name /\
       m_prefix q `prefix_of` NormalizeAndSimplifyString (m_name name) /\
       suggestion = IRCategory (m_name name) (m_name name +:+ " ")
                               (m_prefixLengthToSuggest name) /\
       forall name',
         name' ∈ m_synonyms c -> considered q name' ->
         m_prefix q `prefix_of` NormalizeAndSimplifyString (m_name name') ->
         m_prefixLengthToSuggest name <= m_prefixLengthToSuggest name') /\
  CategoryMatching cost q = OfferAll cost q (omap (EntrySuggestion q) categories) /\
  m_keywordsToSkipForType (CategoryMatching cost q) = m_keywordsToSkipForType q.
Proof.
  intros Hcat Hkw Hpre Hlen.
  assert (Hscore : forall name, SynonymScore q name
            = PrefixMatch (m_prefix q) (NormalizeAndSimplifyString (m_name name))
                (GetMaxPrefixMatchScore (Z.of_nat (length (m_prefix q)))))
    by (intros name; apply synonym_prefix_score).
  assert (Hmatching : CategoryMatching cost q
                      = OfferAll cost q (omap (EntrySuggestion q) categories)).
  { unfold CategoryMatching. rewrite Hcat. now apply Categories_prefix_mode. }
  split; [|split; [|split; [|split; [|split]]]].
  - intros c name Hc Hname. rewrite Hscore.
    apply SynonymPenalty_value. eauto.
  - intros c1 name1 c2 name2 Hc1 Hn1 Hc2 Hn2.
    destruct (SynonymPenalty_value q name1 (Hlen c1 name1 Hc1 Hn1)) as [-> _].
    destruct (SynonymPenalty_value q name2 (Hlen c2 name2 Hc2 Hn2)) as [-> _].
    rewrite <- !Hscore.
    pose proof (Hlen c1 name1 Hc1 Hn1). pose proof (Hlen c2 name2 Hc2 Hn2). lia.
  - intros c _. now apply EntryBest_best_of_synonyms.
  - intros c suggestion Hc Hsome.
    destruct (EntryBest_best_of_synonyms q c Hkw Hpre) as (_ & Hall & Hwho).
    unfold EntrySuggestion in Hsome.
    destruct Hwho as [Hinit|(name & Hname & Hcons & Hbest & Hlt)].
    { rewrite Hinit in Hsome. discriminate Hsome. }
    rewrite Hbest in Hsome, Hall. cbn [bestPrefixMatch bestPrefixMatchPenalty] in Hsome, Hall.
    pose proof (GetMaxPrefixMatchScore_range (Z.of_nat (length (m_prefix q)))) as Hceil.
    set (ceiling := GetMaxPrefixMatchScore (Z.of_nat (length (m_prefix q)))) in *.
    assert (Hwrap : u32 (ceiling + 1) = ceiling + 1) by (apply succ_no_wrap; lia).
    assert (Hzero : PrefixMatch (m_prefix q) (NormalizeAndSimplifyString (m_name name))
                      ceiling = 0).
    { destruct (SynonymPenalty_value q name (Hlen c name Hc Hname)) as [Hval _].
      fold ceiling in Hval. rewrite Best_init_penalty in Hlt. fold ceiling in Hlt.
      pose proof (Hlen c name Hc Hname).
      destruct (PrefixMatch_values (m_prefix q) (NormalizeAndSimplifyString (m_name name))
                  ceiling) as [H0|H1]; [exact H0|].
      rewrite H1, Hwrap in Hval. lia. }
    assert (Hpen : SynonymPenalty q name = m_prefixLengthToSuggest name).
    { destruct (SynonymPenalty_value q name (Hlen c name Hc Hname)) as [Hval _].
      fold ceiling in Hval. rewrite Hzero in Hval. lia. }
    exists name. split; [exact Hname|]. split; [exact Hcons|]. split.
    { apply (PrefixMatch_zero _ _ ceiling); [rewrite Hwrap; lia | exact Hzero]. }
    split.
    { destruct (negb _); [|discriminate Hsome]. injection Hsome as <-. now rewrite Hpen. }
    intros name' Hname' Hcons' Hprefix'.
    specialize (Hall name' Hname' Hcons'). rewrite Hpen in Hall.
    destruct (SynonymPenalty_value q name' (Hlen c name' Hc Hname')) as [Hval' _].
    rewrite PrefixMatch_prefix in Hval' by exact Hprefix'. lia.
  - exact Hmatching.
  - rewrite Hmatching. generalize (omap (EntrySuggestion q) categories). intros offers.
    revert q Hcat Hkw Hpre Hlen Hscore Hmatching.
    induction offers as [|r offers IH] using rev_ind; intros; [reflexivity|].
    rewrite OfferAll_snoc.
    transitivity (m_keywordsToSkipForType (OfferAll cost q offers)).
    + unfold AddResult. destruct (_ <? _); [reflexivity|].
      destruct (m_results _) as [|top popped]; [reflexivity|].
      destruct (operator_lt cost r top); reflexivity.
    + clear IH Hmatching. induction offers as [|r' offers IH] using rev_ind; [reflexivity|].
      rewrite OfferAll_snoc.
      transitivity (m_keywordsToSkipForType (OfferAll cost q offers)); [|exact IH].
      unfold AddResult. destruct (_ <? _); [reflexivity|].
      destruct (m_results _) as [|top popped]; [reflexivity|].
      destruct (operator_lt cost r' top); reflexivity.
Qed.

Lemma suggestion_per_entry_witness :
  let q := cafe_query "ca" in
  CategoryMatching penalty_cost q
    = OfferAll penalty_cost q (omap (EntrySuggestion q) [cafe_category; car_category]) /\
  best_of_synonyms q (m_synonyms cafe_category) (EntryBest q cafe_category).
Proof.
  destruct (suggestion_per_entry penalty_cost (cafe_query "ca")
              [cafe_category; car_category])
    as (_ & _ & Hbest & _ & Hall & _).
  - reflexivity.
  - vm_compute. reflexivity.
  - vm_compute. discriminate.
  - intros c name Hc Hname.
    apply elem_of_cons in Hc as [->|Hc].
    + apply elem_of_cons in Hname as [->|Hname]; [simpl; lia|].
      apply list_elem_of_singleton in Hname as ->. simpl. lia.
    + apply list_elem_of_singleton in Hc as ->.
      apply list_elem_of_singleton in Hname as ->. simpl. lia.
  - split; [exact Hall|]. apply Hbest. left.
Defined.

(** ** More about the matching functions *)

Section MoreMatching.

Implicit Types (sA sB sC : UniString) (maxCost : Z).

Lemma match_loop_sym sA sB maxCost :
  length sA = length sB -> match_loop sA sB maxCost = match_loop sB sA maxCost.
Proof.
  revert sB. induction sA as [|a sA IH]; intros [|b sB] Hlen;
    simpl in Hlen; try discriminate; [reflexivity|].
  cbn [match_loop]. rewrite (Z.eqb_sym b a).
  destruct (a =? b); cbn [negb]; [|reflexivity].
  apply IH. lia.
Qed.

Lemma prefix_both_ways sA sB :
  sA `prefix_of` sB -> sB `prefix_of` sA -> sA = sB.
Proof.
  intros Hab Hba. apply prefix_same_length; [exact Hab|].
  apply prefix_length in Hab. apply prefix_length in Hba. lia.
Qed.

(** When [maxCost + 1] wraps to 0, both matchers return 0 on every input. *)
Lemma wrapped_matchers sA sB maxCost :
  u32 (maxCost + 1) = 0 ->
  KeywordMatch sA sB maxCost = 0 /\ PrefixMatch sA sB maxCost = 0.
Proof.
  intros Hw. split.
  - destruct (KeywordMatch_values sA sB maxCost) as [H|H]; congruence.
  - destruct (PrefixMatch_values sA sB maxCost) as [H|H]; congruence.
Qed.

End MoreMatching.

(** X1.  [KeywordMatch] does not depend on the order of its two tokens, for
    any ceiling. *)
Theorem KeywordMatch_symmetric (A B : UniString) (maxCost : Z) :
  KeywordMatch A B maxCost = KeywordMatch B A maxCost.
Proof.
  unfold KeywordMatch. rewrite (Nat.eqb_sym (length B) (length A)).
  destruct (Nat.eqb_spec (length A) (length B)) as [Hlen|_]; cbn [negb]; [|reflexivity].
  now apply match_loop_sym.
Qed.

(** X2.  For any ceiling, [PrefixMatch] at cost 0 is a preorder on tokens of
    which [KeywordMatch] at cost 0 is the symmetric part: a token matches
    itself; matches chain; two tokens match as keywords exactly when each
    matches the other as a prefix; and a prefix match never costs more than
    the keyword match of the same tokens.  The empty prefix matches every
    token. *)
Theorem PrefixMatch_preorder (A B C : UniString) (maxCost : Z) :
  PrefixMatch A A maxCost = 0 /\
  PrefixMatch [] B maxCost = 0 /\
  (PrefixMatch A B maxCost = 0 -> PrefixMatch B C maxCost = 0 ->
   PrefixMatch A C maxCost = 0) /\
  (KeywordMatch A B maxCost = 0 <->
   PrefixMatch A B maxCost = 0 /\ PrefixMatch B A maxCost = 0) /\
  PrefixMatch A B maxCost <= KeywordMatch A B maxCost.
Proof.
  assert (Hkp : KeywordMatch A B maxCost = 0 ->
                PrefixMatch A B maxCost = 0 /\ PrefixMatch B A maxCost = 0).
  { intros Hk. destruct (decide (u32 (maxCost + 1) = 0)) as [Hw|Hw].
    - split; now apply wrapped_matchers.
    - apply KeywordMatch_zero in Hk as ->; [|exact Hw].
      split; now apply PrefixMatch_prefix. }
  split; [now apply PrefixMatch_prefix|].
  split; [apply PrefixMatch_prefix, prefix_nil|].
  split.
  { intros Hab Hbc. destruct (decide (u32 (maxCost + 1) = 0)) as [Hw|Hw].
    - now apply wrapped_matchers.
    - apply PrefixMatch_prefix. etransitivity; eapply PrefixMatch_zero; eauto. }
  split.
  { split; [exact Hkp|]. intros [Hab Hba].
    destruct (decide (u32 (maxCost + 1) = 0)) as [Hw|Hw].
    - now apply wrapped_matchers.
    - rewrite (prefix_both_ways A B); [apply KeywordMatch_refl | |];
        eapply PrefixMatch_zero; eauto. }
  pose proof (u32_range (maxCost + 1)) as Hr.
  destruct (KeywordMatch_values A B maxCost) as [Hk|Hk].
  - rewrite Hk. destruct (Hkp Hk) as [-> _]. lia.
  - rewrite Hk. destruct (PrefixMatch_values A B maxCost) as [-> | ->]; lia.
Qed.

(** X3.  The prefix ceiling never decreases as the prefix gets longer,
    stays between 1 and the keyword ceiling, and is the keyword ceiling
    exactly for the sizes from 6 on. *)
Theorem GetMaxPrefixMatchScore_monotone (size1 size2 : Z) :
  size1 <= size2 ->
  GetMaxPrefixMatchScore size1 <= GetMaxPrefixMatchScore size2 /\
  1 <= GetMaxPrefixMatchScore size1 <= GetMaxKeywordMatchScore /\
  (GetMaxPrefixMatchScore size1 = GetMaxKeywordMatchScore <-> 6 <= size1).
Proof.
  intros Hle. unfold GetMaxPrefixMatchScore, GetMaxKeywordMatchScore.
  destruct (Z.ltb_spec size1 3); destruct (Z.ltb_spec size1 6);
    destruct (Z.ltb_spec size2 3); destruct (Z.ltb_spec size2 6); lia.
Qed.

Lemma GetMaxPrefixMatchScore_monotone_witness :
  GetMaxPrefixMatchScore 2 <= GetMaxPrefixMatchScore 5 /\
  1 <= GetMaxPrefixMatchScore 2 <= GetMaxKeywordMatchScore /\
  (GetMaxPrefixMatchScore 2 = GetMaxKeywordMatchScore <-> 6 <= 2).
Proof. apply (GetMaxPrefixMatchScore_monotone 2 5). lia. Defined.

(** ** The budget and the order of what a search sends *)

Section Accounting.

Context {E : External}.
Variable cost : IntermediateResult -> Z.
Variable flag : nat -> bool.

Implicit Types (s : Run) (q : Query) (r : IntermediateResult).

Lemma offers_only_refl q : offers_only cost q q.
Proof. split; [|split; [|split]]; try reflexivity. intros H. exact H. Qed.

Lemma offers_only_trans q1 q2 q3 :
  offers_only cost q1 q2 -> offers_only cost q2 q3 -> offers_only cost q1 q3.
Proof.
  intros (H1 & H2 & H3 & H4) (K1 & K2 & K3 & K4).
  split; [|split; [|split]]; [congruence..|]. intros H. auto.
Qed.

Lemma offers_only_AddResult q r : offers_only cost q (AddResult cost q r).
Proof.
  split; [apply AddResult_resultsRemaining|].
  split; [apply AddResult_text|]. split; [apply AddResult_text|].
  apply AddResult_inv.
Qed.

Lemma offers_only_SkipForTypes types mask q :
  offers_only cost q (SkipForTypes types mask q).
Proof. split; [|split; [|split]]; try reflexivity. intros H. exact H. Qed.

Lemma offers_only_SynonymStep c (st : Query * Best) name :
  offers_only cost st.1 (SynonymStep c st name).1.
Proof.
  unfold SynonymStep.
  destruct (negb (bool_decide (m_keywords st.1 = []))).
  - destruct (_ <=? _)%nat; [|apply offers_only_refl]. cbn [fst].
    destruct (bool_decide _); destruct (bool_decide _);
      repeat (eapply offers_only_trans; [|apply offers_only_SkipForTypes]);
      apply offers_only_refl.
  - destruct (negb _); [|apply offers_only_refl].
    destruct (_ <=? _); [|apply offers_only_refl].
    destruct (_ <? _); apply offers_only_refl.
Qed.

Lemma offers_only_Synonyms c (st : Query * Best) names :
  offers_only cost st.1 (foldl (SynonymStep c) st names).1.
Proof.
  revert st. induction names as [|name names IH]; intros st; cbn [foldl];
    [apply offers_only_refl|].
  eapply offers_only_trans; [apply offers_only_SynonymStep | apply IH].
Qed.

Lemma offers_only_CategoryStep q c : offers_only cost q (CategoryStep cost q c).
Proof.
  unfold CategoryStep.
  pose proof (offers_only_Synonyms c (q, Best_init q) (m_synonyms c)) as Hs.
  cbn [fst] in Hs. destruct (negb _); [|exact Hs].
  eapply offers_only_trans; [exact Hs | apply offers_only_AddResult].
Qed.

Lemma offers_only_CategoryMatching q : offers_only cost q (CategoryMatching cost q).
Proof.
  unfold CategoryMatching. destruct (m_pCategories q) as [categories|];
    [|apply offers_only_refl].
  revert q. induction categories as [|c categories IH]; intros q; cbn [foldl];
    [apply offers_only_refl|].
  eapply offers_only_trans; [apply offers_only_CategoryStep | apply IH].
Qed.

Lemma offers_only_LatLonMatching q : offers_only cost q (LatLonMatching cost q).
Proof.
  unfold LatLonMatching.
  destruct (MatchLatLon (m_queryText q)) as [[[[lat lon] latPrec] lonPrec]|];
    [apply offers_only_AddResult | apply offers_only_refl].
Qed.

Lemma silent_refl s : silent cost s s.
Proof. split; [reflexivity | apply offers_only_refl]. Qed.

Lemma silent_trans s1 s2 s3 :
  silent cost s1 s2 -> silent cost s2 s3 -> silent cost s1 s3.
Proof.
  intros [H1 H2] [K1 K2]. split; [congruence | eapply offers_only_trans; eauto].
Qed.

Lemma silent_checked s : silent cost s (checked flag s).
Proof. split; [apply emitted_checked | apply offers_only_refl]. Qed.

Lemma silent_set_query s q :
  offers_only cost (run_query s) q -> silent cost s (set_query s q).
Proof. intros H. split; [reflexivity | exact H]. Qed.

Lemma silent_FeatureProcessor feature s :
  match FeatureProcessor cost flag feature s with
  | Done s' | Stop s' => silent cost s s'
  end.
Proof.
  unfold FeatureProcessor. rewrite GetTerminateFlag_eq.
  pose proof (silent_checked s) as Hc.
  destruct (flag (run_clock s)); [exact Hc|].
  destruct (_ <=? _); [|exact Hc].
  destruct (_ <=? _); [|exact Hc].
  destruct (_ <? 0); [exact Hc|].
  eapply silent_trans; [exact Hc|].
  apply silent_set_query, offers_only_AddResult.
Qed.

Lemma silent_ForEachInRect features s :
  match ForEachInRect cost flag features s with
  | Done s' | Stop s' => silent cost s s'
  end.
Proof.
  revert s. induction features as [|feature rest IH]; intros s; cbn [ForEachInRect];
    [apply silent_refl|].
  pose proof (silent_FeatureProcessor feature s) as Hf.
  destruct (FeatureProcessor cost flag feature s) as [s'|s']; [|exact Hf].
  specialize (IH s').
  destruct (ForEachInRect cost flag rest s'); eapply silent_trans; eauto.
Qed.

Lemma silent_LocalFeatureMatching s : silent cost s (LocalFeatureMatching cost flag s).
Proof.
  unfold LocalFeatureMatching. destruct (_ <? _); [|apply silent_refl].
  match goal with
  | |- context [ForEachInRect cost flag ?fs s] =>
      pose proof (silent_ForEachInRect fs s) as Hf;
      destruct (ForEachInRect cost flag fs s); exact Hf
  end.
Qed.

Lemma silent_MatchAgainstTrie entities s :
  silent cost s (MatchAgainstTrie cost flag entities s).
Proof.
  revert s. induction entities as [|feature rest IH]; intros s; cbn [MatchAgainstTrie];
    [apply silent_refl|].
  pose proof (silent_FeatureProcessor feature s) as Hf.
  destruct (FeatureProcessor cost flag feature s) as [s'|s']; [|exact Hf].
  eapply silent_trans; [exact Hf | apply IH].
Qed.

Lemma silent_TrieMatching s : silent cost s (TrieMatching cost flag s).
Proof.
  unfold TrieMatching. destruct (m_pTrieRoot _); [|apply silent_refl].
  apply silent_MatchAgainstTrie.
Qed.

Lemma flushed_so_far_silent N s s' flushed :
  flushed_so_far cost N s flushed -> silent cost s s' ->
  flushed_so_far cost N s' flushed.
Proof.
  intros (He & Hs & Hn & Hinv) (He' & Hr & _ & _ & Hinv').
  split; [congruence|]. split; [exact Hs|]. split; [lia | auto].
Qed.

Lemma flushed_so_far_start q :
  ranker_inv cost q -> flushed_so_far cost (m_resultsRemaining q) (start q) [].
Proof.
  intros Hinv. split; [reflexivity|]. split; [constructor|]. split; [simpl; lia|].
  exact Hinv.
Qed.

(** What a flush adds to the account. *)
Lemma flushed_so_far_FlushResults N s flushed :
  flushed_so_far cost N s flushed ->
  let more := reverse (m_results (run_query s)) in
  emitted (run_log (FlushResults s))
    = (GenerateFinalResult <$> flushed) ++ (GenerateFinalResult <$> more) /\
  StronglySorted (best_first cost) more /\
  Z.of_nat (length flushed + length more)
    + m_resultsRemaining (run_query (FlushResults s)) = N /\
  ranker_inv cost (run_query (FlushResults s)).
Proof.
  intros (He & Hs & Hn & Hinv) more.
  pose proof (FlushResults_resultsRemaining cost s Hinv) as Hrem.
  pose proof (FlushResults_inv cost s Hinv) as Hinv'.
  split; [rewrite FlushResults_log, emitted_app, emitted_emits, He; reflexivity|].
  split; [apply reverse_worst_first, Hinv|].
  split; [|exact Hinv'].
  rewrite Hrem. unfold more. rewrite length_reverse. lia.
Qed.

Lemma accounted_returned N s flushed :
  flushed_so_far cost N s flushed -> accounted cost N (checked flag s).
Proof.
  intros H. apply (flushed_so_far_silent N s (checked flag s)) in H;
    [|apply silent_checked].
  destruct H as (He & Hs & Hn & Hinv).
  exists flushed, [], []. rewrite He. simpl. rewrite app_nil_r.
  split; [reflexivity|]. split; [now left|]. split; [exact Hs|].
  split; [constructor|]. split; [rewrite Nat.add_0_r; exact Hn | apply Hinv].
Qed.

Lemma accounted_marker N s flushed :
  flushed_so_far cost N s flushed -> accounted cost N (emit EndMarker s).
Proof.
  intros (He & Hs & Hn & Hinv).
  exists flushed, [], [EndMarker]. unfold emit. cbn [run_log run_query].
  rewrite emitted_emit, He.
  split; [reflexivity|]. split; [now right|]. split; [exact Hs|].
  split; [constructor|]. split; [rewrite Nat.add_0_r; exact Hn | apply Hinv].
Qed.

Lemma accounted_last_flush N s flushed :
  flushed_so_far cost N s flushed ->
  accounted cost N (emit EndMarker (FlushResults s)).
Proof.
  intros H. destruct (flushed_so_far_FlushResults N s flushed H) as (He & Hs' & Hn & Hinv).
  destruct H as (_ & Hs & _).
  exists flushed, (reverse (m_results (run_query s))), [EndMarker].
  unfold emit. cbn [run_log run_query]. rewrite emitted_emit, He, <- app_assoc.
  split; [reflexivity|]. split; [now right|]. split; [exact Hs|].
  split; [exact Hs'|]. split; [exact Hn | apply Hinv].
Qed.

Lemma flushed_so_far_first_flush N s :
  flushed_so_far cost N s [] ->
  flushed_so_far cost N (FlushResults s) (reverse (m_results (run_query s))).
Proof.
  intros H. destruct (flushed_so_far_FlushResults N s [] H) as (He & Hs & Hn & Hinv).
  split; [exact He|]. split; [exact Hs|]. split; [exact Hn | exact Hinv].
Qed.

Lemma Search_accounted q :
  ranker_inv cost q ->
  accounted cost (m_resultsRemaining q) (Search cost flag (start q)).
Proof.
  intros Hinv. pose proof (flushed_so_far_start q Hinv) as F.
  set (N := m_resultsRemaining q) in *. clearbody N.
  unfold Search.
  read_flag H; [eapply accounted_returned; exact F|]. clear H.
  apply (flushed_so_far_silent N _ (checked flag (start q))) in F;
    [|apply silent_checked].
  eapply flushed_so_far_silent in F;
    [|apply (silent_set_query _ _ (offers_only_LatLonMatching _))].
  read_flag H; [eapply accounted_returned; exact F|]. clear H.
  eapply flushed_so_far_silent in F; [|apply silent_checked].
  eapply flushed_so_far_silent in F;
    [|apply (silent_set_query _ _ (offers_only_CategoryMatching _))].
  read_flag H; [eapply accounted_returned; exact F|]. clear H.
  eapply flushed_so_far_silent in F; [|apply silent_checked].
  eapply flushed_so_far_silent in F; [|apply silent_LocalFeatureMatching].
  read_flag H; [eapply accounted_returned; exact F|]. clear H.
  eapply flushed_so_far_silent in F; [|apply silent_checked].
  apply flushed_so_far_first_flush in F.
  destruct (_ =? 0); [eapply accounted_marker; exact F|].
  read_flag H; [eapply accounted_returned; exact F|]. clear H.
  eapply flushed_so_far_silent in F; [|apply silent_checked].
  eapply flushed_so_far_silent in F; [|apply silent_TrieMatching].
  read_flag H; [eapply accounted_returned; exact F|]. clear H.
  eapply flushed_so_far_silent in F; [|apply silent_checked].
  eapply accounted_last_flush; exact F.
Qed.

End Accounting.

(** X4.  Whatever the termination flag does, a search on a query whose
    ranker is in order sends no more results than the budget it starts
    with: what it sends is a list of results followed by the end marker or
    by nothing, and the number of results plus the budget left equals the
    budget at the start.  The budget is never negative.  When the flag is
    never found set, nothing is left in the queue. *)
Theorem Search_conserves_budget {E : External} (cost : IntermediateResult -> Z)
    (flag : nat -> bool) (q : Query) :
  ranker_inv cost q ->
  let final := Search cost flag (start q) in
  (exists results tail,
      emitted (run_log final) = results ++ tail /\
      (tail = [] \/ tail = [EndMarker]) /\
      Z.of_nat (length results) + m_resultsRemaining (run_query final)
        = m_resultsRemaining q) /\
  0 <= m_resultsRemaining (run_query final) <= m_resultsRemaining q /\
  Z.of_nat (length (emitted (run_log final))) <= m_resultsRemaining q + 1 /\
  ((forall k, flag k = false) -> m_results (run_query final) = []).
Proof.
  intros Hinv final.
  destruct (Search_accounted cost flag q Hinv)
    as (localRun & worldRun & tail & He & Htail & _ & _ & Hn & Hpos).
  fold final in He, Hn, Hpos.
  split; [|split; [|split]].
  - exists ((GenerateFinalResult <$> localRun) ++ (GenerateFinalResult <$> worldRun)), tail.
    split; [now rewrite <- app_assoc|]. split; [exact Htail|].
    rewrite length_app, !length_fmap. exact Hn.
  - lia.
  - rewrite He, !length_app, !length_fmap.
    destruct Htail as [-> | ->]; simpl; lia.
  - intros Hnever. unfold final. rewrite (Search_uncancelled cost flag Hnever).
    destruct (_ =? 0); reflexivity.
Qed.

Lemma Search_conserves_budget_witness :
  let final := Search penalty_cost (set_from 6) (start (cafe_query "caf")) in
  0 <= m_resultsRemaining (run_query final) <= 10 /\
  Z.of_nat (length (emitted (run_log final))) <= 10 + 1.
Proof.
  destruct (Search_conserves_budget penalty_cost (set_from 6) (cafe_query "caf"))
    as (_ & Hrem & Hlen & _).
  - apply Query_ctor_inv.
  - split; [exact Hrem | exact Hlen].
Defined.

(** X5.  Whatever the termination flag does, what a search sends is made of
    at most two runs of results, each in ascending order of cost: the
    results of the flush that follows the local features, then those of the
    final flush; the end marker, if it is sent, comes last. *)
Theorem Search_sends_sorted_runs {E : External} (cost : IntermediateResult -> Z)
    (flag : nat -> bool) (q : Query) :
  ranker_inv cost q ->
  exists localRun worldRun tail,
    emitted (run_log (Search cost flag (start q)))
      = (GenerateFinalResult <$> localRun) ++ (GenerateFinalResult <$> worldRun) ++ tail /\
    (tail = [] \/ tail = [EndMarker]) /\
    StronglySorted (best_first cost) localRun /\
    StronglySorted (best_first cost) worldRun.
Proof.
  intros Hinv.
  destruct (Search_accounted cost flag q Hinv)
    as (localRun & worldRun & tail & He & Htail & Hl & Hw & _).
  exists localRun, worldRun, tail. auto.
Qed.

Lemma Search_sends_sorted_runs_witness :
  exists localRun worldRun tail,
    emitted (run_log (Search penalty_cost never (start (cafe_query "ca"))))
      = (GenerateFinalResult <$> localRun) ++ (GenerateFinalResult <$> worldRun) ++ tail /\
    (tail = [] \/ tail = [EndMarker]) /\
    StronglySorted (best_first penalty_cost) localRun /\
    StronglySorted (best_first penalty_cost) worldRun.
Proof.
  apply (Search_sends_sorted_runs penalty_cost never (cafe_query "ca")).
  apply Query_ctor_inv.
Defined.

(** *** Searching where there is nothing to find *)

Section EmptyIndices.

Context {E : External}.
Variable cost : IntermediateResult -> Z.

Implicit Types (s : Run) (q : Query).

Lemma AddResult_collaborators q r :
  m_pCategories (AddResult cost q r) = m_pCategories q /\
  m_pTrieRoot (AddResult cost q r) = m_pTrieRoot q /\
  m_pIndex (AddResult cost q r) = m_pIndex q.
Proof.
  unfold AddResult. destruct (_ <? _); [repeat split|].
  destruct (m_results q) as [|top popped]; [repeat split|].
  destruct (operator_lt cost r top); repeat split.
Qed.

Lemma LatLonMatching_collaborators q :
  m_pCategories (LatLonMatching cost q) = m_pCategories q /\
  m_pTrieRoot (LatLonMatching cost q) = m_pTrieRoot q /\
  m_pIndex (LatLonMatching cost q) = m_pIndex q.
Proof.
  unfold LatLonMatching.
  destruct (MatchLatLon (m_queryText q)) as [[[[lat lon] latPrec] lonPrec]|];
    [apply AddResult_collaborators | repeat split].
Qed.

Lemma LocalFeatureMatching_empty (flag : nat -> bool) s :
  (forall rect scale, m_pIndex (run_query s) rect scale = []) ->
  LocalFeatureMatching cost flag s = s.
Proof.
  intros Hempty. unfold LocalFeatureMatching. rewrite Hempty.
  destruct (_ <? _); reflexivity.
Qed.

(** With no dictionary, no trie and an empty index, a search that is not
    cancelled sends what the coordinate matching left in the queue, and
    the end marker. *)
Lemma Search_nothing_to_find q :
  ranker_inv cost q ->
  m_pCategories q = None -> m_pTrieRoot q = None ->
  (forall rect scale, m_pIndex q rect scale = []) ->
  emitted (run_log (Search cost never (start q)))
    = (GenerateFinalResult <$> reverse (m_results (LatLonMatching cost q))) ++ [EndMarker].
Proof.
  intros Hinv Hcat Htrie Hindex.
  destruct (LatLonMatching_collaborators q) as (Hc & Ht & Hi).
  rewrite Hcat in Hc. rewrite Htrie in Ht.
  set (q' := LatLonMatching cost q) in *.
  assert (Hflush : LocalFlush cost never (start q)
                   = FlushResults
                       (checked never
                          (checked never
                             (set_query
                                (checked never (set_query (checked never (start q)) q'))
                                q')))).
  { unfold LocalFlush. cbv zeta.
    change (run_query (checked never (start q))) with q. fold q'.
    change (run_query (checked never (set_query (checked never (start q)) q'))) with q'.
    unfold CategoryMatching at 1. rewrite Hc.
    rewrite LocalFeatureMatching_empty; [reflexivity|].
    intros rect scale. change (m_pIndex q' rect scale = []). rewrite Hi. apply Hindex. }
  assert (Hqueue : m_results (run_query (LocalFlush cost never (start q))) = [])
    by (rewrite Hflush; reflexivity).
  assert (Hsent : emitted (run_log (LocalFlush cost never (start q)))
                  = (GenerateFinalResult <$> reverse (m_results q'))).
  { rewrite Hflush, FlushResults_log, emitted_app, emitted_emits. reflexivity. }
  assert (HtrieL : m_pTrieRoot (run_query (LocalFlush cost never (start q))) = None)
    by (rewrite Hflush; exact Ht).
  rewrite (Search_uncancelled cost never (fun k => eq_refl)).
  destruct (_ =? 0).
  - unfold emit. cbn [run_log]. now rewrite emitted_emit, Hsent.
  - unfold emit. cbn [run_log]. rewrite emitted_emit. f_equal.
    rewrite FlushResults_log, emitted_app, emitted_emits, emitted_checked.
    unfold TrieMatching.
    change (run_query (checked never (LocalFlush cost never (start q))))
      with (run_query (LocalFlush cost never (start q))).
    rewrite HtrieL, emitted_checked, Hsent.
    change (run_query (checked never (checked never (LocalFlush cost never (start q)))))
      with (run_query (LocalFlush cost never (start q))).
    rewrite Hqueue. apply app_nil_r.
Qed.

End EmptyIndices.

(** X6.  With no dictionary, no trie and an index that yields no feature, a
    search that is not cancelled on a query just constructed sends the
    coordinate result when the text parses as coordinates, and then the end
    marker; when the text does not parse, the end marker alone. *)
Theorem Search_over_empty_indices {E : External} (cost : IntermediateResult -> Z)
    (text : string) (viewport : RectD) (pIndex : RectD -> Z -> list FeatureType) :
  (forall rect scale, pIndex rect scale = []) ->
  emitted (run_log (Search cost never (start (Query_ctor text viewport pIndex None None))))
    = match MatchLatLon text with
      | Some (lat, lon, latPrec, lonPrec) =>
          [ResultPlace (IRLatLon viewport lat lon (latlon_precision latPrec lonPrec));
           EndMarker]
      | None => [EndMarker]
      end.
Proof.
  intros Hempty.
  rewrite Search_nothing_to_find;
    [|apply Query_ctor_inv|reflexivity|reflexivity|exact Hempty].
  unfold LatLonMatching. cbn [m_queryText Query_ctor m_viewport].
  destruct (MatchLatLon text) as [[[[lat lon] latPrec] lonPrec]|]; reflexivity.
Qed.

Lemma Search_over_empty_indices_witness :
  emitted (run_log (Search flat_cost never
                      (start (Query_ctor (E := CoordWorld) "55 37" tt
                                (fun _ _ => []) None None))))
    = [ResultPlace (@IRLatLon CoordWorld tt 55 37 5); EndMarker].
Proof.
  apply (Search_over_empty_indices (E := CoordWorld) flat_cost "55 37" tt (fun _ _ => [])).
  reflexivity.
Defined.

(** X7.  A query with no keyword and no prefix (a text without tokens) goes
    through the category matching unchanged, whatever the dictionary: no
    suggestion is offered and no mask is written. *)
Theorem CategoryMatching_empty_query {E : External} (cost : IntermediateResult -> Z)
    (q : Query) :
  m_keywords q = [] -> m_prefix q = [] -> CategoryMatching cost q = q.
Proof.
  intros Hkw Hpre. unfold CategoryMatching.
  destruct (m_pCategories q) as [categories|]; [|reflexivity].
  induction categories as [|c categories IH]; [reflexivity|].
  cbn [foldl].
  assert (Hstep : CategoryStep cost q c = q).
  { unfold CategoryStep.
    assert (Hsyn : forall names best,
               foldl (SynonymStep c) (q, best) names = (q, best)).
    { induction names as [|name names IHn]; intros best; [reflexivity|].
      cbn [foldl]. unfold SynonymStep at 2. cbn [fst].
      rewrite (bool_decide_eq_true_2 (m_keywords q = [])) by exact Hkw.
      rewrite (bool_decide_eq_true_2 (m_prefix q = [])) by exact Hpre.
      cbn [negb]. apply IHn. }
    rewrite Hsyn. reflexivity. }
  rewrite Hstep. exact IH.
Qed.

Lemma CategoryMatching_empty_query_witness :
  CategoryMatching penalty_cost (cafe_query " , ") = cafe_query " , ".
Proof.
  apply (CategoryMatching_empty_query penalty_cost (cafe_query " , ")).
  - vm_compute. reflexivity.
  - vm_compute. reflexivity.
Defined.

(** ** More about the skip masks *)

Section MoreMasks.

Context {E : External}.
Variable cost : IntermediateResult -> Z.

Implicit Types (q : Query) (c : Category) (name : Name) (st : Query * Best).

Lemma SkipForTypes_lookup (types : list Z) (mask : Z) q (type : Z) :
  GetKeywordsToSkipForType (SkipForTypes types mask q) type
    = if decide (type ∈ types)
      then Z.lor (GetKeywordsToSkipForType q type) (u32 mask)
      else GetKeywordsToSkipForType q type.
Proof.
  rewrite !GetKeywordsToSkipForType_default. unfold SkipForTypes.
  cbn [m_keywordsToSkipForType set_keywordsToSkipForType].
  apply skip_fold_lookup.
Qed.

Lemma lor_below_pow2 (a b n : Z) :
  0 <= n -> 0 <= a < 2 ^ n -> 0 <= b < 2 ^ n -> 0 <= Z.lor a b < 2 ^ n.
Proof.
  intros Hn Ha Hb.
  assert (Hnonneg : 0 <= Z.lor a b) by (apply Z.lor_nonneg; lia).
  split; [exact Hnonneg|].
  destruct (decide (Z.lor a b = 0)) as [->|Hne]; [lia|].
  apply Z.log2_lt_pow2; [lia|]. rewrite Z.log2_lor by lia.
  assert (Hlog : forall x, 0 <= x < 2 ^ n -> 0 < n -> Z.log2 x < n).
  { intros x Hx Hpos. destruct (decide (x = 0)) as [->|Hx0]; [simpl; lia|].
    apply Z.log2_lt_pow2; lia. }
  assert (Hpos : 0 < n).
  { destruct (decide (n = 0)) as [->|]; [|lia].
    assert (a = 0) by lia. assert (b = 0) by lia. subst. now rewrite Z.lor_0_l in Hne. }
  pose proof (Hlog a Ha Hpos). pose proof (Hlog b Hb Hpos). lia.
Qed.

Lemma head_mask_below (n size : nat) :
  (n <= size <= 31)%nat -> 0 <= u32 (head_mask n) < 2 ^ Z.of_nat size.
Proof.
  intros Hn. rewrite head_mask_ones by lia. rewrite Z.ones_equiv.
  assert (0 < 2 ^ Z.of_nat n) by (apply Z.pow_pos_nonneg; lia).
  assert (2 ^ Z.of_nat n <= 2 ^ Z.of_nat size) by (apply Z.pow_le_mono_r; lia).
  lia.
Qed.

Lemma tail_mask_below (n size : nat) :
  (n <= size <= 31)%nat -> 0 <= u32 (tail_mask n size) < 2 ^ Z.of_nat size.
Proof.
  intros Hn. rewrite tail_mask_ones by lia.
  rewrite Z.shiftl_mul_pow2 by lia. rewrite Z.ones_equiv.
  assert (Hsplit : 2 ^ Z.of_nat size = 2 ^ Z.of_nat n * 2 ^ Z.of_nat (size - n)).
  { rewrite <- Z.pow_add_r by lia. f_equal. lia. }
  assert (0 < 2 ^ Z.of_nat n) by (apply Z.pow_pos_nonneg; lia).
  assert (0 < 2 ^ Z.of_nat (size - n)) by (apply Z.pow_pos_nonneg; lia).
  rewrite Hsplit. nia.
Qed.

Lemma masks_below_SkipForTypes (size : nat) (types : list Z) (mask : Z) q :
  0 <= u32 mask < 2 ^ Z.of_nat size ->
  masks_below size q -> masks_below size (SkipForTypes types mask q).
Proof.
  intros Hmask Hq type. rewrite SkipForTypes_lookup.
  destruct (decide (type ∈ types)); [|apply Hq].
  apply lor_below_pow2; [lia | apply Hq | exact Hmask].
Qed.

Lemma masks_below_AddResult (size : nat) q r :
  masks_below size q -> masks_below size (AddResult cost q r).
Proof.
  intros Hq type.
  assert (Hsame : m_keywordsToSkipForType (AddResult cost q r) = m_keywordsToSkipForType q).
  { unfold AddResult. destruct (_ <? _); [reflexivity|].
    destruct (m_results q) as [|top popped]; [reflexivity|].
    destruct (operator_lt cost r top); reflexivity. }
  unfold GetKeywordsToSkipForType. rewrite Hsame. apply Hq.
Qed.

Lemma masks_below_SynonymStep c st name :
  (length (m_keywords st.1) <= 31)%nat ->
  masks_below (length (m_keywords st.1)) st.1 ->
  masks_below (length (m_keywords st.1)) (SynonymStep c st name).1.
Proof.
  intros Hlen Hq. unfold SynonymStep.
  destruct (negb (bool_decide (m_keywords st.1 = []))).
  - destruct (Nat.leb_spec (length (SplitUniString (NormalizeAndSimplifyString (m_name name))))
                (length (m_keywords st.1))) as [Hn|Hn]; [|exact Hq].
    cbn [fst].
    destruct (bool_decide _); destruct (bool_decide _);
      repeat (apply masks_below_SkipForTypes;
              [first [apply head_mask_below | apply tail_mask_below]; lia|]);
      exact Hq.
  - destruct (negb _); [|exact Hq].
    destruct (_ <=? _); [|exact Hq].
    destruct (_ <? _); exact Hq.
Qed.

Lemma masks_below_Synonyms c st names :
  (length (m_keywords st.1) <= 31)%nat ->
  masks_below (length (m_keywords st.1)) st.1 ->
  masks_below (length (m_keywords st.1)) (foldl (SynonymStep c) st names).1.
Proof.
  revert st. induction names as [|name names IH]; intros st Hlen Hq; cbn [foldl];
    [exact Hq|].
  pose proof (SynonymStep_keywords c st name) as Hk.
  rewrite <- Hk. apply IH; rewrite Hk; [exact Hlen|].
  now apply masks_below_SynonymStep.
Qed.

Lemma masks_below_CategoryStep q c :
  (length (m_keywords q) <= 31)%nat ->
  masks_below (length (m_keywords q)) q ->
  masks_below (length (m_keywords q)) (CategoryStep cost q c).
Proof.
  intros Hlen Hq. unfold CategoryStep.
  pose proof (masks_below_Synonyms c (q, Best_init q) (m_synonyms c) Hlen Hq) as Hs.
  cbn [fst] in Hs. destruct (negb _); [|exact Hs].
  now apply masks_below_AddResult.
Qed.

Lemma masks_below_Categories q (categories : list Category) :
  (length (m_keywords q) <= 31)%nat ->
  masks_below (length (m_keywords q)) q ->
  masks_below (length (m_keywords q)) (foldl (CategoryStep cost) q categories).
Proof.
  revert q. induction categories as [|c categories IH]; intros q Hlen Hq;
    cbn [foldl]; [exact Hq|].
  destruct (offers_only_CategoryStep cost q c) as (_ & Hk & _).
  rewrite <- Hk. apply IH; rewrite Hk; [exact Hlen|].
  now apply masks_below_CategoryStep.
Qed.

Lemma select_keywords_take (i : nat) (mask : Z) (kws : list UniString) :
  select_keywords i mask kws = select_keywords i mask (take (32 - i) kws).
Proof.
  revert i. induction kws as [|kw kws IH]; intros i.
  - now rewrite take_nil.
  - destruct (Nat.leb_spec 32 i) as [Hge|Hlt].
    + replace (32 - i)%nat with 0%nat by lia. cbn [take select_keywords].
      destruct (Nat.leb_spec 32 i); [reflexivity | lia].
    + replace (32 - i)%nat with (S (32 - S i)) by lia.
      cbn [take select_keywords]. rewrite <- (IH (S i)).
      reflexivity.
Qed.

Lemma unmasked_zero_from (i : nat) (kws : list UniString) :
  (filter (fun ik : nat * UniString => Z.testbit 0 (Z.of_nat ik.1) = false)
          (zip (seq i (length kws)) kws)).*2 = kws.
Proof.
  revert i. induction kws as [|kw kws IH]; intros i; [reflexivity|].
  cbn [length seq zip zip_with]. rewrite filter_cons_True by apply Z.bits_0.
  rewrite fmap_cons. cbn [snd]. f_equal. apply IH.
Qed.

End MoreMasks.

(** X8.  The category matching keeps every skip mask within the keyword
    positions: if, for a query of at most 31 keywords, every mask is a
    non-negative number below 2 to the number of keywords (as it is for a
    query just constructed, whose masks are all 0), the same holds after
    the category matching, and no bit at or above the number of keywords
    is set in any mask. *)
Theorem masks_stay_within_keywords {E : External} (cost : IntermediateResult -> Z)
    (q : Query) :
  (length (m_keywords q) <= 31)%nat ->
  masks_below (length (m_keywords q)) q ->
  masks_below (length (m_keywords q)) (CategoryMatching cost q) /\
  (forall (type : Z) (i : nat),
      (length (m_keywords q) <= i)%nat ->
      Z.testbit (GetKeywordsToSkipForType (CategoryMatching cost q) type) (Z.of_nat i)
        = false).
Proof.
  intros Hlen Hq.
  assert (Hbelow : masks_below (length (m_keywords q)) (CategoryMatching cost q)).
  { unfold CategoryMatching. destruct (m_pCategories q) as [categories|]; [|exact Hq].
    now apply masks_below_Categories. }
  split; [exact Hbelow|].
  intros type i Hi. specialize (Hbelow type).
  set (mask := GetKeywordsToSkipForType (CategoryMatching cost q) type) in *.
  destruct (decide (mask = 0)) as [->|Hne]; [apply Z.bits_0|].
  apply Z.bits_above_log2; [lia|].
  assert (Z.log2 mask < Z.of_nat (length (m_keywords q)))
    by (apply Z.log2_lt_pow2; lia).
  lia.
Qed.

Lemma masks_stay_within_keywords_witness :
  masks_below (length (m_keywords (cafe_query "cafe central ")))
              (CategoryMatching penalty_cost (cafe_query "cafe central ")).
Proof.
  refine (proj1 (masks_stay_within_keywords penalty_cost (cafe_query "cafe central ") _ _)).
  - vm_compute. lia.
  - intros type. unfold GetKeywordsToSkipForType.
    change (m_keywordsToSkipForType (cafe_query "cafe central ")) with (∅ : gmap Z Z).
    rewrite lookup_empty. vm_compute. split; [discriminate | reflexivity].
Defined.

(** X9.  A feature none of whose types has a skip mask is matched against
    all the keywords of the query: its mask is 0, the matcher holds every
    keyword of the query once it has seen the names of the feature, and it
    keeps for each of them the lowest cost that the keyword reaches against
    the tokens of the names.  This is so in particular for a feature
    without types and on a query whose dictionary matched nothing. *)
Theorem feature_without_masks {E : External} (q : Query) (feature : FeatureType) :
  (forall type, type ∈ ft_types feature -> m_keywordsToSkipForType q !! type = None) ->
  (length (m_keywords q) <= 32)%nat ->
  FeatureSkipMask q feature = 0 /\
  km_keywords (FeatureMatcher q feature) = m_keywords q /\
  km_minKeywordMatchCost (FeatureMatcher q feature)
    = (fun kw => lowest_keyword_cost kw (feature_tokens feature)) <$> m_keywords q /\
  GetMatchScore (FeatureMatcher q feature)
    = foldl (fun acc c => u32 (acc + c))
            (lowest_prefix_cost (m_prefix q) (feature_tokens feature))
            ((fun kw => lowest_keyword_cost kw (feature_tokens feature)) <$> m_keywords q).
Proof.
  intros Hnone Hlen.
  assert (Hmask : FeatureSkipMask q feature = 0).
  { unfold FeatureSkipMask.
    induction (ft_types feature) as [|type types IH]; [reflexivity|].
    cbn [foldl]. unfold GetKeywordsToSkipForType at 2.
    rewrite (Hnone type) by left. rewrite Z.lor_0_r.
    apply IH. intros type' Hin. apply Hnone. now right. }
  split; [exact Hmask|].
  assert (Hall : select_keywords 0 (FeatureSkipMask q feature) (m_keywords q)
                   = m_keywords q).
  { rewrite Hmask, select_keywords_from by lia. apply unmasked_zero_from. }
  destruct (FeatureMatcher_after q feature)
    as (Hkeywords & _ & _ & _ & _ & _ & Hcosts & Hpcost).
  rewrite Hall in Hkeywords, Hcosts.
  split; [exact Hkeywords|]. split; [exact Hcosts|].
  unfold GetMatchScore. now rewrite Hcosts, Hpcost.
Qed.

Lemma feature_without_masks_witness :
  FeatureSkipMask (cafe_query "cafe central ") cafe_central = 0 /\
  km_keywords (FeatureMatcher (cafe_query "cafe central ") cafe_central)
    = [code_points "cafe"; code_points "central"] /\
  km_minKeywordMatchCost (FeatureMatcher (cafe_query "cafe central ") cafe_central)
    = [0; 0].
Proof.
  destruct (feature_without_masks (cafe_query "cafe central ") cafe_central)
    as (Hmask & Hkeywords & Hcosts & _).
  - intros type _. apply lookup_empty.
  - vm_compute. lia.
  - split; [exact Hmask|]. split; [exact Hkeywords | exact Hcosts].
Defined.

(** X10.  Only the first 32 keywords can be given to the matcher of a
    feature: the keywords selected for a mask are those of the first 32
    whose position is clear in the mask, whatever comes after them. *)
Theorem select_keywords_first_32 (mask : Z) (queryKeywords : list UniString) :
  select_keywords 0 mask queryKeywords = unmasked mask (take 32 queryKeywords).
Proof.
  rewrite (select_keywords_take 0 mask queryKeywords).
  change (32 - 0)%nat with 32%nat.
  apply select_keywords_from. rewrite length_take. lia.
Qed.

(** X11.  The skip masks as a map: a type without an entry has the mask 0;
    writing a mask for a list of types ORs it into the mask of each type of
    the list, once, however often the type occurs in the list, and leaves
    the masks of the other types as they are; writing the same mask twice is
    writing it once, and two writes give the same masks in either order. *)
Theorem skip_mask_lookup {E : External} (q : Query) (types types' : list Z)
    (mask mask' : Z) (type : Z) :
  (m_keywordsToSkipForType q !! type = None -> GetKeywordsToSkipForType q type = 0) /\
  GetKeywordsToSkipForType (SkipForTypes types mask q) type
    = (if decide (type ∈ types)
       then Z.lor (GetKeywordsToSkipForType q type) (u32 mask)
       else GetKeywordsToSkipForType q type) /\
  GetKeywordsToSkipForType (SkipForTypes types mask (SkipForTypes types mask q)) type
    = GetKeywordsToSkipForType (SkipForTypes types mask q) type /\
  GetKeywordsToSkipForType (SkipForTypes types mask (SkipForTypes types' mask' q)) type
    = GetKeywordsToSkipForType (SkipForTypes types' mask' (SkipForTypes types mask q)) type.
Proof.
  split; [|split; [|split]].
  - intros Hnone. unfold GetKeywordsToSkipForType. now rewrite Hnone.
  - apply SkipForTypes_lookup.
  - rewrite !SkipForTypes_lookup. destruct (decide (type ∈ types)); [|reflexivity].
    now rewrite <- Z.lor_assoc, Z.lor_diag.
  - rewrite !SkipForTypes_lookup.
    destruct (decide (type ∈ types)); destruct (decide (type ∈ types')); try reflexivity.
    rewrite <- !Z.lor_assoc. f_equal. apply Z.lor_comm.
Qed.

(** ** The edge weights of the car router *)

Section RoutingFacts.

Context {R : RoutingExternal}.

Implicit Types (est : CarEdgeEstimator) (road : RoadGeometry) (info : TrafficInfo).

Lemma EdgeStep_aborted est featureId road speedMPS dir (segments : list Z) :
  foldl (EdgeStep est featureId road speedMPS dir) None segments = None.
Proof. induction segments as [|i segments IH]; [reflexivity | exact IH]. Qed.

Lemma EdgeStep_free est featureId road dir (segments : list Z) (result : float) :
  m_trafficInfo est = None ->
  foldl (EdgeStep est featureId road (PrimFloat.mul (GetSpeed road) kKMPH2MPS) dir)
        (Some result) segments
    = Some (foldl (fun result i =>
                     PrimFloat.add result
                       (TimeBetweenSec (GetPoint road i) (GetPoint road (i + 1))
                                       (PrimFloat.mul (GetSpeed road) kKMPH2MPS)))
                  result segments).
Proof.
  intros Hnone. revert result.
  induction segments as [|i segments IH]; intros result; [reflexivity|].
  cbn [foldl]. unfold EdgeStep at 2. rewrite Hnone. apply IH.
Qed.

Lemma EdgeStep_aborts est info featureId road speedMPS dir (segments : list Z)
    (result : float) :
  m_trafficInfo est = Some info ->
  foldl (EdgeStep est featureId road speedMPS dir) (Some result) segments = None <->
  exists i, i ∈ segments /\
            CalcTrafficFactor
              (GetSpeedGroup info {| m_fid := featureId; m_idx := i; m_dir := dir |})
              = None.
Proof.
  intros Hinfo. revert result.
  induction segments as [|i segments IH]; intros result.
  - split; [discriminate|]. intros (i & Hin & _). now apply elem_of_nil in Hin.
  - cbn [foldl]. unfold EdgeStep at 2. rewrite Hinfo.
    destruct (CalcTrafficFactor _) as [factor|] eqn:Hfactor.
    + rewrite IH. split.
      * intros (j & Hin & Hj). exists j. split; [now right | exact Hj].
      * intros (j & Hin & Hj). apply elem_of_cons in Hin as [-> | Hin];
          [congruence|]. now exists j.
    + rewrite EdgeStep_aborted. split; [|reflexivity].
      intros _. exists i. split; [left | exact Hfactor].
Qed.

Lemma EdgeStep_same est est' featureId road road' speedMPS dir (segments : list Z)
    (result : option float) :
  (forall i, i ∈ segments ->
             GetPoint road' i = GetPoint road i /\
             GetPoint road' (i + 1) = GetPoint road (i + 1)) ->
  option_Forall2
    (fun info info' =>
       forall i, i ∈ segments ->
                 GetSpeedGroup info' {| m_fid := featureId; m_idx := i; m_dir := dir |}
                   = GetSpeedGroup info {| m_fid := featureId; m_idx := i; m_dir := dir |})
    (m_trafficInfo est) (m_trafficInfo est') ->
  foldl (EdgeStep est' featureId road' speedMPS dir) result segments
    = foldl (EdgeStep est featureId road speedMPS dir) result segments.
Proof.
  revert result. induction segments as [|i segments IH]; intros result Hpoints Htraffic;
    [reflexivity|].
  cbn [foldl].
  assert (Hstep : EdgeStep est' featureId road' speedMPS dir result i
                    = EdgeStep est featureId road speedMPS dir result i).
  { unfold EdgeStep. destruct result as [result|]; [|reflexivity].
    destruct (Hpoints i) as [-> ->]; [left|].
    destruct Htraffic as [info info' Hinfo|]; [|reflexivity].
    rewrite Hinfo by left. reflexivity. }
  rewrite Hstep. apply IH.
  - intros j Hj. apply Hpoints. now right.
  - destruct Htraffic as [info info' Hinfo|]; constructor.
    intros j Hj. apply Hinfo. now right.
Qed.

End RoutingFacts.

(** X12.  Without traffic information, as before [Start] and after
    [Finish], the weight of a run of segments is never refused: it is the
    times of its segments added up from 0 in the order of the road, it is
    the same in both directions, and it does not depend on the feature. *)
Theorem CalcEdgesWeight_without_traffic {R : RoutingExternal} (est : CarEdgeEstimator)
    (featureId featureId' : Z) (road : RoadGeometry) (pointFrom pointTo : Z) :
  m_trafficInfo est = None ->
  CalcEdgesWeight est featureId road pointFrom pointTo
    = Some (free_flow road (seqZ (Z.min pointFrom pointTo)
                                 (Z.max pointFrom pointTo - Z.min pointFrom pointTo))) /\
  CalcEdgesWeight est featureId' road pointTo pointFrom
    = CalcEdgesWeight est featureId road pointFrom pointTo.
Proof.
  intros Hnone.
  assert (Hweight : forall fid a b,
             CalcEdgesWeight est fid road a b
               = Some (free_flow road (seqZ (Z.min a b) (Z.max a b - Z.min a b)))).
  { intros fid a b. unfold CalcEdgesWeight, free_flow. now apply EdgeStep_free. }
  split; [apply Hweight|].
  rewrite !Hweight. now rewrite (Z.min_comm pointTo), (Z.max_comm pointTo).
Qed.

Lemma CalcEdgesWeight_without_traffic_witness :
  CalcEdgesWeight (Finish busy_estimator) 7 straight_road 1 4
    = Some (free_flow straight_road (seqZ (Z.min 1 4) (Z.max 1 4 - Z.min 1 4))) /\
  CalcEdgesWeight (Finish busy_estimator) 8 straight_road 4 1
    = CalcEdgesWeight (Finish busy_estimator) 7 straight_road 1 4.
Proof.
  apply (CalcEdgesWeight_without_traffic (Finish busy_estimator) 7 8 straight_road 1 4).
  reflexivity.
Defined.

(** X13.  The weight of a run depends on nothing but the run: two
    estimators give the same weight, on two roads, when the roads have the
    same speed and the same points from one end of the run to the other, and
    when either both estimators have no traffic information or both have it
    and it gives the same speed group to every segment of the run, for this
    feature and in the direction of travel.  The points and the traffic
    outside the run, the traffic of the opposite direction and of other
    features, the number of points of the road and the greatest speed of the
    vehicle have no part in it. *)
Theorem CalcEdgesWeight_reads_its_run_only {R : RoutingExternal}
    (est est' : CarEdgeEstimator) (featureId : Z) (road road' : RoadGeometry)
    (pointFrom pointTo : Z) :
  GetSpeed road' = GetSpeed road ->
  (forall i, Z.min pointFrom pointTo <= i <= Z.max pointFrom pointTo ->
             GetPoint road' i = GetPoint road i) ->
  option_Forall2
    (fun info info' =>
       forall i, Z.min pointFrom pointTo <= i < Z.max pointFrom pointTo ->
                 let segment :=
                   {| m_fid := featureId; m_idx := i;
                      m_dir := if pointFrom <? pointTo then kForwardDirection
                               else kReverseDirection |} in
                 GetSpeedGroup info' segment = GetSpeedGroup info segment)
    (m_trafficInfo est) (m_trafficInfo est') ->
  CalcEdgesWeight est' featureId road' pointFrom pointTo
    = CalcEdgesWeight est featureId road pointFrom pointTo.
Proof.
  intros Hspeed Hpoints Htraffic. unfold CalcEdgesWeight. rewrite Hspeed.
  apply EdgeStep_same.
  - intros i Hi. apply elem_of_seqZ in Hi. split; apply Hpoints; lia.
  - destruct Htraffic as [info info' Hinfo|]; constructor.
    intros i Hi. apply elem_of_seqZ in Hi. apply Hinfo. lia.
Qed.

Lemma CalcEdgesWeight_reads_its_run_only_witness :
  CalcEdgesWeight slow_estimator 7 short_road 1 4
    = CalcEdgesWeight busy_estimator 7 straight_road 1 4.
Proof.
  apply (CalcEdgesWeight_reads_its_run_only busy_estimator slow_estimator 7
           straight_road short_road 1 4).
  - reflexivity.
  - intros i Hi. reflexivity.
  - constructor. intros i Hi. reflexivity.
Defined.

(** X14.  With traffic information, the weight of a run is refused (the
    check of [CalcTrafficFactor] aborts) exactly when the check fails for
    the speed group of one of the segments of the run, looked up with the
    feature, the segment and the direction of travel. *)
Theorem CalcEdgesWeight_aborts {R : RoutingExternal} (est : CarEdgeEstimator)
    (info : TrafficInfo) (featureId : Z) (road : RoadGeometry) (pointFrom pointTo : Z) :
  m_trafficInfo est = Some info ->
  CalcEdgesWeight est featureId road pointFrom pointTo = None <->
  exists i,
    Z.min pointFrom pointTo <= i < Z.max pointFrom pointTo /\
    CalcTrafficFactor
      (GetSpeedGroup info
         {| m_fid := featureId; m_idx := i;
            m_dir := if pointFrom <? pointTo then kForwardDirection
                     else kReverseDirection |}) = None.
Proof.
  intros Hinfo. unfold CalcEdgesWeight.
  rewrite (EdgeStep_aborts est info) by exact Hinfo.
  split; intros (i & Hi & Hfactor); exists i; (split; [|exact Hfactor]).
  - apply elem_of_seqZ in Hi. lia.
  - apply elem_of_seqZ. lia.
Qed.

Lemma CalcEdgesWeight_aborts_witness :
  CalcEdgesWeight busy_estimator 7 straight_road 9 5 = None <->
  exists i,
    Z.min 9 5 <= i < Z.max 9 5 /\
    CalcTrafficFactor (R := StraightRoads)
      (GetSpeedGroup numbered_traffic
         {| m_fid := 7; m_idx := i;
            m_dir := if 9 <? 5 then kForwardDirection else kReverseDirection |}) = None.
Proof.
  apply (CalcEdgesWeight_aborts busy_estimator numbered_traffic 7 straight_road 9 5).
  reflexivity.
Defined.

(** X15.  The check of [CalcTrafficFactor] on a threshold between 0 and 255
    percent fails exactly for the threshold 0; the factor of the threshold
    100 is exactly 1, and the factor of a threshold from 1 to 100 is at
    least 1, so that such traffic never makes a segment cheaper by its
    factor. *)
Theorem CalcTrafficFactor_threshold {R : RoutingExternal} (speedGroup : Z) :
  0 <= kSpeedGroupThresholdPercentage speedGroup <= 255 ->
  (CalcTrafficFactor speedGroup = None <-> kSpeedGroupThresholdPercentage speedGroup = 0) /\
  (kSpeedGroupThresholdPercentage speedGroup = 100 ->
   CalcTrafficFactor speedGroup = Some 1%float) /\
  (1 <= kSpeedGroupThresholdPercentage speedGroup <= 100 ->
   exists factor, CalcTrafficFactor speedGroup = Some factor /\
                  PrimFloat.leb 1%float factor = true).
Proof.
  intros Hrange.
  pose (factor_of := fun n : Z =>
          @CalcTrafficFactor
            {| PointD := unit; MwmId := unit;
               DistanceOnEarth := fun _ _ => 0%float;
               kSpeedGroupThresholdPercentage := fun _ => n |} 0).
  assert (Hfactor : CalcTrafficFactor speedGroup
                      = factor_of (kSpeedGroupThresholdPercentage speedGroup))
    by reflexivity.
  rewrite Hfactor. clear Hfactor.
  set (n := kSpeedGroupThresholdPercentage speedGroup) in *. clearbody n.
  assert (Hall : forallb
                   (fun m : nat =>
                      match factor_of (Z.of_nat m) with
                      | None => (m =? 0)%nat
                      | Some factor =>
                          negb (m =? 0)%nat &&
                          (if (m <=? 100)%nat then PrimFloat.leb 1%float factor else true)
                      end)
                   (seq 0 256) = true) by (vm_compute; reflexivity).
  rewrite forallb_forall in Hall.
  specialize (Hall (Z.to_nat n)). rewrite Z2Nat.id in Hall by lia.
  assert (Hin : In (Z.to_nat n) (seq 0 256)) by (apply in_seq; lia).
  specialize (Hall Hin).
  split; [|split].
  - destruct (factor_of n) as [factor|].
    + apply andb_prop in Hall as [Hne _]. apply negb_true_iff, Nat.eqb_neq in Hne.
      split; [discriminate | intros ->; now elim Hne].
    + apply Nat.eqb_eq in Hall. split; [intros _; lia | reflexivity].
  - intros ->. vm_compute. reflexivity.
  - intros Hn. destruct (factor_of n) as [factor|].
    + exists factor. split; [reflexivity|].
      apply andb_prop in Hall as [_ Hle].
      destruct (Nat.leb_spec (Z.to_nat n) 100) as [_|]; [exact Hle | lia].
    + apply Nat.eqb_eq in Hall. lia.
Qed.

Lemma CalcTrafficFactor_threshold_witness :
  CalcTrafficFactor (R := StraightRoads) 7 = None <->
  kSpeedGroupThresholdPercentage (RoutingExternal := StraightRoads) 7 = 0.
Proof.
  refine (proj1 (CalcTrafficFactor_threshold (R := StraightRoads) 7 _)).
  vm_compute. split; discriminate.
Defined.

(** ** The target platform *)

